(** * The recitation alignment engine of Hafez

    A shallow embedding of [src/services/advancedRecitationMatcher.ts]
    (class [AdvancedRecitationMatcher]) with the data types it takes from
    [src/quranParser.ts] and the list of recent transcriptions of its caller
    [src/services/recitationSessionManager.ts], the properties its
    specification states, and further properties of the code.

    Conventions of the embedding.
    - A JavaScript string is the list of its UTF-16 code units; [length],
      [charAt], [===] and the regular expressions of the source (none has the
      [u] flag) all work on code units.
    - Numbers that hold counts, verse numbers and positions are integers
      ([Z], or [nat] for lengths and the entries of the two dynamic
      programming tables).  Scores and thresholds are modelled twice.  In
      the first part they are exact rationals ([Q]), for the properties that
      do not depend on how a double is rounded: ranges, scores that are
      exactly 1, the invariants of the session.  The lowering of the
      threshold from 0.7 gives in doubles the values it gives in [Q]
      ([Doubles.thresholds_in_doubles]).  Which windows reach the threshold
      and which candidate ranks first does depend on the rounding
      ([scenario_confidence_at_threshold]); for these the module [Doubles]
      has the scoring and [processAudioChunk] on the binary64 numbers of
      [PrimFloat].
    - [String.prototype.toLowerCase] is a builtin of the host (Unicode default
      case conversion).  It is a parameter of the development; the
      theorems that need facts about it state them as hypotheses.
    - The object state [this.session] is threaded explicitly: a method takes
      the session ([option RecitationSession], [None] for [null]) and returns
      its result with the session it leaves behind.  [this.quran] is set once
      by the constructor and never assigned again, so it is a parameter.
    - Division by zero is 0 in [Q] where JavaScript gives [NaN] or
      [Infinity].  Every division of the source has a positive divisor where
      the code reaches it: behind a guard, or, in [calculateWordOverlap],
      because [processAudioChunk] scores only a transcription that has a word
      ([newSet_nonempty]).
    - [console.log] and [console.warn] are not modelled. *)

From Stdlib Require Import List ZArith NArith QArith Qround Qminmax Lia Lqa Bool Arith.
From Stdlib Require Import Permutation Sorted.
From Stdlib Require PrimFloat Floats.
Import ListNotations.

Close Scope Q_scope.

(** ** JavaScript strings *)

Definition codeUnit := N.
Definition jsString := list codeUnit.

Definition SPACE : codeUnit := 0x20%N.

(** The characters matched by [\s] in a regular expression, which are also
    the characters removed by [trim]: WhiteSpace and LineTerminator. *)
Definition isWhiteSpace (c : codeUnit) : bool :=
  ((0x09 <=? c) && (c <=? 0x0D) || (c =? 0x20) || (c =? 0xA0) || (c =? 0x1680)
   || (0x2000 <=? c) && (c <=? 0x200A) || (c =? 0x2028) || (c =? 0x2029)
   || (c =? 0x202F) || (c =? 0x205F) || (c =? 0x3000) || (c =? 0xFEFF))%N.

(** [a === b] on strings. *)
Fixpoint strEq (a b : jsString) : bool :=
  match a, b with
  | [], [] => true
  | x :: a', y :: b' => (x =? y)%N && strEq a' b'
  | _, _ => false
  end.

(** [!s] on a string: only the empty string is falsy. *)
Definition isEmpty (s : jsString) : bool :=
  match s with [] => true | _ => false end.

(** [s.replace(/[class]/g, r)] for a pattern that matches one code unit. *)
Definition replaceAll (p : codeUnit -> bool) (r : jsString) (s : jsString) : jsString :=
  flat_map (fun c => if p c then r else [c]) s.

(** [s.replace(/\s+/g, ' ')]: every maximal run of white space becomes one
    space.  [inRun] tells that the previous code unit was white space. *)
Fixpoint collapseFrom (inRun : bool) (s : jsString) : jsString :=
  match s with
  | [] => []
  | c :: s' =>
      if isWhiteSpace c
      then if inRun then collapseFrom true s' else SPACE :: collapseFrom true s'
      else c :: collapseFrom false s'
  end.

Definition collapseWhiteSpace (s : jsString) : jsString := collapseFrom false s.

Fixpoint trimStart (s : jsString) : jsString :=
  match s with
  | [] => []
  | c :: s' => if isWhiteSpace c then trimStart s' else s
  end.

Fixpoint trimEnd (s : jsString) : jsString :=
  match s with
  | [] => []
  | c :: s' =>
      match trimEnd s' with
      | [] => if isWhiteSpace c then [] else [c]
      | t => c :: t
      end
  end.

(** [s.trim()]. *)
Definition trim (s : jsString) : jsString := trimEnd (trimStart s).

(** [s.split(/\s+/)]: the pieces between the maximal runs of white space.  A
    string that starts (ends) with white space has an empty first (last)
    piece, and the empty string has the single piece [""]. *)
Fixpoint splitFrom (inRun : bool) (s : jsString) : list jsString :=
  match s with
  | [] => [[]]
  | c :: s' =>
      if isWhiteSpace c
      then if inRun then splitFrom true s' else [] :: splitFrom true s'
      else match splitFrom false s' with
           | w :: ws => (c :: w) :: ws
           | [] => [[c]]
           end
  end.

Definition splitWhiteSpace (s : jsString) : list jsString := splitFrom false s.

(** [s.split(/\s+/).filter(w => w.length > 0)]. *)
Definition tokenize (s : jsString) : list jsString :=
  filter (fun w => 0 <? length w) (splitWhiteSpace s).

(** [l.join(sep)]. *)
Fixpoint join (sep : jsString) (l : list jsString) : jsString :=
  match l with
  | [] => []
  | [x] => x
  | x :: l' => x ++ sep ++ join sep l'
  end.

(** [l.slice(b, e)] for integers [0 <= b]: the elements at the indices
    [b <= k < min e (length l)]. *)
Definition slice {A : Type} (l : list A) (b e : Z) : list A :=
  firstn (Z.to_nat e - Z.to_nat b) (skipn (Z.to_nat b) l).

(** The values of the loop variable of [for (k = lo; k < hi; k++)]. *)
Definition range (lo hi : Z) : list Z :=
  map (fun k => lo + Z.of_nat k)%Z (seq 0 (Z.to_nat (hi - lo))).

(** A length or a count as a score. *)
Definition Qnat (n : nat) : Q := inject_Z (Z.of_nat n).

(** [Math.round]: the nearest integer, halves rounded up. *)
Definition Math_round (x : Q) : Z := Qfloor (x + (1 # 2))%Q.

(** ** The corpus ([quranParser.ts]) *)

Module Aya.
Record t : Type := mk { index : Z; text : jsString; bismillah : option jsString }.
End Aya.

Module Sura.
Record t : Type := mk { index : Z; name : jsString; ayas : list Aya.t }.
End Sura.

Record QuranData : Type := { suras : list Sura.t }.

(** ** The data of the matcher *)

Module AyahWindow.
Record t : Type := mk {
  startAyah : Z;
  endAyah : Z;
  text : jsString;
  normalizedText : jsString;
  words : list jsString;
  confidence : option Q
}.
End AyahWindow.

Module MatchResult.
Record t : Type := mk {
  windowIndex : Z;
  confidence : Q;
  accuracy : Q;
  matchedWords : Z;
  totalWords : Z;
  startAyah : Z;
  endAyah : Z;
  alignmentScore : Q
}.
End MatchResult.

Record RecitationSession : Type := {
  suraIndex : Z;
  currentPosition : Z;
  windowSize : Z;
  confidenceThreshold : Q;
  slidingWindows : list AyahWindow.t;
  sessionHistory : list MatchResult.t;
  lastSuccessfulMatch : option MatchResult.t;
  consecutiveFailures : Z;
  isActive : bool
}.

(** What [scoreWindow] returns:
    [Omit<MatchResult, 'windowIndex' | 'startAyah' | 'endAyah'>]. *)
Module Score.
Record t : Type := mk {
  confidence : Q;
  accuracy : Q;
  matchedWords : Z;
  totalWords : Z;
  alignmentScore : Q
}.
End Score.

(** What [getSessionStats] returns. *)
Module SessionStats.
Record t : Type := mk {
  suraIndex : Z;
  currentPosition : Z;
  totalMatches : nat;
  averageConfidence : Q;
  consecutiveFailures : Z;
  confidenceThreshold : Q;
  windowSize : Z
}.
End SessionStats.

(** The error thrown by [initializeSession]:
    [new Error(`Sura ${suraIndex} not found`)]. *)
Inductive Error : Type :=
| SuraNotFound (suraIndex : Z).

(** ** Levenshtein distance ([levenshteinDistance])

    The rows of [matrix] are indexed by the prefixes of [str2] and its
    columns by the prefixes of [str1].  [levRow c2 str1 prev left] is the part
    of a row to the right of the entry [left], for the character [c2] of
    [str2]; [prev] is the part of the row above that starts at the diagonal
    neighbour. *)

Fixpoint levRow (c2 : codeUnit) (str1 : jsString) (prev : list nat) (left : nat) : list nat :=
  match str1, prev with
  | c1 :: str1', diag :: ((up :: _) as prev') =>
      let v := if (c2 =? c1)%N
               then diag
               else Nat.min (Nat.min (diag + 1) (left + 1)) (up + 1) in
      v :: levRow c2 str1' prev' v
  | _, _ => []
  end.

(** The rows [matrix[i]], [matrix[i+1]], ... for the characters of [str2]
    that are left; [prev] is [matrix[i-1]]. *)
Fixpoint levRows (str1 : jsString) (i : nat) (prev : list nat) (str2 : jsString) : list (list nat) :=
  match str2 with
  | [] => []
  | c2 :: str2' =>
      let row := i :: levRow c2 str1 prev i in
      row :: levRows str1 (S i) row str2'
  end.

Definition levMatrix (str1 str2 : jsString) : list (list nat) :=
  let row0 := seq 0 (S (length str1)) in
  row0 :: levRows str1 1 row0 str2.

Definition levenshteinDistance (str1 str2 : jsString) : nat :=
  nth (length str1) (nth (length str2) (levMatrix str1 str2) []) 0.

(** [calculateSimilarity] *)
Definition calculateSimilarity (str1 str2 : jsString) : Q :=
  let longer := if length str2 <? length str1 then str1 else str2 in
  let shorter := if length str2 <? length str1 then str2 else str1 in
  if length longer =? 0 then 1%Q
  else
    let editDistance := levenshteinDistance longer shorter in
    ((Qnat (length longer) - Qnat editDistance) / Qnat (length longer))%Q.

(** [new Set(l)]: the distinct elements of [l], in the order of their first
    occurrence. *)
Definition setHas (s : list jsString) (w : jsString) : bool := existsb (strEq w) s.

Definition newSet (l : list jsString) : list jsString :=
  fold_left (fun s w => if setHas s w then s else s ++ [w]) l [].

(** [calculateWordOverlap] *)
Definition calculateWordOverlap (transcribed window : list jsString) : Q :=
  let transcribedSet := newSet transcribed in
  let windowSet := newSet window in
  let overlap := length (filter (setHas windowSet) transcribedSet) in
  (Qnat overlap / Qnat (Nat.max (length transcribedSet) (length windowSet)))%Q.

(** [calculateEditScore] *)
Definition calculateEditScore (transcribed window : list jsString) : Q :=
  let joinedTranscribed := join [SPACE] transcribed in
  let joinedWindow := join [SPACE] window in
  let editDistance := levenshteinDistance joinedTranscribed joinedWindow in
  let maxLength := Nat.max (length joinedTranscribed) (length joinedWindow) in
  if 0 <? maxLength then (1 - Qnat editDistance / Qnat maxLength)%Q else 0%Q.

(** [Array.prototype.sort(compareFn)].  The sort is stable, and [a] is placed
    before [b] when [compareFn(a, b) < 0].  For a comparator that orders the
    elements by a key there is one stable sorted arrangement
    ([stable_sorted_unique]), whatever algorithm the host uses; inserting the
    elements from the right computes it. *)
Definition Qltb (x y : Q) : bool := negb (Qle_bool y x).

Fixpoint sortInsert {A : Type} (compareFn : A -> A -> Q) (x : A) (l : list A) : list A :=
  match l with
  | [] => [x]
  | y :: l' =>
      if Qltb (compareFn y x) 0%Q then y :: sortInsert compareFn x l' else x :: l
  end.

Definition Array_sort {A : Type} (compareFn : A -> A -> Q) (l : list A) : list A :=
  fold_right (sortInsert compareFn) [] l.

(** ** The list of recent transcriptions ([recitationSessionManager.ts])

    The statements that [handleTranscription] starts with:
    [recentTranscriptions.unshift(transcription)], then
    [if (recentTranscriptions.length > 5) recentTranscriptions.pop()]. *)
Definition rememberTranscription (recentTranscriptions : list jsString)
  (transcription : jsString) : list jsString :=
  let unshifted := transcription :: recentTranscriptions in
  if 5 <? length unshifted then removelast unshifted else unshifted.

(** ** Data for the examples

    An instance of [toLowerCase] that lowers the letters A to Z (what the
    builtin does on strings of ASCII and Arabic characters), and the corpus
    of the specification's scenarios: sura 1 with its first two verses. *)

Definition lowerUnit (c : codeUnit) : codeUnit :=
  if ((0x41 <=? c) && (c <=? 0x5A))%N then (c + 0x20)%N else c.

Definition lowerASCII (s : jsString) : jsString := map lowerUnit s.

Definition verse1 : jsString :=
  [0x628; 0x633; 0x645; 0x20; 0x627; 0x644; 0x644; 0x647; 0x20; 0x627; 0x644;
   0x631; 0x62D; 0x645; 0x646; 0x20; 0x627; 0x644; 0x631; 0x62D; 0x64A; 0x645]%N.

Definition verse2 : jsString :=
  [0x627; 0x644; 0x62D; 0x645; 0x62F; 0x20; 0x644; 0x644; 0x647; 0x20; 0x631;
   0x628; 0x20; 0x627; 0x644; 0x639; 0x627; 0x644; 0x645; 0x64A; 0x646]%N.

Definition sampleSura : Sura.t :=
  Sura.mk 1 [] [Aya.mk 1 verse1 None; Aya.mk 2 verse2 None].

Definition sampleQuran : QuranData := {| suras := [sampleSura] |}.

(** The transcription ["xyz abc"]. *)
Definition garbage : jsString := [0x78; 0x79; 0x7A; 0x20; 0x61; 0x62; 0x63]%N.

(** ** The matcher *)

Section Matcher.

(** [String.prototype.toLowerCase] and the corpus given to the constructor. *)
Variable toLowerCase : jsString -> jsString.
Variable quran : QuranData.

(** [normalizeArabicText] *)
Definition isDiacritic (c : codeUnit) : bool := ((0x064B <=? c) && (c <=? 0x0652))%N.
Definition isAlifVariant (c : codeUnit) : bool := ((c =? 0x0625) || (c =? 0x0623) || (c =? 0x0622))%N.
Definition isTaMarbuta (c : codeUnit) : bool := (c =? 0x0629)%N.
Definition isYa (c : codeUnit) : bool := (c =? 0x064A)%N.
Definition isFarsiKaf (c : codeUnit) : bool := (c =? 0x06A9)%N.

Definition ALIF : codeUnit := 0x0627%N.
Definition HA : codeUnit := 0x0647%N.
Definition ALIF_MAKSURA : codeUnit := 0x0649%N.
Definition KAF : codeUnit := 0x0643%N.

(** The steps of [normalizeArabicText] before [toLowerCase]. *)
Definition foldArabic (text : jsString) : jsString :=
  trim
    (collapseWhiteSpace
       (replaceAll isFarsiKaf [KAF]
          (replaceAll isYa [ALIF_MAKSURA]
             (replaceAll isTaMarbuta [HA]
                (replaceAll isAlifVariant [ALIF]
                   (replaceAll isDiacritic [] text)))))).

Definition normalizeArabicText (text : jsString) : jsString :=
  toLowerCase (foldArabic text).

(** [arabicWordMatch] *)
Definition arabicWordMatch (word1 word2 : jsString) : bool :=
  if isEmpty word1 || isEmpty word2 then false
  else
    let norm1 := normalizeArabicText word1 in
    let norm2 := normalizeArabicText word2 in
    if strEq norm1 norm2 then true
    else if (2 <? length norm1) && (2 <? length norm2)
         then Qle_bool 0.85%Q (calculateSimilarity norm1 norm2)
         else false.

(** [longestCommonSubsequence].  [lcsRow a arr2 prev left] is the part of the
    row of [dp] for the word [a] of [arr1] to the right of the entry [left];
    [prev] is the part of the row above that starts at the diagonal
    neighbour. *)
Fixpoint lcsRow (a : jsString) (arr2 : list jsString) (prev : list nat) (left : nat) : list nat :=
  match arr2, prev with
  | b :: arr2', diag :: ((up :: _) as prev') =>
      let v := if arabicWordMatch a b then diag + 1 else Nat.max up left in
      v :: lcsRow a arr2' prev' v
  | _, _ => []
  end.

Fixpoint lcsRows (arr2 : list jsString) (prev : list nat) (arr1 : list jsString) : list (list nat) :=
  match arr1 with
  | [] => []
  | a :: arr1' =>
      let row := 0 :: lcsRow a arr2 prev 0 in
      row :: lcsRows arr2 row arr1'
  end.

Definition lcsTable (arr1 arr2 : list jsString) : list (list nat) :=
  let row0 := repeat 0 (S (length arr2)) in
  row0 :: lcsRows arr2 row0 arr1.

Definition tableAt (dp : list (list nat)) (i j : nat) : nat := nth j (nth i dp []) 0.

(** The loop that reconstructs the subsequence, from the state [(i, j, lcs)];
    [arr[k]] outside the array is [undefined], which [arabicWordMatch] treats
    as it treats the empty string. *)
Fixpoint lcsBack (arr1 arr2 : list jsString) (dp : list (list nat)) (i : nat) {struct i}
  : nat -> list jsString -> list jsString :=
  match i with
  | O => fun _ lcs => lcs
  | S i' =>
      fix inner (j : nat) (lcs : list jsString) {struct j} : list jsString :=
        match j with
        | O => lcs
        | S j' =>
            if arabicWordMatch (nth i' arr1 []) (nth j' arr2 [])
            then lcsBack arr1 arr2 dp i' j' (nth i' arr1 [] :: lcs)
            else if tableAt dp (S i') j' <? tableAt dp i' (S j')
                 then lcsBack arr1 arr2 dp i' j lcs
                 else inner j' lcs
        end
  end.

Definition longestCommonSubsequence (arr1 arr2 : list jsString) : list jsString :=
  lcsBack arr1 arr2 (lcsTable arr1 arr2) (length arr1) (length arr2) [].

(** [calculateSequenceMatch] *)
Definition calculateSequenceMatch (transcribed window : list jsString) : Q :=
  if (length transcribed =? 0) || (length window =? 0) then 0%Q
  else
    let lcs := longestCommonSubsequence transcribed window in
    (Qnat (length lcs) / Qnat (Nat.max (length transcribed) (length window)))%Q.

(** [calculateAlignmentScore]; the state of its loop is
    [(alignmentScore, matches)]. *)
Definition alignmentStep (transcribed window : list jsString) (minLength : nat)
  (st : Q * nat) (i : nat) : Q * nat :=
  if arabicWordMatch (nth i transcribed []) (nth i window [])
  then ((fst st + (Qnat minLength - Qnat i) / Qnat minLength)%Q, S (snd st))
  else st.

Definition calculateAlignmentScore (transcribed window : list jsString) : Q :=
  let minLength := Nat.min (length transcribed) (length window) in
  let '(alignmentScore, matches) :=
    fold_left (alignmentStep transcribed window minLength) (seq 0 minLength) (0%Q, O) in
  if 0 <? matches then (alignmentScore / Qnat matches)%Q else 0%Q.

(** [scoreWindow] *)
Definition scoreWindow (transcribedWords : list jsString) (window : AyahWindow.t) : Score.t :=
  let windowWords := AyahWindow.words window in
  let sequenceMatch := calculateSequenceMatch transcribedWords windowWords in
  let overlapScore := calculateWordOverlap transcribedWords windowWords in
  let editScore := calculateEditScore transcribedWords windowWords in
  let alignmentScore := calculateAlignmentScore transcribedWords windowWords in
  let confidence := (sequenceMatch * 0.5 + overlapScore * 0.3 + editScore * 0.2)%Q in
  let accuracy := sequenceMatch in
  {| Score.confidence := confidence;
     Score.accuracy := accuracy;
     Score.matchedWords := Math_round (sequenceMatch * Qnat (length transcribedWords))%Q;
     Score.totalWords := Z.of_nat (length transcribedWords);
     Score.alignmentScore := alignmentScore |}.

(** [this.quran?.suras.find(s => s.index === suraIndex)] *)
Definition findSura (suraIndex : Z) : option Sura.t :=
  find (fun s => (Sura.index s =? suraIndex)%Z) (suras quran).

(** The window pushed by [buildSlidingWindows] for the verses [windowAyas].
    The guard of the loop makes [windowAyas] non-empty
    ([slice_in_loop_length]), so [windowAyas[0]] and the last element are
    defined and [noAya] is never read. *)
Definition noAya : Aya.t := Aya.mk 0 [] None.

Definition makeWindow (windowAyas : list Aya.t) : AyahWindow.t :=
  let combinedText := join [SPACE] (map Aya.text windowAyas) in
  let normalizedText := normalizeArabicText combinedText in
  {| AyahWindow.startAyah := Aya.index (nth 0 windowAyas noAya);
     AyahWindow.endAyah := Aya.index (nth (length windowAyas - 1) windowAyas noAya);
     AyahWindow.text := combinedText;
     AyahWindow.normalizedText := normalizedText;
     AyahWindow.words := tokenize normalizedText;
     AyahWindow.confidence := None |}.

(** The windows pushed by the inner loop of [buildSlidingWindows] at the
    start index [i]. *)
Definition windowsAt (ayas : list Aya.t) (sessionWindowSize : Z) (i : Z) : list AyahWindow.t :=
  flat_map
    (fun windowSize =>
       if (i + windowSize <=? Z.of_nat (length ayas))%Z
       then [makeWindow (slice ayas i (i + windowSize))]
       else [])
    (range 1 (sessionWindowSize + 1)).

(** The array that [buildSlidingWindows] leaves in [slidingWindows]. *)
Definition windowsAround (sura : Sura.t) (currentPosition windowSize : Z) : list AyahWindow.t :=
  let windowRadius := Z.max 5 (windowSize * 2) in
  let startPos := Z.max 0 (currentPosition - windowRadius - 1) in
  let endPos := Z.min (Z.of_nat (length (Sura.ayas sura))) (currentPosition + windowRadius) in
  flat_map (windowsAt (Sura.ayas sura) windowSize) (range startPos endPos).

Definition setSlidingWindows (session : RecitationSession) (windows : list AyahWindow.t)
  : RecitationSession :=
  {| suraIndex := suraIndex session;
     currentPosition := currentPosition session;
     windowSize := windowSize session;
     confidenceThreshold := confidenceThreshold session;
     slidingWindows := windows;
     sessionHistory := sessionHistory session;
     lastSuccessfulMatch := lastSuccessfulMatch session;
     consecutiveFailures := consecutiveFailures session;
     isActive := isActive session |}.

(** [buildSlidingWindows], on a session that is not [null]. *)
Definition buildSlidingWindows (session : RecitationSession) : RecitationSession :=
  match findSura (suraIndex session) with
  | None => session
  | Some sura =>
      setSlidingWindows session
        (windowsAround sura (currentPosition session) (windowSize session))
  end.

(** [initializeSession]: the value returned or the error thrown, and the
    session left in [this.session]. *)
Definition initializeSession (st : option RecitationSession)
  (suraIndex startingAyah windowSize : Z)
  : (Error + RecitationSession) * option RecitationSession :=
  match findSura suraIndex with
  | None => (inl (SuraNotFound suraIndex), st)
  | Some _ =>
      let session :=
        buildSlidingWindows
          {| suraIndex := suraIndex;
             currentPosition := startingAyah;
             windowSize := windowSize;
             confidenceThreshold := 0.7%Q;
             slidingWindows := [];
             sessionHistory := [];
             lastSuccessfulMatch := None;
             consecutiveFailures := 0%Z;
             isActive := true |} in
      (inr session, Some session)
  end.

(** The default arguments [startingAyah = 1] and [windowSize = 3]. *)
Definition initializeSessionDefault (st : option RecitationSession) (suraIndex : Z) :=
  initializeSession st suraIndex 1%Z 3%Z.

(** [{...score, windowIndex: i, startAyah: window.startAyah, endAyah: window.endAyah}] *)
Definition toMatchResult (score : Score.t) (i : Z) (window : AyahWindow.t) : MatchResult.t :=
  {| MatchResult.windowIndex := i;
     MatchResult.confidence := Score.confidence score;
     MatchResult.accuracy := Score.accuracy score;
     MatchResult.matchedWords := Score.matchedWords score;
     MatchResult.totalWords := Score.totalWords score;
     MatchResult.startAyah := AyahWindow.startAyah window;
     MatchResult.endAyah := AyahWindow.endAyah window;
     MatchResult.alignmentScore := Score.alignmentScore score |}.

(** The scoring loop of [processAudioChunk] from the index [i] on: the
    entries it pushes to [windowScores]. *)
Fixpoint scoreWindows (transcribedWords : list jsString) (threshold : Q) (i : Z)
  (windows : list AyahWindow.t) : list MatchResult.t :=
  match windows with
  | [] => []
  | window :: rest =>
      let score := scoreWindow transcribedWords window in
      if Qle_bool threshold (Score.confidence score)
      then toMatchResult score i window :: scoreWindows transcribedWords threshold (i + 1)%Z rest
      else scoreWindows transcribedWords threshold (i + 1)%Z rest
  end.

(** The comparator given to [windowScores.sort]. *)
Definition combinedScore (m : MatchResult.t) : Q :=
  (MatchResult.confidence m * 0.4 + MatchResult.accuracy m * 0.4
   + MatchResult.alignmentScore m * 0.2)%Q.

Definition compareScores (a b : MatchResult.t) : Q :=
  let scoreA := combinedScore a in
  let scoreB := combinedScore b in
  (scoreB - scoreA)%Q.

(** [handleConsecutiveFailures], on a session that is not [null]. *)
Definition handleConsecutiveFailures (session : RecitationSession) : RecitationSession :=
  buildSlidingWindows
    {| suraIndex := suraIndex session;
       currentPosition :=
         match lastSuccessfulMatch session with
         | Some m => MatchResult.startAyah m
         | None => 1%Z
         end;
       windowSize := Z.min 5 (windowSize session + 1);
       confidenceThreshold := Qmax 0.5%Q (confidenceThreshold session - 0.1)%Q;
       slidingWindows := slidingWindows session;
       sessionHistory := sessionHistory session;
       lastSuccessfulMatch := lastSuccessfulMatch session;
       consecutiveFailures := consecutiveFailures session;
       isActive := isActive session |}.

(** The session after the branch [if (bestMatch)] of [processAudioChunk]. *)
Definition recordMatch (session : RecitationSession) (bestMatch : MatchResult.t)
  : RecitationSession :=
  buildSlidingWindows
    {| suraIndex := suraIndex session;
       currentPosition := (MatchResult.endAyah bestMatch + 1)%Z;
       windowSize := windowSize session;
       confidenceThreshold := confidenceThreshold session;
       slidingWindows := slidingWindows session;
       sessionHistory := sessionHistory session ++ [bestMatch];
       lastSuccessfulMatch := Some bestMatch;
       consecutiveFailures := 0%Z;
       isActive := isActive session |}.

(** The session after the [else] branch of [processAudioChunk]. *)
Definition recordFailure (session : RecitationSession) : RecitationSession :=
  let session' :=
    {| suraIndex := suraIndex session;
       currentPosition := currentPosition session;
       windowSize := windowSize session;
       confidenceThreshold := confidenceThreshold session;
       slidingWindows := slidingWindows session;
       sessionHistory := sessionHistory session;
       lastSuccessfulMatch := lastSuccessfulMatch session;
       consecutiveFailures := (consecutiveFailures session + 1)%Z;
       isActive := isActive session |} in
  if (3 <=? consecutiveFailures session')%Z
  then handleConsecutiveFailures session'
  else session'.

(** [processAudioChunk] (the specification's [processUtterance]): the value
    the promise resolves to, and the session left in [this.session]. *)
Definition processAudioChunk (st : option RecitationSession) (transcribedText : jsString)
  : option MatchResult.t * option RecitationSession :=
  match st with
  | None => (None, st)
  | Some session =>
      if negb (isActive session) then (None, st)
      else
        let normalizedTranscription := normalizeArabicText transcribedText in
        let transcribedWords := tokenize normalizedTranscription in
        if length transcribedWords =? 0 then (None, st)
        else
          let windowScores :=
            Array_sort compareScores
              (scoreWindows transcribedWords (confidenceThreshold session) 0%Z
                 (slidingWindows session)) in
          match windowScores with
          | bestMatch :: _ => (Some bestMatch, Some (recordMatch session bestMatch))
          | [] => (None, Some (recordFailure session))
          end
  end.

(** [jumpToPosition] *)
Definition jumpToPosition (st : option RecitationSession) (ayahNumber : Z)
  : option RecitationSession :=
  match st with
  | None => None
  | Some session =>
      Some (buildSlidingWindows
              {| suraIndex := suraIndex session;
                 currentPosition := ayahNumber;
                 windowSize := windowSize session;
                 confidenceThreshold := 0.7%Q;
                 slidingWindows := slidingWindows session;
                 sessionHistory := sessionHistory session;
                 lastSuccessfulMatch := lastSuccessfulMatch session;
                 consecutiveFailures := 0%Z;
                 isActive := isActive session |})
  end.

(** [resetSession] *)
Definition resetSession (st : option RecitationSession) : option RecitationSession :=
  match st with
  | None => None
  | Some session =>
      Some {| suraIndex := suraIndex session;
              currentPosition := currentPosition session;
              windowSize := 3%Z;
              confidenceThreshold := 0.7%Q;
              slidingWindows := slidingWindows session;
              sessionHistory := sessionHistory session;
              lastSuccessfulMatch := lastSuccessfulMatch session;
              consecutiveFailures := 0%Z;
              isActive := isActive session |}
  end.

(** [getSessionStats]; [null] without a session. *)
Definition getSessionStats (st : option RecitationSession) : option SessionStats.t :=
  match st with
  | None => None
  | Some session =>
      Some {| SessionStats.suraIndex := suraIndex session;
              SessionStats.currentPosition := currentPosition session;
              SessionStats.totalMatches := length (sessionHistory session);
              SessionStats.averageConfidence :=
                if 0 <? length (sessionHistory session)
                then (fold_left (fun sum m => (sum + MatchResult.confidence m)%Q)
                        (sessionHistory session) 0%Q
                      / Qnat (length (sessionHistory session)))%Q
                else 0%Q;
              SessionStats.consecutiveFailures := consecutiveFailures session;
              SessionStats.confidenceThreshold := confidenceThreshold session;
              SessionStats.windowSize := windowSize session |}
  end.

(** ** Notions that the properties are stated with *)

(** The comparator [(a, b) => key(b) - key(a)], which sorts by a key, largest
    first. *)
Definition byKeyDescending {A : Type} (key : A -> Q) (a b : A) : Q := (key b - key a)%Q.

(** [h] is the first element of [l] that has the largest key. *)
Definition firstLargest {A : Type} (key : A -> Q) (l : list A) (h : A) : Prop :=
  exists pre post,
    l = pre ++ h :: post /\
    (forall d, In d pre -> (key d < key h)%Q) /\
    (forall d, In d post -> (key d <= key h)%Q).

(** Edit scripts: [edit a b n] says that [a] is turned into [b] by a script
    that keeps or substitutes, deletes and inserts characters, [n] of its
    steps being substitutions, deletions or insertions. *)
Inductive edit : jsString -> jsString -> nat -> Prop :=
| edit_nil : edit [] [] 0
| edit_keep c a b n : edit a b n -> edit (c :: a) (c :: b) n
| edit_substitute c d a b n : edit a b n -> edit (c :: a) (d :: b) (S n)
| edit_delete c a b n : edit a b n -> edit (c :: a) b (S n)
| edit_insert d a b n : edit a b n -> edit a (d :: b) (S n).

(** The classic recursive definition of the distance: the cheapest of a
    substitution (free when the characters agree), a deletion and an
    insertion at the head. *)
Fixpoint levClassic (a : jsString) : jsString -> nat :=
  match a with
  | [] => fun b => length b
  | x :: a' =>
      fix inner (b : jsString) : nat :=
        match b with
        | [] => S (length a')
        | y :: b' =>
            Nat.min
              (Nat.min (levClassic a' b' + (if (x =? y)%N then 0 else 1))
                       (inner b' + 1))
              (levClassic a' b + 1)
        end
  end.

(** The recurrence that [levenshteinDistance] fills its matrix with, read on
    the prefixes in reverse: equal characters copy the diagonal entry without
    looking at the two neighbours. *)
Fixpoint levCode (s2 : jsString) : jsString -> nat :=
  match s2 with
  | [] => fun s1 => length s1
  | x :: s2' =>
      fix inner (s1 : jsString) : nat :=
        match s1 with
        | [] => S (length s2')
        | y :: s1' =>
            if (x =? y)%N
            then levCode s2' s1'
            else Nat.min (Nat.min (levCode s2' s1' + 1) (inner s1' + 1))
                         (levCode s2' s1 + 1)
        end
  end.

(** The entries of a row of the matrix to the right of the column of the
    reversed prefix [q] of [str1], when [rest] is what is left of [str1]. *)
Fixpoint rowFrom (s2 q rest : jsString) : list nat :=
  match rest with
  | [] => []
  | c :: rest' => levCode s2 (c :: q) :: rowFrom s2 (c :: q) rest'
  end.

Definition fullRow (s2 str1 : jsString) : list nat :=
  levCode s2 [] :: rowFrom s2 [] str1.

(** The spans the specification asks for: every start verse within the
    radius of the current position and inside the sura, with every end verse
    that keeps the window inside the sura and no longer than [windowSize]
    verses. *)
Definition specWindowSpans (verses currentPosition windowSize : Z) : list (Z * Z) :=
  let radius := Z.max 5 (windowSize * 2) in
  flat_map
    (fun s => map (pair s) (range s (Z.min verses (s + windowSize - 1) + 1)))
    (range (Z.max 1 (currentPosition - radius))
           (Z.min verses (currentPosition + radius) + 1)).

(** The corpus invariant of the specification: the verses of a sura are
    numbered 1, 2, ... in the order of the array. *)
Definition contiguousAyas (sura : Sura.t) : Prop :=
  forall k, k < length (Sura.ayas sura) ->
    Aya.index (nth k (Sura.ayas sura) noAya) = (Z.of_nat k + 1)%Z.

(** A code unit that one of the replacements of [normalizeArabicText]
    rewrites. *)
Definition isRewritten (c : codeUnit) : bool :=
  isDiacritic c || isAlifVariant c || isTaMarbuta c || isYa c || isFarsiKaf c.

(** A code unit that the steps before [toLowerCase] leave where it is:
    neither rewritten nor white space. *)
Definition isPlain (c : codeUnit) : bool := negb (isRewritten c) && negb (isWhiteSpace c).

(** The strings the steps before [toLowerCase] produce: words of plain
    code units with one space between two words. *)
Inductive folded : jsString -> Prop :=
| folded_nil : folded []
| folded_word w : w <> [] -> Forall (fun c => isPlain c = true) w -> folded w
| folded_more w s :
    w <> [] -> Forall (fun c => isPlain c = true) w -> s <> [] -> folded s ->
    folded (w ++ SPACE :: s).

Definition startsWithWhiteSpace (s : jsString) : bool :=
  match s with
  | c :: _ => isWhiteSpace c
  | [] => false
  end.

(** The five replacements, one after the other. *)
Definition rewriteAll (text : jsString) : jsString :=
  replaceAll isFarsiKaf [KAF]
    (replaceAll isYa [ALIF_MAKSURA]
       (replaceAll isTaMarbuta [HA]
          (replaceAll isAlifVariant [ALIF]
             (replaceAll isDiacritic [] text)))).

(** The windows accepted as candidates for an utterance: what the scoring
    loop of [processAudioChunk] pushes to [windowScores]. *)
Definition acceptedWindows (session : RecitationSession) (transcribedText : jsString)
  : list MatchResult.t :=
  scoreWindows (tokenize (normalizeArabicText transcribedText))
    (confidenceThreshold session) 0%Z (slidingWindows session).

(** The sessions the class can be in: [null] after the constructor, then
    whatever the public methods leave. *)
Inductive step : option RecitationSession -> option RecitationSession -> Prop :=
| step_initialize st suraIndex startingAyah windowSize :
    step st (snd (initializeSession st suraIndex startingAyah windowSize))
| step_process st transcribedText :
    step st (snd (processAudioChunk st transcribedText))
| step_jump st ayahNumber :
    step st (jumpToPosition st ayahNumber)
| step_reset st :
    step st (resetSession st).

Inductive reachable : option RecitationSession -> Prop :=
| reachable_new : reachable None
| reachable_step st st' : reachable st -> step st st' -> reachable st'.

(** A common subsequence under the fuzzy match: [commonSub l1 l2 sub] says
    that [sub] is a subsequence of [l1] whose words match, one by one and in
    order, the words of a subsequence of [l2]. *)
Inductive commonSub : list jsString -> list jsString -> list jsString -> Prop :=
| common_nil : commonSub [] [] []
| common_match x y l1 l2 sub :
    arabicWordMatch x y = true -> commonSub l1 l2 sub ->
    commonSub (x :: l1) (y :: l2) (x :: sub)
| common_skip_l x l1 l2 sub : commonSub l1 l2 sub -> commonSub (x :: l1) l2 sub
| common_skip_r y l1 l2 sub : commonSub l1 l2 sub -> commonSub l1 (y :: l2) sub.

(** The length of a longest common subsequence, by the recursion that looks
    at all three neighbours. *)
Fixpoint lcsClassic (l1 : list jsString) : list jsString -> nat :=
  match l1 with
  | [] => fun _ => 0
  | x :: l1' =>
      fix inner (l2 : list jsString) : nat :=
        match l2 with
        | [] => 0
        | y :: l2' =>
            Nat.max
              (Nat.max (lcsClassic l1' l2' + (if arabicWordMatch x y then 1 else 0))
                       (lcsClassic l1' l2))
              (inner l2')
        end
  end.

(** The recurrence that [longestCommonSubsequence] fills [dp] with, read on
    the prefixes in reverse. *)
Fixpoint lcsCode (s1 : list jsString) : list jsString -> nat :=
  match s1 with
  | [] => fun _ => 0
  | x :: s1' =>
      fix inner (s2 : list jsString) : nat :=
        match s2 with
        | [] => 0
        | y :: s2' =>
            if arabicWordMatch x y
            then lcsCode s1' s2' + 1
            else Nat.max (lcsCode s1' s2) (inner s2')
        end
  end.

(** The entries of a row of [dp] to the right of the column of the reversed
    prefix [q] of [arr2], when [rest] is what is left of [arr2]. *)
Fixpoint lcsRowFrom (s1 q rest : list jsString) : list nat :=
  match rest with
  | [] => []
  | b :: rest' => lcsCode s1 (b :: q) :: lcsRowFrom s1 (b :: q) rest'
  end.

Definition lcsFullRow (s1 arr2 : list jsString) : list nat :=
  lcsCode s1 [] :: lcsRowFrom s1 [] arr2.

(** What the class keeps true of a match it has recorded. *)
Definition matchInRange (m : MatchResult.t) : Prop :=
  (0.5 <= MatchResult.confidence m <= 1)%Q /\
  (0 <= MatchResult.accuracy m <= 1)%Q /\
  (0 <= MatchResult.alignmentScore m <= 1)%Q /\
  (0 <= MatchResult.matchedWords m <= MatchResult.totalWords m)%Z /\
  (0 <= MatchResult.windowIndex m)%Z.

(** A window built from the verses [a] to [b] of a sura, and a match on such
    a window. *)
Definition windowFromSura (sura : Sura.t) (w : AyahWindow.t) : Prop :=
  exists a b,
    (1 <= a <= b)%Z /\ (b <= Z.of_nat (length (Sura.ayas sura)))%Z /\
    w = makeWindow (slice (Sura.ayas sura) (a - 1) b).

Definition matchFromSura (sura : Sura.t) (m : MatchResult.t) : Prop :=
  exists w,
    windowFromSura sura w /\
    MatchResult.startAyah m = AyahWindow.startAyah w /\
    MatchResult.endAyah m = AyahWindow.endAyah w.

(** What the methods of the class keep true of the session. *)
Definition sessionInvariant (s : RecitationSession) : Prop :=
  isActive s = true /\
  (0 <= consecutiveFailures s)%Z /\
  (0.5 <= confidenceThreshold s <= 0.7)%Q /\
  lastSuccessfulMatch s = hd_error (rev (sessionHistory s)) /\
  Forall matchInRange (sessionHistory s) /\
  exists sura,
    findSura (suraIndex s) = Some sura /\
    Forall (windowFromSura sura) (slidingWindows s) /\
    Forall (matchFromSura sura) (sessionHistory s).

(** * Properties *)

(** ** Strings and numbers *)

Lemma strEq_eq (a b : jsString) : strEq a b = true <-> a = b.
Proof.
  revert b; induction a as [|x a IH]; intros [|y b]; simpl; split; intro H;
    try discriminate; try reflexivity.
  - apply andb_true_iff in H as [H1 H2].
    apply N.eqb_eq in H1. apply IH in H2. congruence.
  - injection H as -> ->. rewrite N.eqb_refl. simpl. now apply IH.
Qed.

Lemma strEq_refl (a : jsString) : strEq a a = true.
Proof. now apply strEq_eq. Qed.

Lemma isEmpty_false (s : jsString) : isEmpty s = false <-> s <> [].
Proof. destruct s; simpl; split; congruence. Qed.

Lemma Qltb_lt (x y : Q) : Qltb x y = true <-> (x < y)%Q.
Proof.
  unfold Qltb. rewrite negb_true_iff. split; intro H.
  - destruct (Qlt_le_dec x y) as [Hlt|Hle]; [exact Hlt|].
    apply Qle_bool_iff in Hle. congruence.
  - apply not_true_is_false. intro Hc. apply Qle_bool_iff in Hc. lra.
Qed.

Lemma Qltb_ge (x y : Q) : Qltb x y = false <-> (y <= x)%Q.
Proof.
  unfold Qltb. rewrite negb_false_iff. apply Qle_bool_iff.
Qed.

Lemma splitFrom_not_nil (b : bool) (s : jsString) : splitFrom b s <> [].
Proof.
  revert b; induction s as [|c s IH]; intro b; simpl; [discriminate|].
  destruct (isWhiteSpace c).
  - destruct b; [apply IH | discriminate].
  - destruct (splitFrom false s); discriminate.
Qed.

Lemma tokens_nil_from (b : bool) (s : jsString) :
  filter (fun w => 0 <? length w) (splitFrom b s) = [] <->
  Forall (fun c => isWhiteSpace c = true) s.
Proof.
  revert b; induction s as [|c s IH]; intro b; simpl.
  - split; [constructor | reflexivity].
  - destruct (isWhiteSpace c) eqn:Hc.
    + destruct b; simpl; rewrite IH; split; intro H;
        try (constructor; assumption); now inversion H.
    + pose proof (splitFrom_not_nil false s) as Hn.
      destruct (splitFrom false s) as [|w ws]; [contradiction|]. simpl.
      split; [discriminate|]. intro H. inversion H; congruence.
Qed.

(** The utterance has no word exactly when its text is white space only. *)
Lemma tokenize_nil_iff (s : jsString) :
  tokenize s = [] <-> Forall (fun c => isWhiteSpace c = true) s.
Proof. apply tokens_nil_from. Qed.

Lemma tokenize_words_nonempty (s w : jsString) : In w (tokenize s) -> w <> [].
Proof.
  unfold tokenize. intro H. apply filter_In in H as [_ H].
  destruct w; [discriminate | discriminate].
Qed.

(** ** [Array.prototype.sort] with a comparator that orders by a key,
    largest first *)

Section SortByKey.

Context {A : Type} (key : A -> Q).

Lemma sortInsert_perm (cmp : A -> A -> Q) (x : A) (l : list A) :
  Permutation (x :: l) (sortInsert cmp x l).
Proof.
  induction l as [|y l IH]; simpl; [apply Permutation_refl|].
  destruct (Qltb (cmp y x) 0); [|apply Permutation_refl].
  eapply perm_trans; [apply perm_swap|]. now apply perm_skip.
Qed.

Lemma Array_sort_perm (cmp : A -> A -> Q) (l : list A) :
  Permutation l (Array_sort cmp l).
Proof.
  induction l as [|x l IH]; simpl; [constructor|].
  eapply perm_trans; [apply perm_skip, IH | apply sortInsert_perm].
Qed.

Lemma Array_sort_nil (cmp : A -> A -> Q) (l : list A) :
  Array_sort cmp l = [] <-> l = [].
Proof.
  split; intro H.
  - apply Permutation_nil. apply Permutation_sym. rewrite <- H. apply Array_sort_perm.
  - now subst.
Qed.

Lemma sortInsert_sorted (x : A) (l : list A) :
  StronglySorted (fun a b => (key b <= key a)%Q) l ->
  StronglySorted (fun a b => (key b <= key a)%Q) (sortInsert (byKeyDescending key) x l).
Proof.
  induction 1 as [|y l Hs IH Hy]; simpl.
  - constructor; constructor.
  - destruct (Qltb (byKeyDescending key y x) 0) eqn:Hc.
    + apply Qltb_lt in Hc. unfold byKeyDescending in Hc.
      constructor; [exact IH|].
      rewrite <- (sortInsert_perm (byKeyDescending key) x l).
      constructor; [lra | exact Hy].
    + apply Qltb_ge in Hc. unfold byKeyDescending in Hc.
      constructor; [now constructor|].
      constructor; [lra|].
      rewrite Forall_forall in Hy |- *. intros z Hz. specialize (Hy z Hz). lra.
Qed.

Lemma Array_sort_sorted (l : list A) :
  StronglySorted (fun a b => (key b <= key a)%Q) (Array_sort (byKeyDescending key) l).
Proof.
  induction l as [|x l IH]; simpl; [constructor | now apply sortInsert_sorted].
Qed.

Lemma sortInsert_stable (k : Q) (x : A) (l : list A) :
  filter (fun a => Qeq_bool (key a) k) (sortInsert (byKeyDescending key) x l) =
  filter (fun a => Qeq_bool (key a) k) (x :: l).
Proof.
  induction l as [|y l IH]; [reflexivity|].
  cbn [sortInsert]. destruct (Qltb (byKeyDescending key y x) 0) eqn:Hc; [|reflexivity].
  apply Qltb_lt in Hc. unfold byKeyDescending in Hc.
  cbn [filter] in IH |- *. rewrite IH.
  destruct (Qeq_bool (key y) k) eqn:Hy, (Qeq_bool (key x) k) eqn:Hx; try reflexivity.
  apply Qeq_bool_iff in Hy, Hx. lra.
Qed.

Lemma Array_sort_stable (k : Q) (l : list A) :
  filter (fun a => Qeq_bool (key a) k) (Array_sort (byKeyDescending key) l) =
  filter (fun a => Qeq_bool (key a) k) l.
Proof.
  induction l as [|x l IH]; [reflexivity|].
  cbn [Array_sort fold_right]. rewrite sortInsert_stable.
  cbn [filter]. fold (Array_sort (byKeyDescending key) l). now rewrite IH.
Qed.

Lemma Array_sort_head (l : list A) (h : A) (t : list A) :
  Array_sort (byKeyDescending key) l = h :: t -> firstLargest key l h.
Proof.
  revert h t; induction l as [|x l IH]; intros h t H; [discriminate|].
  cbn [Array_sort fold_right] in H. fold (Array_sort (byKeyDescending key) l) in H.
  destruct (Array_sort (byKeyDescending key) l) as [|h' t'] eqn:Hs.
  - apply Array_sort_nil in Hs. subst l. injection H as <- <-.
    exists [], []. repeat split; intros d [].
  - destruct (IH h' t' eq_refl) as (pre & post & Hl & Hpre & Hpost).
    cbn [sortInsert] in H. destruct (Qltb (byKeyDescending key h' x) 0) eqn:Hc.
    + apply Qltb_lt in Hc. unfold byKeyDescending in Hc. injection H as <- _.
      exists (x :: pre), post. repeat split.
      * now rewrite Hl.
      * intros d [<-|Hd]; [lra | now apply Hpre].
      * exact Hpost.
    + apply Qltb_ge in Hc. unfold byKeyDescending in Hc. injection H as <- _.
      exists [], l. repeat split; [intros d [] |].
      intros d Hd. rewrite Hl in Hd. apply in_app_or in Hd as [Hd|[<-|Hd]].
      * specialize (Hpre d Hd). lra.
      * lra.
      * specialize (Hpost d Hd). lra.
Qed.


(** Sorting by a key is determined by the three properties above: two
    arrangements that are both sorted and both keep the elements of every
    key in the same order are the same list.  So every stable sort returns
    what [Array_sort] returns. *)
Lemma stable_sorted_unique (l1 l2 : list A) :
  StronglySorted (fun a b => (key b <= key a)%Q) l1 ->
  StronglySorted (fun a b => (key b <= key a)%Q) l2 ->
  (forall k, filter (fun a => Qeq_bool (key a) k) l1 =
             filter (fun a => Qeq_bool (key a) k) l2) ->
  l1 = l2.
Proof.
  intros H1. revert l2. induction H1 as [|x l1 Hs1 IH Hx]; intros l2 H2 Hf.
  - destruct l2 as [|y l2]; [reflexivity|].
    specialize (Hf (key y)). cbn [filter] in Hf.
    rewrite (proj2 (Qeq_bool_iff _ _) (Qeq_refl (key y))) in Hf. discriminate.
  - destruct l2 as [|y l2].
    + specialize (Hf (key x)). cbn [filter] in Hf.
      rewrite (proj2 (Qeq_bool_iff _ _) (Qeq_refl (key x))) in Hf. discriminate.
    + inversion H2 as [|y' l2' Hs2 Hy]; subst.
      assert (Hxy : (key x == key y)%Q).
      { apply Qle_antisym.
        - pose proof (Hf (key x)) as Hk. cbn [filter] in Hk.
          rewrite (proj2 (Qeq_bool_iff _ _) (Qeq_refl (key x))) in Hk.
          destruct (Qeq_bool (key y) (key x)) eqn:He.
          + apply Qeq_bool_iff in He. lra.
          + assert (Hin : In x (filter (fun a => Qeq_bool (key a) (key x)) l2))
              by (rewrite <- Hk; apply in_eq).
            apply filter_In in Hin as [Hin _].
            rewrite Forall_forall in Hy. exact (Hy x Hin).
        - pose proof (Hf (key y)) as Hk. cbn [filter] in Hk.
          rewrite (proj2 (Qeq_bool_iff _ _) (Qeq_refl (key y))) in Hk.
          destruct (Qeq_bool (key x) (key y)) eqn:He.
          + apply Qeq_bool_iff in He. lra.
          + assert (Hin : In y (filter (fun a => Qeq_bool (key a) (key y)) l1))
              by (rewrite Hk; apply in_eq).
            apply filter_In in Hin as [Hin _].
            rewrite Forall_forall in Hx. exact (Hx y Hin). }
      assert (Hhead : x = y).
      { pose proof (Hf (key x)) as Hk. cbn [filter] in Hk.
        rewrite (proj2 (Qeq_bool_iff _ _) (Qeq_refl (key x))) in Hk.
        rewrite (proj2 (Qeq_bool_iff (key y) (key x))) in Hk by lra.
        now injection Hk. }
      subst y. f_equal. apply IH; [exact Hs2|].
      intro k. specialize (Hf k). cbn [filter] in Hf.
      destruct (Qeq_bool (key x) k); [now injection Hf | exact Hf].
Qed.

Lemma Array_sort_unique (l l' : list A) :
  StronglySorted (fun a b => (key b <= key a)%Q) l' ->
  (forall k, filter (fun a => Qeq_bool (key a) k) l' =
             filter (fun a => Qeq_bool (key a) k) l) ->
  l' = Array_sort (byKeyDescending key) l.
Proof.
  intros Hs Hf. apply stable_sorted_unique; [exact Hs | apply Array_sort_sorted |].
  intro k. rewrite Hf. symmetry. apply Array_sort_stable.
Qed.

End SortByKey.

(** ** Levenshtein distance *)

Lemma levCode_nil_r (s2 : jsString) : levCode s2 [] = length s2.
Proof. now destruct s2. Qed.

Lemma levCode_cons (x y : codeUnit) (s2 s1 : jsString) :
  levCode (x :: s2) (y :: s1) =
  if (x =? y)%N
  then levCode s2 s1
  else Nat.min (Nat.min (levCode s2 s1 + 1) (levCode (x :: s2) s1 + 1))
               (levCode s2 (y :: s1) + 1).
Proof. reflexivity. Qed.

Lemma levClassic_nil_r (a : jsString) : levClassic a [] = length a.
Proof. now destruct a. Qed.

Lemma levClassic_cons (x y : codeUnit) (a b : jsString) :
  levClassic (x :: a) (y :: b) =
  Nat.min
    (Nat.min (levClassic a b + (if (x =? y)%N then 0 else 1))
             (levClassic (x :: a) b + 1))
    (levClassic a (y :: b) + 1).
Proof. reflexivity. Qed.

Lemma levRow_rowFrom (c2 : codeUnit) (s2 rest q : jsString) :
  levRow c2 rest (levCode s2 q :: rowFrom s2 q rest) (levCode (c2 :: s2) q) =
  rowFrom (c2 :: s2) q rest.
Proof.
  revert q; induction rest as [|c1 rest IH]; intro q; [reflexivity|].
  cbn [rowFrom levRow].
  assert (Hv : (if (c2 =? c1)%N
                then levCode s2 q
                else Nat.min (Nat.min (levCode s2 q + 1) (levCode (c2 :: s2) q + 1))
                             (levCode s2 (c1 :: q) + 1))
               = levCode (c2 :: s2) (c1 :: q)) by (now rewrite levCode_cons).
  rewrite Hv. f_equal.
  destruct rest as [|c rest']; [reflexivity|]. exact (IH (c1 :: q)).
Qed.

Lemma rowFrom_nil (q rest : jsString) :
  rowFrom [] q rest = seq (S (length q)) (length rest).
Proof.
  revert q; induction rest as [|c rest IH]; intro q; [reflexivity|].
  cbn [rowFrom length seq levCode]. f_equal. exact (IH (c :: q)).
Qed.

Lemma fullRow_nil (str1 : jsString) : fullRow [] str1 = seq 0 (S (length str1)).
Proof. unfold fullRow. now rewrite rowFrom_nil. Qed.

Lemma nth_S_cons {X : Type} (n : nat) (x d : X) (l : list X) :
  nth (S n) (x :: l) d = nth n l d.
Proof. reflexivity. Qed.

Lemma levRows_last (str1 rest s2 : jsString) :
  nth (length rest)
      (fullRow s2 str1 :: levRows str1 (S (length s2)) (fullRow s2 str1) rest) [] =
  fullRow (rev rest ++ s2) str1.
Proof.
  revert s2; induction rest as [|c rest IH]; intro s2; [reflexivity|].
  cbn [length levRows]. rewrite nth_S_cons.
  assert (Hrow : S (length s2) :: levRow c str1 (fullRow s2 str1) (S (length s2))
                 = fullRow (c :: s2) str1).
  { unfold fullRow. rewrite (levCode_nil_r (c :: s2)). cbn [length]. f_equal.
    rewrite <- (levRow_rowFrom c s2 str1 []).
    now rewrite (levCode_nil_r (c :: s2)). }
  rewrite Hrow. change (S (S (length s2))) with (S (length (c :: s2))).
  rewrite (IH (c :: s2)). cbn [rev]. now rewrite <- app_assoc.
Qed.

Lemma rowFrom_last (s2 rest q : jsString) :
  nth (length rest) (levCode s2 q :: rowFrom s2 q rest) 0 = levCode s2 (rev rest ++ q).
Proof.
  revert q; induction rest as [|c rest IH]; intro q; [reflexivity|].
  cbn [length rowFrom]. rewrite nth_S_cons, (IH (c :: q)). cbn [rev].
  now rewrite <- app_assoc.
Qed.

(** The entry the code returns is the recurrence at the two whole strings. *)
Lemma levenshteinDistance_levCode (str1 str2 : jsString) :
  levenshteinDistance str1 str2 = levCode (rev str2) (rev str1).
Proof.
  unfold levenshteinDistance, levMatrix. cbv zeta.
  rewrite <- fullRow_nil.
  pose proof (levRows_last str1 str2 []) as H. cbn [length] in H.
  rewrite H, app_nil_r.
  unfold fullRow. rewrite rowFrom_last. now rewrite app_nil_r.
Qed.

(** *** Edit scripts *)

Lemma edit_from_nil (b : jsString) : edit [] b (length b).
Proof. induction b; simpl; [constructor | now apply edit_insert]. Qed.

Lemma edit_to_nil (a : jsString) : edit a [] (length a).
Proof. induction a; simpl; [constructor | now apply edit_delete]. Qed.

Lemma edit_sym (a b : jsString) (n : nat) : edit a b n -> edit b a n.
Proof. induction 1; now constructor. Qed.

Lemma edit_app (a1 b1 a2 b2 : jsString) (n1 n2 : nat) :
  edit a1 b1 n1 -> edit a2 b2 n2 -> edit (a1 ++ a2) (b1 ++ b2) (n1 + n2).
Proof. intros H1 H2. induction H1; simpl; try assumption; now constructor. Qed.

Lemma edit_rev (a b : jsString) (n : nat) : edit a b n -> edit (rev a) (rev b) n.
Proof.
  induction 1 as [|c a b n H IH|c d a b n H IH|c a b n H IH|d a b n H IH]; cbn [rev].
  - constructor.
  - rewrite <- (Nat.add_0_r n). apply edit_app; [exact IH|]. repeat constructor.
  - rewrite <- Nat.add_1_r. apply edit_app; [exact IH|]. repeat constructor.
  - rewrite <- Nat.add_1_r, <- (app_nil_r (rev b)).
    apply edit_app; [exact IH|]. repeat constructor.
  - rewrite <- Nat.add_1_r, <- (app_nil_r (rev a)).
    apply edit_app; [exact IH|]. repeat constructor.
Qed.

Lemma edit_rev_iff (a b : jsString) (n : nat) : edit (rev a) (rev b) n <-> edit a b n.
Proof.
  split; intro H; [|now apply edit_rev].
  apply edit_rev in H. now rewrite !rev_involutive in H.
Qed.

(** A script to [c :: b] gives a script to [b] with at most one more edit. *)
Lemma edit_drop_r (a b : jsString) (c : codeUnit) (n : nat) :
  edit a (c :: b) n -> exists m, m <= S n /\ edit a b m.
Proof.
  intro H. remember (c :: b) as u eqn:Hu. revert c b Hu.
  induction H as [|x a u n H IH|x d a u n H IH|x a u n H IH|d a u n H IH];
    intros c b Hu.
  - discriminate.
  - injection Hu as -> ->. exists (S n). split; [lia | now apply edit_delete].
  - injection Hu as -> ->. exists (S n). split; [lia | now apply edit_delete].
  - destruct (IH c b Hu) as (m & Hm & He).
    exists (S m). split; [lia | now apply edit_delete].
  - injection Hu as -> ->. exists n. split; [lia | exact H].
Qed.

Lemma edit_drop_l (a b : jsString) (c : codeUnit) (n : nat) :
  edit (c :: a) b n -> exists m, m <= S n /\ edit a b m.
Proof.
  intro H. apply edit_sym, edit_drop_r in H as (m & Hm & He).
  exists m. split; [exact Hm | now apply edit_sym].
Qed.

Lemma levClassic_sound (a b : jsString) : edit a b (levClassic a b).
Proof.
  revert b; induction a as [|x a IHa]; intro b.
  - apply edit_from_nil.
  - induction b as [|y b IHb].
    + rewrite levClassic_nil_r. apply edit_to_nil.
    + rewrite levClassic_cons.
      destruct (Nat.min_spec (levClassic a b + (if (x =? y)%N then 0 else 1))
                             (levClassic (x :: a) b + 1)) as [[_ H1]|[_ H1]];
        rewrite H1; clear H1.
      * destruct (Nat.min_spec (levClassic a b + (if (x =? y)%N then 0 else 1))
                               (levClassic a (y :: b) + 1)) as [[_ H2]|[_ H2]];
          rewrite H2; clear H2.
        -- destruct (N.eqb_spec x y) as [->|_].
           ++ rewrite Nat.add_0_r. apply edit_keep, IHa.
           ++ rewrite Nat.add_1_r. apply edit_substitute, IHa.
        -- rewrite Nat.add_1_r. apply edit_delete, IHa.
      * destruct (Nat.min_spec (levClassic (x :: a) b + 1)
                               (levClassic a (y :: b) + 1)) as [[_ H2]|[_ H2]];
          rewrite H2; clear H2.
        -- rewrite Nat.add_1_r. apply edit_insert, IHb.
        -- rewrite Nat.add_1_r. apply edit_delete, IHa.
Qed.

Lemma levClassic_least (a b : jsString) (n : nat) : edit a b n -> levClassic a b <= n.
Proof.
  induction 1 as [|c a b n H IH|c d a b n H IH|c a b n H IH|d a b n H IH].
  - reflexivity.
  - rewrite levClassic_cons, N.eqb_refl. lia.
  - rewrite levClassic_cons. destruct (c =? d)%N; lia.
  - destruct b as [|y b].
    + rewrite levClassic_nil_r in *. simpl. lia.
    + rewrite levClassic_cons. lia.
  - destruct a as [|x a].
    + simpl in *. lia.
    + rewrite levClassic_cons. lia.
Qed.

Lemma levClassic_drop_r (a b : jsString) (c : codeUnit) :
  levClassic a b <= levClassic a (c :: b) + 1.
Proof.
  destruct (edit_drop_r a b c _ (levClassic_sound a (c :: b))) as (m & Hm & He).
  apply levClassic_least in He. lia.
Qed.

Lemma levClassic_drop_l (a b : jsString) (c : codeUnit) :
  levClassic a b <= levClassic (c :: a) b + 1.
Proof.
  destruct (edit_drop_l a b c _ (levClassic_sound (c :: a) b)) as (m & Hm & He).
  apply levClassic_least in He. lia.
Qed.

(** Copying the diagonal entry for equal characters loses nothing. *)
Lemma levCode_classic (s2 s1 : jsString) : levCode s2 s1 = levClassic s2 s1.
Proof.
  revert s1; induction s2 as [|x s2 IH2]; intro s1; [reflexivity|].
  induction s1 as [|y s1 IH1]; [reflexivity|].
  rewrite levCode_cons, levClassic_cons, IH1, !IH2.
  destruct (N.eqb_spec x y) as [->|Hxy]; [|reflexivity].
  pose proof (levClassic_drop_r s2 s1 y). pose proof (levClassic_drop_l s2 s1 y). lia.
Qed.

(** [levenshteinDistance] returns the length of a shortest edit script. *)
Lemma levenshteinDistance_edit (a b : jsString) :
  edit a b (levenshteinDistance a b) /\
  (forall n, edit a b n -> levenshteinDistance a b <= n).
Proof.
  rewrite levenshteinDistance_levCode, levCode_classic. split.
  - apply edit_sym, edit_rev_iff, levClassic_sound.
  - intros n H. apply levClassic_least, edit_rev, edit_sym, H.
Qed.

Lemma levenshteinDistance_classic (a b : jsString) :
  levenshteinDistance a b = levClassic a b.
Proof.
  destruct (levenshteinDistance_edit a b) as [H1 H2].
  apply Nat.le_antisymm.
  - apply H2, levClassic_sound.
  - apply levClassic_least, H1.
Qed.

Lemma levenshteinDistance_sym (a b : jsString) :
  levenshteinDistance a b = levenshteinDistance b a.
Proof.
  destruct (levenshteinDistance_edit a b) as [H1 H2].
  destruct (levenshteinDistance_edit b a) as [H3 H4].
  apply Nat.le_antisymm.
  - apply H2, edit_sym, H3.
  - apply H4, edit_sym, H1.
Qed.

Lemma levenshteinDistance_le_max (a b : jsString) :
  levenshteinDistance a b <= Nat.max (length a) (length b).
Proof.
  apply (proj2 (levenshteinDistance_edit a b)).
  revert b; induction a as [|x a IH]; intro b.
  - simpl. apply edit_from_nil.
  - destruct b as [|y b].
    + simpl. apply edit_delete, edit_to_nil.
    + simpl. apply edit_substitute, IH.
Qed.

(** ** The session *)

Lemma findSura_None_iff (idx : Z) :
  findSura idx = None <-> forall s, In s (suras quran) -> Sura.index s <> idx.
Proof.
  unfold findSura. split.
  - intros H s Hs Heq.
    pose proof (find_none _ _ H s Hs) as Hn. cbv beta in Hn.
    apply Z.eqb_neq in Hn. contradiction.
  - intro H. destruct (find _ _) as [s|] eqn:Hf; [|reflexivity].
    apply find_some in Hf as [Hs Heq]. apply Z.eqb_eq in Heq.
    exfalso. exact (H s Hs Heq).
Qed.

Lemma findSura_Some (idx : Z) (sura : Sura.t) :
  findSura idx = Some sura -> In sura (suras quran) /\ Sura.index sura = idx.
Proof.
  unfold findSura. intro H. apply find_some in H as [Hs Heq].
  apply Z.eqb_eq in Heq. now split.
Qed.

Lemma buildSlidingWindows_found (session : RecitationSession) (sura : Sura.t) :
  findSura (suraIndex session) = Some sura ->
  buildSlidingWindows session =
  setSlidingWindows session
    (windowsAround sura (currentPosition session) (windowSize session)).
Proof. unfold buildSlidingWindows. now intros ->. Qed.

Lemma buildSlidingWindows_threshold (session : RecitationSession) :
  confidenceThreshold (buildSlidingWindows session) = confidenceThreshold session.
Proof. unfold buildSlidingWindows. now destruct (findSura _). Qed.

Lemma buildSlidingWindows_suraIndex (session : RecitationSession) :
  suraIndex (buildSlidingWindows session) = suraIndex session.
Proof. unfold buildSlidingWindows. now destruct (findSura _). Qed.

(** A call never changes the sura of a session that exists already. *)
Lemma step_suraIndex (st st' : option RecitationSession) (s' : RecitationSession) :
  step st st' -> st' = Some s' ->
  (exists sura, findSura (suraIndex s') = Some sura) \/
  (exists s, st = Some s /\ suraIndex s' = suraIndex s).
Proof.
  intros Hstep Hs'.
  inversion Hstep as [st0 i a w H0 H1|st0 t H0 H1|st0 n H0 H1|st0 H0 H1];
    subst st0; rewrite Hs' in H1; clear Hstep.
  - unfold initializeSession in H1.
    destruct (findSura i) as [sura|] eqn:Hf; simpl in H1.
    + left. injection H1 as <-. rewrite buildSlidingWindows_suraIndex.
      cbn [suraIndex]. now exists sura.
    + right. now exists s'.
  - right. destruct st as [s|]; [|discriminate]. exists s. split; [reflexivity|].
    unfold processAudioChunk in H1.
    destruct (negb (isActive s)); simpl in H1; [congruence|].
    destruct (length _ =? 0); simpl in H1; [congruence|].
    destruct (Array_sort _ _) as [|best rest]; simpl in H1; injection H1 as <-.
    + unfold recordFailure. cbn [consecutiveFailures].
      destruct (3 <=? _)%Z; [|reflexivity].
      unfold handleConsecutiveFailures. now rewrite buildSlidingWindows_suraIndex.
    + unfold recordMatch. now rewrite buildSlidingWindows_suraIndex.
  - right. destruct st as [s|]; [|discriminate]. exists s. split; [reflexivity|].
    simpl in H1. injection H1 as <-. now rewrite buildSlidingWindows_suraIndex.
  - right. destruct st as [s|]; [|discriminate]. exists s. split; [reflexivity|].
    simpl in H1. now injection H1 as <-.
Qed.

(** The sura of a session that the methods can produce is in the corpus, so
    [buildSlidingWindows] always finds it. *)
Lemma reachable_sura_found (st : option RecitationSession) :
  reachable st ->
  forall s, st = Some s -> exists sura, findSura (suraIndex s) = Some sura.
Proof.
  induction 1 as [|st st' Hr IH Hstep]; intros s' Hs'; [discriminate|].
  destruct (step_suraIndex _ _ s' Hstep Hs') as [H|(s & Hs & He)]; [exact H|].
  rewrite He. now apply IH.
Qed.

Lemma Qmax_half_bounds (t : Q) :
  (0.5 <= t <= 0.7)%Q -> (0.5 <= Qmax 0.5 (t - 0.1) <= 0.7)%Q.
Proof.
  intros [Hlo Hhi]. split.
  - apply Q.le_max_l.
  - apply Q.max_lub; lra.
Qed.

Lemma step_threshold (st st' : option RecitationSession) (s s' : RecitationSession) :
  step st st' -> st = Some s -> st' = Some s' ->
  confidenceThreshold s' = confidenceThreshold s \/
  confidenceThreshold s' = Qmax 0.5 (confidenceThreshold s - 0.1)%Q \/
  confidenceThreshold s' = 0.7%Q.
Proof.
  intros Hstep -> Hs'.
  inversion Hstep as [st0 i a w H0 H1|st0 t H0 H1|st0 n H0 H1|st0 H0 H1];
    subst st0; rewrite Hs' in H1; clear Hstep.
  - unfold initializeSession in H1.
    destruct (findSura i); simpl in H1; injection H1 as <-.
    + right; right. now rewrite buildSlidingWindows_threshold.
    + now left.
  - unfold processAudioChunk in H1.
    destruct (negb (isActive s)); simpl in H1; [left; congruence|].
    destruct (length _ =? 0); simpl in H1; [left; congruence|].
    destruct (Array_sort _ _) as [|best rest]; simpl in H1; injection H1 as <-.
    + unfold recordFailure. cbn [consecutiveFailures].
      destruct (3 <=? _)%Z; [right; left | left; reflexivity].
      unfold handleConsecutiveFailures. now rewrite buildSlidingWindows_threshold.
    + left. unfold recordMatch. now rewrite buildSlidingWindows_threshold.
  - right; right. simpl in H1. injection H1 as <-.
    now rewrite buildSlidingWindows_threshold.
  - right; right. simpl in H1. now injection H1 as <-.
Qed.

Lemma step_from_null (st' : option RecitationSession) (s' : RecitationSession) :
  step None st' -> st' = Some s' -> confidenceThreshold s' = 0.7%Q.
Proof.
  intros Hstep Hs'.
  inversion Hstep as [st0 i a w H0 H1|st0 t H0 H1|st0 n H0 H1|st0 H0 H1];
    subst st0; rewrite Hs' in H1; clear Hstep; try discriminate.
  unfold initializeSession in H1.
  destruct (findSura i); simpl in H1; [injection H1 as <- | discriminate].
  now rewrite buildSlidingWindows_threshold.
Qed.

Lemma reachable_threshold (st : option RecitationSession) :
  reachable st ->
  forall s, st = Some s -> (0.5 <= confidenceThreshold s <= 0.7)%Q.
Proof.
  induction 1 as [|st st' Hr IH Hstep]; intros s' Hs'; [discriminate|].
  destruct st as [s|].
  - destruct (step_threshold _ _ s s' Hstep eq_refl Hs') as [H|[H|H]]; rewrite H.
    + now apply IH.
    + apply Qmax_half_bounds. now apply IH.
    + lra.
  - rewrite (step_from_null _ _ Hstep Hs'). lra.
Qed.

(** C10.  In every session that the public methods can produce, starting
    from the matcher as constructed, [confidenceThreshold] lies between 0.5
    and 0.7: a successful [initializeSession] sets it to 0.7, and every other
    call leaves it as it was, replaces it by the larger of 0.5 and the old
    value less 0.1 (the recovery), or sets it to 0.7. *)
Theorem threshold_stays_in_range :
  (forall st s, reachable st -> st = Some s ->
     (0.5 <= confidenceThreshold s <= 0.7)%Q) /\
  (forall st i a w s,
     initializeSession st i a w = (inr s, Some s) -> confidenceThreshold s = 0.7%Q) /\
  (forall st st' s s', step st st' -> st = Some s -> st' = Some s' ->
     confidenceThreshold s' = confidenceThreshold s \/
     confidenceThreshold s' = Qmax 0.5 (confidenceThreshold s - 0.1)%Q \/
     confidenceThreshold s' = 0.7%Q).
Proof.
  split; [|split].
  - intros st s Hr Hs. exact (reachable_threshold st Hr s Hs).
  - intros st i a w s H. unfold initializeSession in H.
    destruct (findSura i); [|discriminate].
    injection H as H _. rewrite <- H. now rewrite buildSlidingWindows_threshold.
  - exact step_threshold.
Qed.

(** C8.  [initializeSession] throws its "not found" error exactly when the
    corpus has no sura with the index asked for, and then leaves the session
    as it was; [processAudioChunk] on a matcher without a session, on a
    session that is not active, or with a transcription whose normalized
    text is white space only, returns [null] and leaves the session as it
    was, every field of it. *)
Theorem errors_leave_session_unchanged :
  (forall st suraIndex startingAyah windowSize,
     (forall s, In s (suras quran) -> Sura.index s <> suraIndex) <->
     initializeSession st suraIndex startingAyah windowSize
     = (inl (SuraNotFound suraIndex), st)) /\
  (forall st suraIndex startingAyah windowSize,
     (exists s, In s (suras quran) /\ Sura.index s = suraIndex) <->
     exists session,
       initializeSession st suraIndex startingAyah windowSize
       = (inr session, Some session)) /\
  (forall transcribedText,
     processAudioChunk None transcribedText = (None, None)) /\
  (forall session transcribedText,
     isActive session = false ->
     processAudioChunk (Some session) transcribedText = (None, Some session)) /\
  (forall st transcribedText,
     Forall (fun c => isWhiteSpace c = true) (normalizeArabicText transcribedText) ->
     processAudioChunk st transcribedText = (None, st)).
Proof.
  repeat split.
  - intro H. apply findSura_None_iff in H. unfold initializeSession. now rewrite H.
  - intro H. apply findSura_None_iff. unfold initializeSession in H.
    destruct (findSura suraIndex0); [discriminate | reflexivity].
  - intros (s & Hs & Hi). unfold initializeSession.
    destruct (findSura suraIndex0) eqn:Hf; [eexists; reflexivity|].
    exfalso. exact (proj1 (findSura_None_iff _) Hf s Hs Hi).
  - intros (session & H). unfold initializeSession in H.
    destruct (findSura suraIndex0) as [sura|] eqn:Hf; [|discriminate].
    exists sura. now apply findSura_Some.
  - intros session text H. unfold processAudioChunk. now rewrite H.
  - intros st text H. apply tokenize_nil_iff in H. unfold processAudioChunk.
    destruct st as [session|]; [|reflexivity].
    destruct (negb (isActive session)); [reflexivity|]. now rewrite H.
Qed.

(** C9.  On an initialized session, whatever its state, [jumpToPosition(n)]
    sets [confidenceThreshold] to 0.7, [consecutiveFailures] to 0 and
    [currentPosition] to [n], puts the windows built around [n] in
    [slidingWindows], and changes nothing else. *)
Theorem jumpToPosition_resets (session : RecitationSession) (ayahNumber : Z) (sura : Sura.t) :
  findSura (suraIndex session) = Some sura ->
  jumpToPosition (Some session) ayahNumber =
  Some {| suraIndex := suraIndex session;
          currentPosition := ayahNumber;
          windowSize := windowSize session;
          confidenceThreshold := 0.7%Q;
          slidingWindows := windowsAround sura ayahNumber (windowSize session);
          sessionHistory := sessionHistory session;
          lastSuccessfulMatch := lastSuccessfulMatch session;
          consecutiveFailures := 0%Z;
          isActive := isActive session |}.
Proof.
  intro H. unfold jumpToPosition. f_equal.
  now rewrite (buildSlidingWindows_found _ sura) by exact H.
Qed.

Lemma processAudioChunk_scored (session : RecitationSession) (transcribedText : jsString) :
  isActive session = true ->
  tokenize (normalizeArabicText transcribedText) <> [] ->
  processAudioChunk (Some session) transcribedText =
  match Array_sort compareScores (acceptedWindows session transcribedText) with
  | bestMatch :: _ => (Some bestMatch, Some (recordMatch session bestMatch))
  | [] => (None, Some (recordFailure session))
  end.
Proof.
  intros Ha Hw. unfold processAudioChunk. rewrite Ha. simpl negb. cbv iota.
  destruct (tokenize (normalizeArabicText transcribedText)) eqn:Ht; [contradiction|].
  unfold acceptedWindows. rewrite Ht. reflexivity.
Qed.

Lemma compareScores_byKey : compareScores = byKeyDescending combinedScore.
Proof. reflexivity. Qed.


(** ** The window builder *)

Lemma range_nil (lo hi : Z) : (hi <= lo)%Z -> range lo hi = [].
Proof.
  intro H. unfold range. replace (Z.to_nat (hi - lo)) with 0 by lia. reflexivity.
Qed.

Lemma range_cons (lo hi : Z) : (lo < hi)%Z -> range lo hi = lo :: range (lo + 1) hi.
Proof.
  intro H. unfold range.
  replace (Z.to_nat (hi - lo)) with (S (Z.to_nat (hi - (lo + 1)))) by lia.
  cbn [seq map]. f_equal; [lia|].
  rewrite <- seq_shift, map_map. apply map_ext. intro k. lia.
Qed.

Lemma range_ind (P : Z -> Z -> Prop) :
  (forall lo hi, (hi <= lo)%Z -> P lo hi) ->
  (forall lo hi, (lo < hi)%Z -> P (lo + 1)%Z hi -> P lo hi) ->
  forall lo hi, P lo hi.
Proof.
  intros Hnil Hcons lo hi.
  remember (Z.to_nat (hi - lo)) as n eqn:Hn. revert lo Hn.
  induction n as [|n IH]; intros lo Hn.
  - apply Hnil. lia.
  - apply Hcons; [lia|]. apply IH. lia.
Qed.

Lemma In_range (lo hi k : Z) : In k (range lo hi) <-> (lo <= k < hi)%Z.
Proof.
  revert lo hi. apply (range_ind (fun lo hi => In k (range lo hi) <-> (lo <= k < hi)%Z)).
  - intros lo hi H. rewrite range_nil by exact H. simpl. lia.
  - intros lo hi H IH. rewrite range_cons by exact H. simpl. rewrite IH. lia.
Qed.

Lemma NoDup_range (lo hi : Z) : NoDup (range lo hi).
Proof.
  revert lo hi. apply (range_ind (fun lo hi => NoDup (range lo hi))).
  - intros lo hi H. rewrite range_nil by exact H. constructor.
  - intros lo hi H IH. rewrite range_cons by exact H. constructor; [|exact IH].
    rewrite In_range. lia.
Qed.

Lemma range_shift (d lo hi : Z) :
  range (lo + d) (hi + d) = map (fun k => (k + d)%Z) (range lo hi).
Proof.
  unfold range. rewrite map_map.
  replace (hi + d - (lo + d))%Z with (hi - lo)%Z by lia.
  apply map_ext. intro k. lia.
Qed.

(** A loop whose body is guarded by an upper bound on the loop variable
    runs the body up to that bound. *)
Lemma range_guard {B : Type} (f : Z -> B) (b lo hi : Z) :
  flat_map (fun k => if (k <=? b)%Z then [f k] else []) (range lo hi) =
  map f (range lo (Z.min hi (b + 1))).
Proof.
  revert lo hi.
  apply (range_ind (fun lo hi =>
    flat_map (fun k => if (k <=? b)%Z then [f k] else []) (range lo hi) =
    map f (range lo (Z.min hi (b + 1))))).
  - intros lo hi H. rewrite !range_nil by lia. reflexivity.
  - intros lo hi H IH. rewrite range_cons by exact H. cbn [flat_map]. rewrite IH.
    destruct (lo <=? b)%Z eqn:Hb.
    + apply Z.leb_le in Hb. rewrite (range_cons lo) by lia. reflexivity.
    + apply Z.leb_gt in Hb. rewrite !range_nil by lia. reflexivity.
Qed.

Lemma map_flat_map_list {X Y W : Type} (f : Y -> W) (g : X -> list Y) (l : list X) :
  map f (flat_map g l) = flat_map (fun x => map f (g x)) l.
Proof.
  induction l as [|x l IH]; [reflexivity|].
  cbn [flat_map]. now rewrite map_app, IH.
Qed.

Lemma flat_map_map_list {X Y W : Type} (f : X -> Y) (g : Y -> list W) (l : list X) :
  flat_map g (map f l) = flat_map (fun x => g (f x)) l.
Proof.
  induction l as [|x l IH]; [reflexivity|].
  cbn [map flat_map]. now rewrite IH.
Qed.

Lemma slice_length {X : Type} (l : list X) (b e : Z) :
  (0 <= b <= e)%Z -> (e <= Z.of_nat (length l))%Z ->
  length (slice l b e) = Z.to_nat (e - b).
Proof.
  intros Hb He. unfold slice. rewrite length_firstn, length_skipn. lia.
Qed.

(** In the loop of [buildSlidingWindows] the slice has [windowSize] verses,
    at least one. *)
Lemma slice_in_loop_length (ayas : list Aya.t) (i windowSize : Z) :
  (0 <= i)%Z -> (1 <= windowSize)%Z -> (i + windowSize <= Z.of_nat (length ayas))%Z ->
  length (slice ayas i (i + windowSize)) = Z.to_nat windowSize /\
  slice ayas i (i + windowSize) <> [].
Proof.
  intros Hi Hw Hn.
  assert (Hl : length (slice ayas i (i + windowSize)) = Z.to_nat windowSize)
    by (rewrite slice_length by lia; f_equal; lia).
  split; [exact Hl|]. intro Hnil. rewrite Hnil in Hl. simpl in Hl. lia.
Qed.

Lemma slice_nth {X : Type} (l : list X) (b e : Z) (k : nat) (d : X) :
  (0 <= b)%Z -> (Z.of_nat k < e - b)%Z ->
  nth k (slice l b e) d = nth (Z.to_nat b + k) l d.
Proof.
  intros Hb Hk. unfold slice.
  rewrite nth_firstn.
  replace (k <? Z.to_nat e - Z.to_nat b) with true
    by (symmetry; apply Nat.ltb_lt; lia).
  rewrite nth_skipn. reflexivity.
Qed.

Lemma windowsAround_spans (sura : Sura.t) (currentPosition windowSize : Z) :
  windowsAround sura currentPosition windowSize =
  map (fun se => makeWindow (slice (Sura.ayas sura) (fst se - 1) (snd se)))
    (specWindowSpans (Z.of_nat (length (Sura.ayas sura))) currentPosition windowSize).
Proof.
  unfold windowsAround, specWindowSpans.
  set (n := Z.of_nat (length (Sura.ayas sura))).
  set (r := Z.max 5 (windowSize * 2)).
  rewrite map_flat_map_list.
  replace (Z.max 1 (currentPosition - r))
    with (Z.max 0 (currentPosition - r - 1) + 1)%Z by lia.
  replace (Z.min n (currentPosition + r) + 1)%Z
    with (Z.min n (currentPosition + r) + 1)%Z by lia.
  rewrite range_shift, flat_map_map_list.
  apply flat_map_ext. intro i. rewrite map_map. cbn [fst snd].
  unfold windowsAt. fold n.
  replace (i + 1 - 1)%Z with i by lia.
  transitivity
    (flat_map
       (fun k => if (k <=? n - i)%Z
                 then [makeWindow (slice (Sura.ayas sura) i (i + k))] else [])
       (range 1 (windowSize + 1))).
  { apply flat_map_ext. intro k.
    replace (i + k <=? n)%Z with (k <=? n - i)%Z; [reflexivity|].
    destruct (Z.leb_spec k (n - i)), (Z.leb_spec (i + k) n); (reflexivity || lia). }
  rewrite (range_guard (fun k => makeWindow (slice (Sura.ayas sura) i (i + k)))).
  replace (range (i + 1) (Z.min n (i + 1 + windowSize - 1) + 1))
    with (range (1 + i) (Z.min (windowSize + 1) (n - i + 1) + i)) by (f_equal; lia).
  rewrite range_shift, map_map. apply map_ext. intro k. do 2 f_equal. lia.
Qed.

Lemma In_specWindowSpans (verses currentPosition windowSize s e : Z) :
  In (s, e) (specWindowSpans verses currentPosition windowSize) <->
  (1 <= s <= e)%Z /\ (e <= verses)%Z /\
  (currentPosition - Z.max 5 (windowSize * 2) <= s
   <= currentPosition + Z.max 5 (windowSize * 2))%Z /\
  (e - s + 1 <= windowSize)%Z.
Proof.
  unfold specWindowSpans. rewrite in_flat_map. split.
  - intros (s' & Hs & He). apply in_map_iff in He as (e' & Heq & He).
    injection Heq as -> ->. apply In_range in Hs, He. lia.
  - intros H. exists s. split; [apply In_range; lia|].
    apply in_map. apply In_range. lia.
Qed.

Lemma NoDup_specWindowSpans (verses currentPosition windowSize : Z) :
  NoDup (specWindowSpans verses currentPosition windowSize).
Proof.
  unfold specWindowSpans.
  generalize (range (Z.max 1 (currentPosition - Z.max 5 (windowSize * 2)))
                (Z.min verses (currentPosition + Z.max 5 (windowSize * 2)) + 1))
             (NoDup_range (Z.max 1 (currentPosition - Z.max 5 (windowSize * 2)))
                (Z.min verses (currentPosition + Z.max 5 (windowSize * 2)) + 1)).
  intros l Hl. induction Hl as [|s l Hs Hl IH]; [constructor|].
  cbn [flat_map]. apply NoDup_app.
  - apply Finite.Injective_map_NoDup; [|apply NoDup_range].
    intros x y Hxy. now injection Hxy.
  - exact IH.
  - intros [s' e'] H1 H2. apply in_map_iff in H1 as (e0 & Heq & _).
    injection Heq as <- <-. apply in_flat_map in H2 as (s2 & Hs2 & He2).
    apply in_map_iff in He2 as (e2 & Heq2 & _). injection Heq2 as -> _.
    contradiction.
Qed.

Lemma makeWindow_span (sura : Sura.t) (s e : Z) :
  contiguousAyas sura ->
  (1 <= s <= e)%Z -> (e <= Z.of_nat (length (Sura.ayas sura)))%Z ->
  AyahWindow.startAyah (makeWindow (slice (Sura.ayas sura) (s - 1) e)) = s /\
  AyahWindow.endAyah (makeWindow (slice (Sura.ayas sura) (s - 1) e)) = e.
Proof.
  intros Hc Hs He. unfold makeWindow. cbn [AyahWindow.startAyah AyahWindow.endAyah].
  rewrite slice_length by lia.
  rewrite !slice_nth by lia. rewrite !Hc by lia. lia.
Qed.

(** C5.  For a session on a sura of the corpus, [buildSlidingWindows] leaves
    in [slidingWindows] exactly one window for each span the specification
    asks for: a start verse [s] inside the sura and within
    [max(5, windowSize*2)] verses of [currentPosition], before or after, and
    an end verse [e] inside the sura with [1 <= e - s + 1 <= windowSize].
    The window of a span holds the verses [s..e]: their texts joined by
    spaces, the normalized text and its words. *)
Theorem windows_cover_radius (session : RecitationSession) (sura : Sura.t) :
  findSura (suraIndex session) = Some sura ->
  contiguousAyas sura ->
  let ayas := Sura.ayas sura in
  let verses := Z.of_nat (length ayas) in
  let radius := Z.max 5 (windowSize session * 2) in
  let spans := specWindowSpans verses (currentPosition session) (windowSize session) in
  slidingWindows (buildSlidingWindows session) =
    map (fun se => makeWindow (slice ayas (fst se - 1) (snd se))) spans /\
  NoDup spans /\
  (forall s e,
     In (s, e) spans <->
     (1 <= s <= e)%Z /\ (e <= verses)%Z /\
     (currentPosition session - radius <= s <= currentPosition session + radius)%Z /\
     (e - s + 1 <= windowSize session)%Z) /\
  (forall s e,
     In (s, e) spans ->
     let window := makeWindow (slice ayas (s - 1) e) in
     AyahWindow.startAyah window = s /\
     AyahWindow.endAyah window = e /\
     length (slice ayas (s - 1) e) = Z.to_nat (e - s + 1) /\
     (forall k, k < Z.to_nat (e - s + 1) ->
        nth k (slice ayas (s - 1) e) noAya = nth (Z.to_nat (s - 1) + k) ayas noAya) /\
     AyahWindow.text window = join [SPACE] (map Aya.text (slice ayas (s - 1) e)) /\
     AyahWindow.normalizedText window = normalizeArabicText (AyahWindow.text window) /\
     AyahWindow.words window = tokenize (AyahWindow.normalizedText window)).
Proof.
  intros Hf Hc ayas verses radius spans. subst spans radius verses ayas.
  split; [|split; [|split]].
  - rewrite (buildSlidingWindows_found _ sura) by exact Hf.
    cbn [setSlidingWindows slidingWindows]. apply windowsAround_spans.
  - apply NoDup_specWindowSpans.
  - intros s e. apply In_specWindowSpans.
  - intros s e H window. apply In_specWindowSpans in H.
    destruct (makeWindow_span sura s e Hc) as [H1 H2]; [lia | lia |].
    repeat split; try assumption; try reflexivity.
    + rewrite slice_length by lia. f_equal. lia.
    + intros k Hk. apply slice_nth; lia.
Qed.

(** ** Scoring *)

Lemma arabicWordMatch_refl (w : jsString) : w <> [] -> arabicWordMatch w w = true.
Proof.
  intro H. unfold arabicWordMatch.
  apply isEmpty_false in H. rewrite H. cbn [orb].
  now rewrite strEq_refl.
Qed.

Lemma firstn_snoc_nth {X : Type} (l : list X) (k : nat) (d : X) :
  k < length l -> firstn (S k) l = firstn k l ++ [nth k l d].
Proof.
  revert k; induction l as [|x l IH]; intros k Hk; simpl in Hk; [lia|].
  destruct k as [|k]; [reflexivity|].
  cbn [firstn nth app]. f_equal. apply IH. lia.
Qed.

(** On the diagonal the reconstruction loop of [longestCommonSubsequence]
    takes every word, whatever the table holds. *)
Lemma lcsBack_diagonal (ws : list jsString) (dp : list (list nat)) :
  (forall w, In w ws -> w <> []) ->
  forall k lcs, k <= length ws -> lcsBack ws ws dp k k lcs = firstn k ws ++ lcs.
Proof.
  intros Hne. induction k as [|k IH]; intros lcs Hk; [reflexivity|].
  cbn [lcsBack].
  rewrite arabicWordMatch_refl by (apply Hne, nth_In; lia).
  rewrite IH by lia. rewrite (firstn_snoc_nth ws k []) by lia.
  now rewrite <- app_assoc.
Qed.

Lemma longestCommonSubsequence_self (ws : list jsString) :
  (forall w, In w ws -> w <> []) -> longestCommonSubsequence ws ws = ws.
Proof.
  intro Hne. unfold longestCommonSubsequence.
  rewrite lcsBack_diagonal by (assumption || lia).
  now rewrite firstn_all, app_nil_r.
Qed.

(** The divisor of [calculateWordOverlap] is positive when there is a
    transcribed word, as there is wherever [processAudioChunk] scores. *)
Lemma newSet_grows (l acc : list jsString) :
  length acc <=
  length (fold_left (fun s w => if setHas s w then s else s ++ [w]) l acc).
Proof.
  revert acc; induction l as [|w l IH]; intro acc; [reflexivity|].
  cbn [fold_left]. etransitivity; [|apply IH].
  destruct (setHas acc w); [reflexivity|]. rewrite length_app. lia.
Qed.

Lemma newSet_nonempty (l : list jsString) : l <> [] -> 0 < length (newSet l).
Proof.
  destruct l as [|w l]; [contradiction|]. intros _. unfold newSet.
  cbn [fold_left setHas existsb app].
  eapply Nat.lt_le_trans; [|apply newSet_grows]. simpl. lia.
Qed.

Lemma Qnat_pos (n : nat) : 0 < n -> (0 < Qnat n)%Q.
Proof.
  intro H. unfold Qnat. replace 0%Q with (inject_Z 0) by reflexivity.
  rewrite <- Zlt_Qlt. lia.
Qed.

Lemma calculateSequenceMatch_self (ws : list jsString) :
  ws <> [] -> (forall w, In w ws -> w <> []) ->
  (calculateSequenceMatch ws ws == 1)%Q.
Proof.
  intros Hnil Hne. unfold calculateSequenceMatch.
  destruct ws as [|w ws']; [contradiction|].
  cbn [length Nat.eqb orb].
  rewrite longestCommonSubsequence_self by exact Hne.
  rewrite Nat.max_id. apply Qmult_inv_r.
  intro H. pose proof (Qnat_pos (length (w :: ws')) ltac:(simpl; lia)) as Hp.
  rewrite H in Hp. now apply Qlt_irrefl in Hp.
Qed.

(** C7.  When the words of a verse's normalized text (at least one) are
    scored against a window that holds exactly those words, the sequence
    match is 1 and the accuracy is 1. *)
Theorem own_text_scores_one (verseText : jsString) (window : AyahWindow.t) :
  let verseWords := tokenize (normalizeArabicText verseText) in
  verseWords <> [] ->
  AyahWindow.words window = verseWords ->
  (calculateSequenceMatch verseWords (AyahWindow.words window) == 1)%Q /\
  (Score.accuracy (scoreWindow verseWords window) == 1)%Q /\
  longestCommonSubsequence verseWords (AyahWindow.words window) = verseWords.
Proof.
  intros verseWords Hnil Hw.
  assert (Hne : forall w, In w verseWords -> w <> [])
    by (intros w; apply tokenize_words_nonempty).
  unfold scoreWindow. cbn [Score.accuracy]. rewrite Hw.
  repeat split.
  - now apply calculateSequenceMatch_self.
  - now apply calculateSequenceMatch_self.
  - now apply longestCommonSubsequence_self.
Qed.

(** The entries of [windowScores], in the order of the scoring loop: the
    windows whose confidence reaches the threshold, each with its index. *)
Lemma In_scoreWindows (transcribedWords : list jsString) (threshold : Q)
  (windows : list AyahWindow.t) (i0 : Z) (m : MatchResult.t) :
  In m (scoreWindows transcribedWords threshold i0 windows) <->
  exists k window,
    nth_error windows k = Some window /\
    (threshold <= Score.confidence (scoreWindow transcribedWords window))%Q /\
    m = toMatchResult (scoreWindow transcribedWords window) (i0 + Z.of_nat k) window.
Proof.
  revert i0; induction windows as [|w windows IH]; intro i0; cbn [scoreWindows].
  - split; [intros [] | intros (k & window & H & _)]. now destruct k.
  - assert (Hrest :
      In m (scoreWindows transcribedWords threshold (i0 + 1) windows) <->
      exists k window,
        nth_error (w :: windows) (S k) = Some window /\
        (threshold <= Score.confidence (scoreWindow transcribedWords window))%Q /\
        m = toMatchResult (scoreWindow transcribedWords window)
              (i0 + Z.of_nat (S k)) window).
    { rewrite IH. split; intros (k & window & H1 & H2 & H3); exists k, window;
        (split; [exact H1|]); (split; [exact H2|]); rewrite H3; f_equal; lia. }
    destruct (Qle_bool threshold (Score.confidence (scoreWindow transcribedWords w))) eqn:Hc.
    + apply Qle_bool_iff in Hc. cbn [In]. rewrite Hrest. split.
      * intros [<-|(k & window & H)].
        -- exists 0, w. repeat split; [exact Hc|]. f_equal. lia.
        -- now exists (S k), window.
      * intros ([|k] & window & H1 & H2 & H3).
        -- left. injection H1 as <-. rewrite H3. f_equal. lia.
        -- right. now exists k, window.
    + rewrite Hrest. split.
      * intros (k & window & H). now exists (S k), window.
      * intros ([|k] & window & H1 & H2 & H3).
        -- injection H1 as <-. apply Qle_bool_iff in H2. congruence.
        -- now exists k, window.
Qed.

(** The accepted windows keep the order of the windows. *)
Lemma scoreWindows_order (transcribedWords : list jsString) (threshold : Q)
  (windows : list AyahWindow.t) (i0 : Z) :
  StronglySorted (fun a b => (MatchResult.windowIndex a < MatchResult.windowIndex b)%Z)
    (scoreWindows transcribedWords threshold i0 windows) /\
  Forall (fun m => (i0 <= MatchResult.windowIndex m)%Z)
    (scoreWindows transcribedWords threshold i0 windows).
Proof.
  revert i0; induction windows as [|w windows IH]; intro i0; cbn [scoreWindows].
  - split; constructor.
  - destruct (IH (i0 + 1)%Z) as [Hs Hf].
    assert (Hf' : Forall (fun m => (i0 < MatchResult.windowIndex m)%Z)
                    (scoreWindows transcribedWords threshold (i0 + 1) windows)).
    { eapply Forall_impl; [|exact Hf]. cbv beta. intros; lia. }
    destruct (Qle_bool _ _).
    + split.
      * constructor; [exact Hs | exact Hf'].
      * constructor; [cbn; lia|]. eapply Forall_impl; [|exact Hf']. cbv beta. intros; lia.
    + split; [exact Hs|]. eapply Forall_impl; [|exact Hf']. cbv beta. intros; lia.
Qed.


(** ** The fuzzy word match *)

Lemma Qnat_nonzero (n : nat) : 0 < n -> ~ (Qnat n == 0)%Q.
Proof.
  intros H He. pose proof (Qnat_pos n H) as Hp. rewrite He in Hp.
  now apply Qlt_irrefl in Hp.
Qed.

(** [calculateSimilarity] is one minus the distance over the larger length. *)
Lemma calculateSimilarity_formula (x y : jsString) :
  0 < Nat.max (length x) (length y) ->
  (calculateSimilarity x y ==
   1 - Qnat (levenshteinDistance x y) / Qnat (Nat.max (length x) (length y)))%Q.
Proof.
  intro Hpos. unfold calculateSimilarity.
  destruct (length y <? length x) eqn:Hlt.
  - apply Nat.ltb_lt in Hlt.
    replace (Nat.max (length x) (length y)) with (length x) in * by lia.
    destruct (length x =? 0) eqn:H0; [apply Nat.eqb_eq in H0; lia|].
    field. now apply Qnat_nonzero.
  - apply Nat.ltb_ge in Hlt.
    replace (Nat.max (length x) (length y)) with (length y) in * by lia.
    destruct (length y =? 0) eqn:H0; [apply Nat.eqb_eq in H0; lia|].
    rewrite (levenshteinDistance_sym y x).
    field. now apply Qnat_nonzero.
Qed.

(** What [arabicWordMatch] computes, for any two strings. *)
Lemma arabicWordMatch_true_iff (word1 word2 : jsString) :
  let norm1 := normalizeArabicText word1 in
  let norm2 := normalizeArabicText word2 in
  arabicWordMatch word1 word2 = true <->
  word1 <> [] /\ word2 <> [] /\
  (norm1 = norm2 \/
   (2 < length norm1 /\ 2 < length norm2 /\
    (0.85 <= 1 - Qnat (levenshteinDistance norm1 norm2)
                 / Qnat (Nat.max (length norm1) (length norm2)))%Q)).
Proof.
  intros norm1 norm2. unfold arabicWordMatch. fold norm1 norm2.
  destruct word1 as [|c1 w1]; [cbn; split; [discriminate | intros [H _]; congruence]|].
  destruct word2 as [|c2 w2]; [cbn; split; [discriminate | intros (_ & H & _); congruence]|].
  cbn [isEmpty orb].
  destruct (strEq norm1 norm2) eqn:Heq.
  - apply strEq_eq in Heq. split; [|reflexivity].
    intros _. repeat split; try discriminate. now left.
  - assert (Hne : norm1 <> norm2)
      by (intro H; apply strEq_eq in H; congruence).
    destruct (2 <? length norm1) eqn:H1; cbn [andb];
      [destruct (2 <? length norm2) eqn:H2|].
    + apply Nat.ltb_lt in H1, H2.
      rewrite Qle_bool_iff, calculateSimilarity_formula by lia.
      split.
      * intro H. repeat split; try discriminate. right. now repeat split.
      * intros (_ & _ & [H|(_ & _ & H)]); [contradiction | exact H].
    + apply Nat.ltb_ge in H2. split; [discriminate|].
      intros (_ & _ & [H|(_ & H & _)]); [contradiction | lia].
    + apply Nat.ltb_ge in H1. split; [discriminate|].
      intros (_ & _ & [H|(H & _)]); [contradiction | lia].
Qed.

(** ** Normalization *)

Lemma replaceAll_app (p : codeUnit -> bool) (r s1 s2 : jsString) :
  replaceAll p r (s1 ++ s2) = replaceAll p r s1 ++ replaceAll p r s2.
Proof. apply flat_map_app. Qed.

Lemma replaceAll_unchanged (p : codeUnit -> bool) (r s : jsString) :
  Forall (fun c => p c = false) s -> replaceAll p r s = s.
Proof.
  induction 1 as [|c s Hc Hs IH]; [reflexivity|].
  cbn [replaceAll flat_map]. rewrite Hc. cbn [app]. f_equal. exact IH.
Qed.

Lemma rewriteAll_app (s1 s2 : jsString) :
  rewriteAll (s1 ++ s2) = rewriteAll s1 ++ rewriteAll s2.
Proof. unfold rewriteAll. now rewrite !replaceAll_app. Qed.

Lemma rewriteAll_unit (c : codeUnit) :
  Forall (fun d => isRewritten d = false) (rewriteAll [c]).
Proof.
  unfold rewriteAll, replaceAll. cbn [flat_map app].
  destruct (isDiacritic c) eqn:H1; [constructor|].
  cbn [flat_map app]. destruct (isAlifVariant c) eqn:H2; [repeat constructor|].
  cbn [flat_map app]. destruct (isTaMarbuta c) eqn:H3; [repeat constructor|].
  cbn [flat_map app]. destruct (isYa c) eqn:H4; [repeat constructor|].
  cbn [flat_map app]. destruct (isFarsiKaf c) eqn:H5; [repeat constructor|].
  cbn [flat_map app]. repeat constructor.
  unfold isRewritten. now rewrite H1, H2, H3, H4, H5.
Qed.

Lemma rewriteAll_clean (s : jsString) :
  Forall (fun d => isRewritten d = false) (rewriteAll s).
Proof.
  induction s as [|c s IH]; [constructor|].
  change (c :: s) with ([c] ++ s). rewrite rewriteAll_app.
  apply Forall_app. split; [apply rewriteAll_unit | exact IH].
Qed.

Lemma rewriteAll_unchanged (s : jsString) :
  Forall (fun d => isRewritten d = false) s -> rewriteAll s = s.
Proof.
  intro H. unfold rewriteAll.
  assert (H5 : forall c, isRewritten c = false ->
             isDiacritic c = false /\ isAlifVariant c = false /\
             isTaMarbuta c = false /\ isYa c = false /\ isFarsiKaf c = false).
  { intros c Hc. unfold isRewritten in Hc.
    repeat (apply orb_false_iff in Hc as [Hc ?]). now repeat split. }
  rewrite (replaceAll_unchanged isDiacritic)
    by (eapply Forall_impl; [|exact H]; intros c Hc; apply (H5 c Hc)).
  rewrite (replaceAll_unchanged isAlifVariant)
    by (eapply Forall_impl; [|exact H]; intros c Hc; apply (H5 c Hc)).
  rewrite (replaceAll_unchanged isTaMarbuta)
    by (eapply Forall_impl; [|exact H]; intros c Hc; apply (H5 c Hc)).
  rewrite (replaceAll_unchanged isYa)
    by (eapply Forall_impl; [|exact H]; intros c Hc; apply (H5 c Hc)).
  apply replaceAll_unchanged.
  eapply Forall_impl; [|exact H]. intros c Hc. apply (H5 c Hc).
Qed.

Lemma foldArabic_steps (text : jsString) :
  foldArabic text = trim (collapseWhiteSpace (rewriteAll text)).
Proof. reflexivity. Qed.

Lemma collapseFrom_plain (b : bool) (c : codeUnit) (s : jsString) :
  isWhiteSpace c = false -> collapseFrom b (c :: s) = c :: collapseFrom false s.
Proof. intro H. cbn [collapseFrom]. now rewrite H. Qed.

(** Removing the white space at the start commutes with collapsing. *)
Lemma trimStart_collapseFrom (b : bool) (s : jsString) :
  trimStart (collapseFrom b s) = collapseFrom true s.
Proof.
  revert b; induction s as [|c s IH]; intro b; [reflexivity|].
  cbn [collapseFrom]. destruct (isWhiteSpace c) eqn:Hc.
  - destruct b; [apply IH|]. cbn [trimStart]. apply IH.
  - cbn [trimStart]. now rewrite Hc.
Qed.

Lemma folded_cons (c : codeUnit) (s : jsString) :
  isPlain c = true -> folded s -> folded (c :: s).
Proof.
  intros Hc Hs. inversion Hs as [|w Hw Hp|w s' Hw Hp Hs' Hf]; subst.
  - apply folded_word; [discriminate | now repeat constructor].
  - apply folded_word; [discriminate | now constructor].
  - change (c :: w ++ SPACE :: s') with ((c :: w) ++ SPACE :: s').
    apply folded_more; try assumption; [discriminate | now constructor].
Qed.

Lemma isPlain_of (c : codeUnit) :
  isRewritten c = false -> isWhiteSpace c = false -> isPlain c = true.
Proof. intros H1 H2. unfold isPlain. now rewrite H1, H2. Qed.

(** What is left of a collapsed string after the white space at its end is
    removed. *)
Lemma trimEnd_collapse_folded (s : jsString) :
  Forall (fun d => isRewritten d = false) s ->
  folded (trimEnd (collapseFrom true s)) /\
  trimEnd (collapseFrom false s) =
  if startsWithWhiteSpace s
  then match trimEnd (collapseFrom true s) with
       | [] => []
       | t => SPACE :: t
       end
  else trimEnd (collapseFrom true s).
Proof.
  induction 1 as [|c s Hc Hs [IH1 IH2]]; [split; [constructor | reflexivity]|].
  cbn [startsWithWhiteSpace collapseFrom]. destruct (isWhiteSpace c) eqn:Hw.
  - split; [exact IH1|]. cbn [trimEnd].
    destruct (trimEnd (collapseFrom true s)); reflexivity.
  - split; [|reflexivity]. cbn [trimEnd]. rewrite IH2.
    pose proof (isPlain_of c Hc Hw) as Hp.
    destruct (startsWithWhiteSpace s).
    + destruct (trimEnd (collapseFrom true s)) as [|d t] eqn:Ht.
      * rewrite Hw. apply folded_word; [discriminate | now repeat constructor].
      * change (c :: SPACE :: d :: t) with ([c] ++ SPACE :: d :: t).
        apply folded_more; try assumption; try discriminate. now repeat constructor.
    + destruct (trimEnd (collapseFrom true s)) as [|d t] eqn:Ht.
      * rewrite Hw. apply folded_word; [discriminate | now repeat constructor].
      * now apply folded_cons.
Qed.

Lemma collapse_clean (b : bool) (s : jsString) :
  Forall (fun d => isRewritten d = false) s ->
  Forall (fun d => isRewritten d = false) (collapseFrom b s).
Proof.
  intro H. revert b. induction H as [|c s Hc Hs IH]; intro b; [constructor|].
  cbn [collapseFrom]. destruct (isWhiteSpace c).
  - destruct b; [apply IH|]. constructor; [reflexivity | apply IH].
  - constructor; [exact Hc | apply IH].
Qed.

(** The steps before [toLowerCase] produce a folded string. *)
Lemma foldArabic_folded (text : jsString) : folded (foldArabic text).
Proof.
  rewrite foldArabic_steps. unfold trim, collapseWhiteSpace.
  rewrite trimStart_collapseFrom.
  apply trimEnd_collapse_folded, rewriteAll_clean.
Qed.

Lemma isPlain_inv (c : codeUnit) :
  isPlain c = true -> isRewritten c = false /\ isWhiteSpace c = false.
Proof.
  unfold isPlain. intro H. apply andb_true_iff in H as [H1 H2].
  now rewrite negb_true_iff in H1, H2.
Qed.

Lemma folded_head (s : jsString) : folded s -> startsWithWhiteSpace s = false.
Proof.
  assert (Hw : forall w, w <> [] -> Forall (fun c => isPlain c = true) w ->
                 forall t, startsWithWhiteSpace (w ++ t) = false).
  { intros [|c w] Hne Hp t; [contradiction|]. inversion Hp; subst.
    cbn. now apply isPlain_inv. }
  intros [|w Hne Hp|w s' Hne Hp _ _]; [reflexivity | |].
  - rewrite <- (app_nil_r w). now apply Hw.
  - now apply Hw.
Qed.

Lemma folded_clean (s : jsString) :
  folded s -> Forall (fun d => isRewritten d = false) s.
Proof.
  assert (Hw : forall w, Forall (fun c => isPlain c = true) w ->
                 Forall (fun d => isRewritten d = false) w).
  { intros w Hp. eapply Forall_impl; [|exact Hp]. intros c Hc. now apply isPlain_inv. }
  induction 1 as [|w Hne Hp|w s' Hne Hp Hs' Hf IH]; [constructor | now apply Hw |].
  apply Forall_app. split; [now apply Hw|]. constructor; [reflexivity | exact IH].
Qed.

Lemma collapseFrom_start (s : jsString) :
  startsWithWhiteSpace s = false -> collapseFrom true s = collapseFrom false s.
Proof.
  destruct s as [|c s]; [reflexivity|]. cbn [startsWithWhiteSpace collapseFrom].
  now intros ->.
Qed.

Lemma collapseFrom_word (b : bool) (w t : jsString) :
  Forall (fun c => isPlain c = true) w -> w <> [] ->
  collapseFrom b (w ++ t) = w ++ collapseFrom false t.
Proof.
  intros Hp. revert b. induction Hp as [|c w Hc Hw IH]; intros b Hne; [contradiction|].
  cbn [app]. rewrite collapseFrom_plain by (now apply isPlain_inv). f_equal.
  destruct w as [|d w]; [reflexivity|]. apply IH. discriminate.
Qed.

Lemma folded_collapse (s : jsString) : folded s -> collapseFrom false s = s.
Proof.
  induction 1 as [|w Hne Hp|w s' Hne Hp Hs' Hf IH]; [reflexivity | |].
  - rewrite <- (app_nil_r w) at 1. rewrite collapseFrom_word by assumption.
    cbn [collapseFrom]. apply app_nil_r.
  - rewrite collapseFrom_word by assumption. f_equal.
    cbn [collapseFrom]. change (isWhiteSpace SPACE) with true. cbv iota. f_equal.
    rewrite collapseFrom_start by (now apply folded_head). exact IH.
Qed.

Lemma trimStart_start (s : jsString) :
  startsWithWhiteSpace s = false -> trimStart s = s.
Proof.
  destruct s as [|c s]; [reflexivity|]. cbn [startsWithWhiteSpace trimStart].
  now intros ->.
Qed.

Lemma trimEnd_app (u t : jsString) :
  trimEnd t <> [] -> trimEnd (u ++ t) = u ++ trimEnd t.
Proof.
  intro H. induction u as [|c u IH]; [reflexivity|].
  cbn [app trimEnd]. rewrite IH.
  destruct (u ++ trimEnd t) eqn:Hu; [|reflexivity].
  apply app_eq_nil in Hu as [_ Hu]. contradiction.
Qed.

Lemma trimEnd_word (w : jsString) :
  Forall (fun c => isPlain c = true) w -> trimEnd w = w.
Proof.
  induction 1 as [|c w Hc Hw IH]; [reflexivity|].
  cbn [trimEnd]. rewrite IH. destruct w; [|reflexivity].
  apply isPlain_inv in Hc as [_ Hc]. now rewrite Hc.
Qed.

Lemma folded_trimEnd (s : jsString) : folded s -> trimEnd s = s.
Proof.
  induction 1 as [|w Hne Hp|w s' Hne Hp Hs' Hf IH]; [reflexivity | now apply trimEnd_word |].
  assert (Ht : trimEnd (SPACE :: s') = SPACE :: s').
  { cbn [trimEnd]. rewrite IH. destruct s'; [contradiction | reflexivity]. }
  rewrite trimEnd_app; rewrite Ht; [reflexivity | discriminate].
Qed.

(** The steps before [toLowerCase] leave a folded string as it is. *)
Lemma foldArabic_fixed (s : jsString) : folded s -> foldArabic s = s.
Proof.
  intro H. rewrite foldArabic_steps.
  rewrite rewriteAll_unchanged by (now apply folded_clean).
  unfold trim, collapseWhiteSpace. rewrite folded_collapse by exact H.
  rewrite trimStart_start by (now apply folded_head).
  now apply folded_trimEnd.
Qed.

Section LowerCase.

(** What the theorem uses of [toLowerCase]: converting twice is converting
    once; a space separates what is converted before it from what is
    converted after it; the conversion of a string without white space and
    without the Arabic code units that [normalizeArabicText] rewrites has
    none of them either; and only the empty string is converted to the empty
    string. *)
Hypothesis toLowerCase_twice :
  forall s, toLowerCase (toLowerCase s) = toLowerCase s.
Hypothesis toLowerCase_space :
  forall s1 s2, toLowerCase (s1 ++ SPACE :: s2) = toLowerCase s1 ++ SPACE :: toLowerCase s2.
Hypothesis toLowerCase_plain :
  forall s, Forall (fun c => isPlain c = true) s ->
            Forall (fun c => isPlain c = true) (toLowerCase s).
Hypothesis toLowerCase_nonempty :
  forall s, toLowerCase s = [] -> s = [].

Lemma toLowerCase_folded (s : jsString) : folded s -> folded (toLowerCase s).
Proof.
  induction 1 as [|w Hne Hp|w s' Hne Hp Hs' Hf IH].
  - pose proof (toLowerCase_plain [] (Forall_nil _)) as Hp.
    destruct (toLowerCase []) eqn:He; [constructor|].
    apply folded_word; [discriminate | exact Hp].
  - apply folded_word; [|now apply toLowerCase_plain].
    intro He. now apply toLowerCase_nonempty in He.
  - rewrite toLowerCase_space. apply folded_more.
    + intro He. now apply toLowerCase_nonempty in He.
    + now apply toLowerCase_plain.
    + intro He. now apply toLowerCase_nonempty in He.
    + exact IH.
Qed.

(** C6.  Text normalization is idempotent: for every string, normalizing
    the normalized text gives the normalized text again.  The steps before
    [toLowerCase] produce words of plain code units separated by single
    spaces, [toLowerCase] keeps a string in that form, and the steps before
    [toLowerCase] leave such a string as it is. *)
Theorem normalize_idempotent (text : jsString) :
  normalizeArabicText (normalizeArabicText text) = normalizeArabicText text.
Proof.
  unfold normalizeArabicText.
  rewrite foldArabic_fixed by (apply toLowerCase_folded, foldArabic_folded).
  apply toLowerCase_twice.
Qed.

(** With such a [toLowerCase], a normalized text that is not empty has a
    word. *)
Lemma normalized_text_has_word (text : jsString) :
  normalizeArabicText text <> [] -> tokenize (normalizeArabicText text) <> [].
Proof.
  intros Hne Ht. apply tokenize_nil_iff in Ht.
  assert (Hf : folded (normalizeArabicText text))
    by (apply toLowerCase_folded, foldArabic_folded).
  apply folded_head in Hf.
  destruct (normalizeArabicText text) as [|c s]; [contradiction|].
  inversion Ht; subst. cbn in Hf. congruence.
Qed.

End LowerCase.

(** ** The Levenshtein distance is a metric *)

Lemma edit_same (a : jsString) : edit a a 0.
Proof. induction a; now constructor. Qed.

Lemma edit_zero (a b : jsString) (n : nat) : edit a b n -> n = 0 -> a = b.
Proof.
  induction 1 as [|c a b n H IH|c d a b n H IH|c a b n H IH|d a b n H IH];
    intro Hn; try discriminate; [reflexivity|].
  f_equal. now apply IH.
Qed.

Lemma edit_lengths (a b : jsString) (n : nat) :
  edit a b n -> length a <= length b + n /\ length b <= length a + n.
Proof. induction 1; simpl; lia. Qed.

(** Two scripts, one after the other, are worth one script that is no longer
    than the two together. *)
Lemma edit_trans (a b : jsString) (n : nat) :
  edit a b n -> forall c m, edit b c m -> exists k, k <= n + m /\ edit a c k.
Proof.
  induction 1 as [|x a b n H IH|x y a b n H IH|x a b n H IH|y a b n H IH].
  - intros c m Hc. exists m. split; [lia | exact Hc].
  - intros c m Hc. remember (x :: b) as u eqn:Hu. revert b H IH Hu.
    induction Hc as [|z u c m Hc IHc|z w u c m Hc IHc|z u c m Hc IHc|w u c m Hc IHc];
      intros b H IH Hu.
    + discriminate.
    + injection Hu as -> ->. destruct (IH c m Hc) as (k & Hk & He).
      exists k. split; [lia | now apply edit_keep].
    + injection Hu as -> ->. destruct (IH c m Hc) as (k & Hk & He).
      exists (S k). split; [lia | now apply edit_substitute].
    + injection Hu as -> ->. destruct (IH c m Hc) as (k & Hk & He).
      exists (S k). split; [lia | now apply edit_delete].
    + destruct (IHc b H IH Hu) as (k & Hk & He).
      exists (S k). split; [lia | now apply edit_insert].
  - intros c m Hc. remember (y :: b) as u eqn:Hu. revert b H IH Hu.
    induction Hc as [|z u c m Hc IHc|z w u c m Hc IHc|z u c m Hc IHc|w u c m Hc IHc];
      intros b H IH Hu.
    + discriminate.
    + injection Hu as -> ->. destruct (IH c m Hc) as (k & Hk & He).
      exists (S k). split; [lia | now apply edit_substitute].
    + injection Hu as -> ->. destruct (IH c m Hc) as (k & Hk & He).
      exists (S k). split; [lia | now apply edit_substitute].
    + injection Hu as -> ->. destruct (IH c m Hc) as (k & Hk & He).
      exists (S k). split; [lia | now apply edit_delete].
    + destruct (IHc b H IH Hu) as (k & Hk & He).
      exists (S k). split; [lia | now apply edit_insert].
  - intros c m Hc. destruct (IH c m Hc) as (k & Hk & He).
    exists (S k). split; [lia | now apply edit_delete].
  - intros c m Hc. remember (y :: b) as u eqn:Hu. revert b H IH Hu.
    induction Hc as [|z u c m Hc IHc|z w u c m Hc IHc|z u c m Hc IHc|w u c m Hc IHc];
      intros b H IH Hu.
    + discriminate.
    + injection Hu as -> ->. destruct (IH c m Hc) as (k & Hk & He).
      exists (S k). split; [lia | now apply edit_insert].
    + injection Hu as -> ->. destruct (IH c m Hc) as (k & Hk & He).
      exists (S k). split; [lia | now apply edit_insert].
    + injection Hu as -> ->. destruct (IH c m Hc) as (k & Hk & He).
      exists k. split; [lia | exact He].
    + destruct (IHc b H IH Hu) as (k & Hk & He).
      exists (S k). split; [lia | now apply edit_insert].
Qed.

Lemma levenshteinDistance_zero_iff (a b : jsString) :
  levenshteinDistance a b = 0 <-> a = b.
Proof.
  destruct (levenshteinDistance_edit a b) as [H1 H2]. split.
  - intro H0. exact (edit_zero _ _ _ H1 H0).
  - intros <-. specialize (H2 0 (edit_same a)). lia.
Qed.

Lemma levenshteinDistance_triangle (a b c : jsString) :
  levenshteinDistance a c <= levenshteinDistance a b + levenshteinDistance b c.
Proof.
  destruct (levenshteinDistance_edit a b) as [Hab _].
  destruct (levenshteinDistance_edit b c) as [Hbc _].
  destruct (edit_trans _ _ _ Hab _ _ Hbc) as (k & Hk & He).
  apply (proj2 (levenshteinDistance_edit a c)) in He. lia.
Qed.

(** X1.  [levenshteinDistance] is a metric on strings: it is 0 exactly for
    equal strings, it does not depend on the order of its arguments, and it
    obeys the triangle inequality. *)
Theorem levenshteinDistance_metric :
  (forall a b, levenshteinDistance a b = 0 <-> a = b) /\
  (forall a b, levenshteinDistance a b = levenshteinDistance b a) /\
  (forall a b c,
     levenshteinDistance a c <= levenshteinDistance a b + levenshteinDistance b c).
Proof.
  split; [exact levenshteinDistance_zero_iff|].
  split; [exact levenshteinDistance_sym | exact levenshteinDistance_triangle].
Qed.

Lemma levenshteinDistance_ge_diff (a b : jsString) :
  length a - length b <= levenshteinDistance a b /\
  length b - length a <= levenshteinDistance a b.
Proof.
  destruct (levenshteinDistance_edit a b) as [H _].
  apply edit_lengths in H. lia.
Qed.

(** X2.  The distance of two strings lies between the difference of their
    lengths and the larger of their lengths; against the empty string it is
    the length of the other string. *)
Theorem levenshteinDistance_bounds (a b : jsString) :
  length a - length b <= levenshteinDistance a b /\
  length b - length a <= levenshteinDistance a b /\
  levenshteinDistance a b <= Nat.max (length a) (length b) /\
  levenshteinDistance a [] = length a /\
  levenshteinDistance [] b = length b.
Proof.
  pose proof (levenshteinDistance_ge_diff a b) as [H1 H2].
  pose proof (levenshteinDistance_le_max a b) as H3.
  pose proof (levenshteinDistance_ge_diff a []) as [H4 _].
  pose proof (levenshteinDistance_le_max a []) as H5.
  pose proof (levenshteinDistance_ge_diff [] b) as [_ H6].
  pose proof (levenshteinDistance_le_max [] b) as H7.
  simpl in H4, H5, H6, H7. repeat split; lia.
Qed.

(** ** [calculateSimilarity] *)

Lemma Qnat_le (n m : nat) : n <= m -> (Qnat n <= Qnat m)%Q.
Proof. intro H. unfold Qnat. rewrite <- Zle_Qle. lia. Qed.

Lemma Qnat_nonneg (n : nat) : (0 <= Qnat n)%Q.
Proof. apply (Qnat_le 0 n). lia. Qed.

Lemma Qnat_eq_iff (n m : nat) : (Qnat n == Qnat m)%Q <-> n = m.
Proof.
  unfold Qnat. rewrite inject_Z_injective. lia.
Qed.

(** A quotient of a count by a count that is at least as large. *)
Lemma Qnat_ratio (n m : nat) :
  n <= m -> 0 < m -> (0 <= Qnat n / Qnat m <= 1)%Q.
Proof.
  intros Hle Hpos. pose proof (Qnat_pos m Hpos) as Hm.
  pose proof (Qnat_nonneg n) as Hn. pose proof (Qnat_le n m Hle) as Hnm.
  split.
  - apply Qle_shift_div_l; [exact Hm | lra].
  - apply Qle_shift_div_r; [exact Hm | lra].
Qed.

(** X3.  [calculateSimilarity] returns a number between 0 and 1, the same
    number for either order of its arguments, and returns 1 exactly when the
    two strings are equal (two empty strings included). *)
Theorem calculateSimilarity_range (a b : jsString) :
  (0 <= calculateSimilarity a b <= 1)%Q /\
  (calculateSimilarity a b == calculateSimilarity b a)%Q /\
  ((calculateSimilarity a b == 1)%Q <-> a = b).
Proof.
  destruct (Nat.eq_dec (Nat.max (length a) (length b)) 0) as [H0|Hpos].
  - assert (Ha : a = []) by (destruct a; [reflexivity | cbn [length] in H0; lia]).
    assert (Hb : b = []) by (destruct b; [reflexivity | cbn [length] in H0; lia]).
    subst a b. cbn. repeat split; try lra; reflexivity.
  - assert (Hm : 0 < Nat.max (length a) (length b)) by lia.
    assert (Hm' : 0 < Nat.max (length b) (length a)) by lia.
    pose proof (levenshteinDistance_le_max a b) as Hd.
    pose proof (Qnat_ratio _ _ Hd Hm) as Hr.
    split; [|split].
    + rewrite calculateSimilarity_formula by exact Hm. lra.
    + rewrite !calculateSimilarity_formula by assumption.
      rewrite (levenshteinDistance_sym b a), (Nat.max_comm (length b)). reflexivity.
    + rewrite calculateSimilarity_formula by exact Hm.
      rewrite <- levenshteinDistance_zero_iff. split.
      * intro H.
        assert (Hz : (Qnat (levenshteinDistance a b) == 0)%Q).
        { assert (Hq : (Qnat (levenshteinDistance a b)
                        / Qnat (Nat.max (length a) (length b)) == 0)%Q) by lra.
          pose proof (Qnat_nonzero _ Hm) as Hnz.
          rewrite <- (Qmult_div_r (Qnat (levenshteinDistance a b))
                        (Qnat (Nat.max (length a) (length b)))) by exact Hnz.
          rewrite Hq. ring. }
        now apply (Qnat_eq_iff _ 0) in Hz.
      * intros ->. change (Qnat 0) with 0%Q. field. now apply Qnat_nonzero.
Qed.

(** ** [longestCommonSubsequence] returns a longest common subsequence *)

Lemma lcsCode_nil_r (s1 : list jsString) : lcsCode s1 [] = 0.
Proof. now destruct s1. Qed.

Lemma lcsCode_cons (x y : jsString) (s1 s2 : list jsString) :
  lcsCode (x :: s1) (y :: s2) =
  if arabicWordMatch x y
  then lcsCode s1 s2 + 1
  else Nat.max (lcsCode s1 (y :: s2)) (lcsCode (x :: s1) s2).
Proof. reflexivity. Qed.

Lemma lcsClassic_nil_r (l1 : list jsString) : lcsClassic l1 [] = 0.
Proof. now destruct l1. Qed.

Lemma lcsClassic_cons (x y : jsString) (l1 l2 : list jsString) :
  lcsClassic (x :: l1) (y :: l2) =
  Nat.max
    (Nat.max (lcsClassic l1 l2 + (if arabicWordMatch x y then 1 else 0))
             (lcsClassic l1 (y :: l2)))
    (lcsClassic (x :: l1) l2).
Proof. reflexivity. Qed.

(** *** Common subsequences *)

Lemma commonSub_empty (l1 l2 : list jsString) : commonSub l1 l2 [].
Proof.
  induction l1 as [|x l1 IH]; [|now apply common_skip_l].
  induction l2 as [|y l2 IH2]; [constructor | now apply common_skip_r].
Qed.

Lemma commonSub_app (l1 l2 s l1' l2' s' : list jsString) :
  commonSub l1 l2 s -> commonSub l1' l2' s' ->
  commonSub (l1 ++ l1') (l2 ++ l2') (s ++ s').
Proof. intros H H'. induction H; simpl; try assumption; now constructor. Qed.

Lemma commonSub_rev (l1 l2 s : list jsString) :
  commonSub l1 l2 s -> commonSub (rev l1) (rev l2) (rev s).
Proof.
  induction 1 as [|x y l1 l2 s Hm H IH|x l1 l2 s H IH|y l1 l2 s H IH]; cbn [rev].
  - constructor.
  - apply commonSub_app; [exact IH|]. apply common_match; [exact Hm | constructor].
  - rewrite <- (app_nil_r (rev l2)), <- (app_nil_r (rev s)).
    apply commonSub_app; [exact IH|]. apply common_skip_l. constructor.
  - rewrite <- (app_nil_r (rev l1)), <- (app_nil_r (rev s)).
    apply commonSub_app; [exact IH|]. apply common_skip_r. constructor.
Qed.

Lemma commonSub_lengths (l1 l2 s : list jsString) :
  commonSub l1 l2 s -> length s <= length l1 /\ length s <= length l2.
Proof. induction 1; simpl; lia. Qed.

Lemma commonSub_drop_r (l1 u s : list jsString) :
  commonSub l1 u s ->
  forall y l2, u = y :: l2 ->
  exists s', commonSub l1 l2 s' /\ length s <= S (length s').
Proof.
  induction 1 as [|x y0 l1 u s Hm H IH|x l1 u s H IH|y0 l1 u s H IH]; intros y l2 Hu.
  - discriminate.
  - injection Hu as -> ->. exists s. split; [now apply common_skip_l | simpl; lia].
  - destruct (IH y l2 Hu) as (s' & Hs' & Hl).
    exists s'. split; [now apply common_skip_l | exact Hl].
  - injection Hu as -> ->. exists s. split; [exact H | lia].
Qed.

Lemma commonSub_drop_l (u l2 s : list jsString) :
  commonSub u l2 s ->
  forall x l1, u = x :: l1 ->
  exists s', commonSub l1 l2 s' /\ length s <= S (length s').
Proof.
  induction 1 as [|x0 y u l2 s Hm H IH|x0 u l2 s H IH|y u l2 s H IH]; intros x l1 Hu.
  - discriminate.
  - injection Hu as -> ->. exists s. split; [now apply common_skip_r | simpl; lia].
  - injection Hu as -> ->. exists s. split; [exact H | lia].
  - destruct (IH x l1 Hu) as (s' & Hs' & Hl).
    exists s'. split; [now apply common_skip_r | exact Hl].
Qed.

Lemma lcsClassic_sound (l1 l2 : list jsString) :
  exists s, commonSub l1 l2 s /\ length s = lcsClassic l1 l2.
Proof.
  revert l2; induction l1 as [|x l1 IH1]; intro l2.
  - exists []. split; [apply commonSub_empty | reflexivity].
  - induction l2 as [|y l2 IH2].
    + exists []. split; [apply commonSub_empty | now rewrite lcsClassic_nil_r].
    + rewrite lcsClassic_cons.
      destruct (IH1 l2) as (sd & Hsd & Hld).
      destruct (IH1 (y :: l2)) as (su & Hsu & Hlu).
      destruct IH2 as (sl & Hsl & Hll).
      destruct (Nat.max_spec
                  (Nat.max (lcsClassic l1 l2 + (if arabicWordMatch x y then 1 else 0))
                           (lcsClassic l1 (y :: l2)))
                  (lcsClassic (x :: l1) l2)) as [[_ ->]|[_ ->]].
      * exists sl. split; [now apply common_skip_r | exact Hll].
      * destruct (Nat.max_spec
                    (lcsClassic l1 l2 + (if arabicWordMatch x y then 1 else 0))
                    (lcsClassic l1 (y :: l2))) as [[_ ->]|[_ ->]].
        -- exists su. split; [now apply common_skip_l | exact Hlu].
        -- destruct (arabicWordMatch x y) eqn:Hm.
           ++ exists (x :: sd). split; [now apply common_match | simpl; lia].
           ++ exists sd. split; [now apply common_skip_l, common_skip_r | lia].
Qed.

Lemma lcsClassic_greatest (l1 l2 s : list jsString) :
  commonSub l1 l2 s -> length s <= lcsClassic l1 l2.
Proof.
  induction 1 as [|x y l1 l2 s Hm H IH|x l1 l2 s H IH|y l1 l2 s H IH].
  - reflexivity.
  - rewrite lcsClassic_cons, Hm. simpl. lia.
  - destruct l2 as [|y l2].
    + rewrite lcsClassic_nil_r in *. lia.
    + rewrite lcsClassic_cons. lia.
  - destruct l1 as [|x l1].
    + simpl in *. lia.
    + rewrite lcsClassic_cons. lia.
Qed.

Lemma lcsClassic_drop_r (l1 l2 : list jsString) (y : jsString) :
  lcsClassic l1 (y :: l2) <= lcsClassic l1 l2 + 1.
Proof.
  destruct (lcsClassic_sound l1 (y :: l2)) as (s & Hs & Hl).
  destruct (commonSub_drop_r _ _ _ Hs y l2 eq_refl) as (s' & Hs' & Hl').
  apply lcsClassic_greatest in Hs'. lia.
Qed.

Lemma lcsClassic_drop_l (l1 l2 : list jsString) (x : jsString) :
  lcsClassic (x :: l1) l2 <= lcsClassic l1 l2 + 1.
Proof.
  destruct (lcsClassic_sound (x :: l1) l2) as (s & Hs & Hl).
  destruct (commonSub_drop_l _ _ _ Hs x l1 eq_refl) as (s' & Hs' & Hl').
  apply lcsClassic_greatest in Hs'. lia.
Qed.

Lemma lcsClassic_mono_r (l1 l2 : list jsString) (y : jsString) :
  lcsClassic l1 l2 <= lcsClassic l1 (y :: l2).
Proof.
  destruct (lcsClassic_sound l1 l2) as (s & Hs & Hl).
  rewrite <- Hl. apply lcsClassic_greatest. now apply common_skip_r.
Qed.

(** Taking the diagonal entry plus one for matching words loses nothing. *)
Lemma lcsCode_classic (s1 s2 : list jsString) : lcsCode s1 s2 = lcsClassic s1 s2.
Proof.
  revert s2; induction s1 as [|x s1 IH1]; intro s2; [reflexivity|].
  induction s2 as [|y s2 IH2]; [reflexivity|].
  rewrite lcsCode_cons, lcsClassic_cons, IH2, !IH1.
  pose proof (lcsClassic_drop_r s1 s2 y). pose proof (lcsClassic_drop_l s1 s2 x).
  pose proof (lcsClassic_mono_r s1 s2 y).
  destruct (arabicWordMatch x y); lia.
Qed.

(** *** The table *)

Lemma lcsRow_rowFrom (a : jsString) (s1 : list jsString) (rest q : list jsString) :
  lcsRow a rest (lcsCode s1 q :: lcsRowFrom s1 q rest) (lcsCode (a :: s1) q) =
  lcsRowFrom (a :: s1) q rest.
Proof.
  revert q; induction rest as [|b rest IH]; intro q; [reflexivity|].
  cbn [lcsRowFrom lcsRow].
  assert (Hv : (if arabicWordMatch a b
                then lcsCode s1 q + 1
                else Nat.max (lcsCode s1 (b :: q)) (lcsCode (a :: s1) q))
               = lcsCode (a :: s1) (b :: q)) by (now rewrite lcsCode_cons).
  rewrite Hv. f_equal.
  destruct rest as [|b' rest']; [reflexivity|]. exact (IH (b :: q)).
Qed.

Lemma lcsRowFrom_nil (q rest : list jsString) :
  lcsRowFrom [] q rest = repeat 0 (length rest).
Proof.
  revert q; induction rest as [|b rest IH]; intro q; [reflexivity|].
  cbn [lcsRowFrom length repeat lcsCode]. f_equal. exact (IH (b :: q)).
Qed.

Lemma lcsFullRow_nil (arr2 : list jsString) :
  lcsFullRow [] arr2 = repeat 0 (S (length arr2)).
Proof. unfold lcsFullRow. now rewrite lcsRowFrom_nil. Qed.

Lemma lcsRows_nth (arr2 rest s1 : list jsString) (i : nat) :
  i <= length rest ->
  nth i (lcsFullRow s1 arr2 :: lcsRows arr2 (lcsFullRow s1 arr2) rest) [] =
  lcsFullRow (rev (firstn i rest) ++ s1) arr2.
Proof.
  revert s1 i; induction rest as [|a rest IH]; intros s1 i Hi.
  - replace i with 0 by (simpl in Hi; lia). reflexivity.
  - destruct i as [|i]; [reflexivity|].
    cbn [lcsRows firstn]. rewrite nth_S_cons.
    assert (Hrow : 0 :: lcsRow a arr2 (lcsFullRow s1 arr2) 0 = lcsFullRow (a :: s1) arr2).
    { unfold lcsFullRow. rewrite (lcsCode_nil_r (a :: s1)). f_equal.
      rewrite <- (lcsRow_rowFrom a s1 arr2 []).
      now rewrite (lcsCode_nil_r (a :: s1)). }
    rewrite Hrow. rewrite (IH (a :: s1) i) by (simpl in Hi; lia).
    cbn [rev]. now rewrite <- app_assoc.
Qed.

Lemma lcsRowFrom_nth (s1 rest q : list jsString) (j : nat) :
  j <= length rest ->
  nth j (lcsCode s1 q :: lcsRowFrom s1 q rest) 0 = lcsCode s1 (rev (firstn j rest) ++ q).
Proof.
  revert q j; induction rest as [|b rest IH]; intros q j Hj.
  - replace j with 0 by (simpl in Hj; lia). reflexivity.
  - destruct j as [|j]; [reflexivity|].
    cbn [lcsRowFrom firstn]. rewrite nth_S_cons.
    rewrite (IH (b :: q) j) by (simpl in Hj; lia).
    cbn [rev]. now rewrite <- app_assoc.
Qed.

(** Every entry of [dp] is the recurrence at the two prefixes. *)
Lemma lcsTable_entry (arr1 arr2 : list jsString) (i j : nat) :
  i <= length arr1 -> j <= length arr2 ->
  tableAt (lcsTable arr1 arr2) i j =
  lcsClassic (rev (firstn i arr1)) (rev (firstn j arr2)).
Proof.
  intros Hi Hj. unfold tableAt, lcsTable. cbv zeta.
  rewrite <- lcsFullRow_nil.
  rewrite (lcsRows_nth arr2 arr1 [] i Hi), app_nil_r.
  unfold lcsFullRow. rewrite lcsRowFrom_nth by exact Hj.
  now rewrite app_nil_r, lcsCode_classic.
Qed.

Lemma commonSub_snoc_l (l1 l2 s : list jsString) (x : jsString) :
  commonSub l1 l2 s -> commonSub (l1 ++ [x]) l2 s.
Proof.
  intro H. rewrite <- (app_nil_r l2), <- (app_nil_r s).
  apply commonSub_app; [exact H|]. apply common_skip_l. constructor.
Qed.

Lemma commonSub_snoc_r (l1 l2 s : list jsString) (y : jsString) :
  commonSub l1 l2 s -> commonSub l1 (l2 ++ [y]) s.
Proof.
  intro H. rewrite <- (app_nil_r l1), <- (app_nil_r s).
  apply commonSub_app; [exact H|]. apply common_skip_r. constructor.
Qed.

Lemma lcsClassic_snoc (x y : jsString) (l1 l2 : list jsString) :
  lcsClassic (rev (l1 ++ [x])) (rev (l2 ++ [y])) =
  if arabicWordMatch x y
  then lcsClassic (rev l1) (rev l2) + 1
  else Nat.max (lcsClassic (rev l1) (rev (l2 ++ [y])))
               (lcsClassic (rev (l1 ++ [x])) (rev l2)).
Proof.
  rewrite !rev_app_distr. cbn [rev app].
  rewrite <- !lcsCode_classic. apply lcsCode_cons.
Qed.

(** The reconstruction loop, from any state inside the table: it puts in
    front of [lcs] a common subsequence of the two prefixes that is as long
    as the entry of the table says. *)
Lemma lcsBack_spec (arr1 arr2 : list jsString) :
  forall i j lcs,
    i <= length arr1 -> j <= length arr2 ->
    exists sub,
      lcsBack arr1 arr2 (lcsTable arr1 arr2) i j lcs = sub ++ lcs /\
      commonSub (firstn i arr1) (firstn j arr2) sub /\
      length sub = lcsClassic (rev (firstn i arr1)) (rev (firstn j arr2)).
Proof.
  induction i as [|i IHi]; intros j lcs Hi Hj.
  - exists []. repeat split. apply commonSub_empty.
  - induction j as [|j IHj].
    + exists []. repeat split; [apply commonSub_empty|].
      cbn [firstn rev]. now rewrite lcsClassic_nil_r.
    + cbn [lcsBack].
      set (x := nth i arr1 []). set (y := nth j arr2 []).
      assert (Hfi : firstn (S i) arr1 = firstn i arr1 ++ [x])
        by (apply firstn_snoc_nth; lia).
      assert (Hfj : firstn (S j) arr2 = firstn j arr2 ++ [y])
        by (apply firstn_snoc_nth; lia).
      pose proof (lcsClassic_snoc x y (firstn i arr1) (firstn j arr2)) as Hrec.
      rewrite <- Hfi, <- Hfj in Hrec.
      destruct (arabicWordMatch x y) eqn:Hm.
      * destruct (IHi j (x :: lcs)) as (sub & He & Hc & Hl); [lia | lia |].
        exists (sub ++ [x]). split; [|split].
        -- rewrite He, <- app_assoc. reflexivity.
        -- rewrite Hfi, Hfj. apply commonSub_app; [exact Hc|].
           apply common_match; [exact Hm | constructor].
        -- rewrite Hrec, length_app. simpl. lia.
      * rewrite !lcsTable_entry by lia.
        destruct (lcsClassic (rev (firstn (S i) arr1)) (rev (firstn j arr2))
                  <? lcsClassic (rev (firstn i arr1)) (rev (firstn (S j) arr2))) eqn:Hcmp.
        -- apply Nat.ltb_lt in Hcmp.
           destruct (IHi (S j) lcs) as (sub & He & Hc & Hl); [lia | lia |].
           exists sub. split; [exact He|]. split.
           ++ rewrite Hfi. now apply commonSub_snoc_l.
           ++ rewrite Hrec, Hl. lia.
        -- apply Nat.ltb_ge in Hcmp.
           destruct IHj as (sub & He & Hc & Hl); [lia|].
           exists sub. split; [exact He|]. split.
           ++ rewrite Hfj. now apply commonSub_snoc_r.
           ++ rewrite Hrec, Hl. lia.
Qed.

Lemma longestCommonSubsequence_common (arr1 arr2 : list jsString) :
  commonSub arr1 arr2 (longestCommonSubsequence arr1 arr2) /\
  length (longestCommonSubsequence arr1 arr2) = lcsClassic (rev arr1) (rev arr2).
Proof.
  unfold longestCommonSubsequence.
  destruct (lcsBack_spec arr1 arr2 (length arr1) (length arr2) [])
    as (sub & He & Hc & Hl); [lia | lia |].
  rewrite He, app_nil_r. rewrite !firstn_all in Hc, Hl. now split.
Qed.

Lemma longestCommonSubsequence_length (arr1 arr2 : list jsString) :
  length (longestCommonSubsequence arr1 arr2) <= Nat.min (length arr1) (length arr2).
Proof.
  destruct (longestCommonSubsequence_common arr1 arr2) as [Hc _].
  apply commonSub_lengths in Hc. lia.
Qed.

(** X4.  [longestCommonSubsequence] returns a common subsequence of its two
    arrays under the fuzzy word match (words of the first array, in order,
    matching in order words of the second), and no common subsequence is
    longer; so its length is at most the length of either array. *)
Theorem longestCommonSubsequence_longest (arr1 arr2 : list jsString) :
  commonSub arr1 arr2 (longestCommonSubsequence arr1 arr2) /\
  (forall sub, commonSub arr1 arr2 sub ->
     length sub <= length (longestCommonSubsequence arr1 arr2)) /\
  length (longestCommonSubsequence arr1 arr2) <= Nat.min (length arr1) (length arr2).
Proof.
  destruct (longestCommonSubsequence_common arr1 arr2) as [Hc Hl].
  split; [exact Hc|]. split.
  - intros s Hs. rewrite Hl, <- (length_rev s).
    apply lcsClassic_greatest, commonSub_rev, Hs.
  - apply longestCommonSubsequence_length.
Qed.

(** ** The scores lie between 0 and 1 *)

Lemma calculateSequenceMatch_range (transcribed window : list jsString) :
  (0 <= calculateSequenceMatch transcribed window <= 1)%Q.
Proof.
  unfold calculateSequenceMatch.
  destruct ((length transcribed =? 0) || (length window =? 0)) eqn:H0; [lra|].
  apply orb_false_iff in H0 as [H1 H2]. apply Nat.eqb_neq in H1, H2.
  pose proof (longestCommonSubsequence_length transcribed window).
  apply Qnat_ratio; lia.
Qed.

Lemma calculateWordOverlap_range (transcribed window : list jsString) :
  transcribed <> [] ->
  (0 <= calculateWordOverlap transcribed window <= 1)%Q.
Proof.
  intro Hne. unfold calculateWordOverlap.
  pose proof (newSet_nonempty transcribed Hne).
  pose proof (filter_length_le (setHas (newSet window)) (newSet transcribed)).
  apply Qnat_ratio; lia.
Qed.

Lemma calculateEditScore_range (transcribed window : list jsString) :
  (0 <= calculateEditScore transcribed window <= 1)%Q.
Proof.
  unfold calculateEditScore.
  destruct (0 <? Nat.max _ _) eqn:Hpos; [|lra].
  apply Nat.ltb_lt in Hpos.
  pose proof (Qnat_ratio _ _ (levenshteinDistance_le_max
                                (join [SPACE] transcribed) (join [SPACE] window)) Hpos).
  lra.
Qed.

(** The loop of [calculateAlignmentScore] keeps its sum between 0 and the
    number of matches. *)
Lemma alignment_loop (transcribed window : list jsString) (minLength : nat)
  (positions : list nat) (st : Q * nat) :
  Forall (fun i => i < minLength) positions ->
  (0 <= fst st <= Qnat (snd st))%Q ->
  (0 <= fst (fold_left (alignmentStep transcribed window minLength) positions st)
   <= Qnat (snd (fold_left (alignmentStep transcribed window minLength) positions st)))%Q.
Proof.
  intro Hp. revert st. induction Hp as [|i positions Hi Hp IH]; intros st Hst; [exact Hst|].
  cbn [fold_left]. apply IH. unfold alignmentStep.
  destruct (arabicWordMatch _ _); [|exact Hst]. cbn [fst snd].
  assert (Ht : (0 <= (Qnat minLength - Qnat i) / Qnat minLength <= 1)%Q).
  { pose proof (Qnat_pos minLength ltac:(lia)) as Hm.
    pose proof (Qnat_le i minLength ltac:(lia)). pose proof (Qnat_nonneg i).
    split; [apply Qle_shift_div_l | apply Qle_shift_div_r]; (exact Hm || lra). }
  assert (HS : (Qnat (S (snd st)) == Qnat (snd st) + 1)%Q).
  { unfold Qnat. rewrite Nat2Z.inj_succ, <- Z.add_1_r, inject_Z_plus. reflexivity. }
  rewrite HS. lra.
Qed.

Lemma calculateAlignmentScore_range (transcribed window : list jsString) :
  (0 <= calculateAlignmentScore transcribed window <= 1)%Q.
Proof.
  unfold calculateAlignmentScore.
  set (n := Nat.min (length transcribed) (length window)).
  pose proof (alignment_loop transcribed window n (seq 0 n) (0%Q, 0)) as H.
  destruct (fold_left _ _ _) as [sum matches]. cbn [fst snd] in H.
  destruct H as [H1 H2].
  - apply Forall_forall. intros i Hi. apply in_seq in Hi. lia.
  - cbn [fst snd]. change (Qnat 0) with 0%Q. lra.
  - destruct (0 <? matches) eqn:Hm; [|lra]. apply Nat.ltb_lt in Hm.
    pose proof (Qnat_pos matches Hm) as Hq.
    split; [apply Qle_shift_div_l | apply Qle_shift_div_r]; (exact Hq || lra).
Qed.

Lemma Math_round_range (x : Q) (n : nat) :
  (0 <= x <= Qnat n)%Q -> (0 <= Math_round x <= Z.of_nat n)%Z.
Proof.
  intros [H0 Hn]. unfold Math_round. split.
  - change 0%Z with (Qfloor 0). apply Qfloor_resp_le. lra.
  - pose proof (Qfloor_le (x + (1 # 2))) as Hf.
    assert (Hlt : (inject_Z (Qfloor (x + (1 # 2))) < inject_Z (Z.of_nat n + 1))%Q).
    { rewrite inject_Z_plus. unfold Qnat in Hn. change (inject_Z 1) with 1%Q. lra. }
    rewrite <- Zlt_Qlt in Hlt. lia.
Qed.

Lemma scoreWindow_in_range (transcribedWords : list jsString) (window : AyahWindow.t) :
  transcribedWords <> [] ->
  let score := scoreWindow transcribedWords window in
  (0 <= Score.confidence score <= 1)%Q /\
  (0 <= Score.accuracy score <= 1)%Q /\
  (0 <= Score.alignmentScore score <= 1)%Q /\
  Score.totalWords score = Z.of_nat (length transcribedWords) /\
  (0 <= Score.matchedWords score <= Score.totalWords score)%Z.
Proof.
  intros Hne score. subst score. unfold scoreWindow.
  cbn [Score.confidence Score.accuracy Score.alignmentScore Score.totalWords
       Score.matchedWords].
  pose proof (calculateSequenceMatch_range transcribedWords (AyahWindow.words window)) as Hs.
  pose proof (calculateWordOverlap_range transcribedWords (AyahWindow.words window) Hne) as Ho.
  pose proof (calculateEditScore_range transcribedWords (AyahWindow.words window)) as He.
  pose proof (calculateAlignmentScore_range transcribedWords (AyahWindow.words window)) as Ha.
  split; [lra|]. split; [lra|]. split; [lra|]. split; [reflexivity|].
  apply Math_round_range. pose proof (Qnat_nonneg (length transcribedWords)). nra.
Qed.

(** X5.  For a transcription with at least one word, every score that
    [scoreWindow] returns lies between 0 and 1 (confidence, accuracy and
    alignment score), [totalWords] is the number of transcribed words, and
    [matchedWords] lies between 0 and [totalWords]. *)
Theorem scoreWindow_ranges (transcribedWords : list jsString) (window : AyahWindow.t) :
  transcribedWords <> [] ->
  let score := scoreWindow transcribedWords window in
  (0 <= Score.confidence score <= 1)%Q /\
  (0 <= Score.accuracy score <= 1)%Q /\
  (0 <= Score.alignmentScore score <= 1)%Q /\
  Score.totalWords score = Z.of_nat (length transcribedWords) /\
  (0 <= Score.matchedWords score <= Score.totalWords score)%Z.
Proof. exact (scoreWindow_in_range transcribedWords window). Qed.

(** ** A transcription that has exactly the words of a window *)

Lemma Qnat_S (n : nat) : (Qnat (S n) == Qnat n + 1)%Q.
Proof.
  unfold Qnat. rewrite Nat2Z.inj_succ, <- Z.add_1_r, inject_Z_plus. reflexivity.
Qed.

Lemma setHas_In (s : list jsString) (w : jsString) : In w s -> setHas s w = true.
Proof.
  intro H. unfold setHas. apply existsb_exists. exists w. split; [exact H|].
  apply strEq_refl.
Qed.

Lemma filter_all {X : Type} (f : X -> bool) (l : list X) :
  (forall x, In x l -> f x = true) -> filter f l = l.
Proof.
  induction l as [|x l IH]; intro H; [reflexivity|].
  cbn [filter]. rewrite (H x (in_eq _ _)). f_equal. apply IH.
  intros y Hy. apply H. now right.
Qed.

Lemma calculateWordOverlap_self (ws : list jsString) :
  ws <> [] -> (calculateWordOverlap ws ws == 1)%Q.
Proof.
  intro Hne. unfold calculateWordOverlap.
  rewrite filter_all by (intros w Hw; now apply setHas_In).
  rewrite Nat.max_id. apply Qmult_inv_r, Qnat_nonzero, newSet_nonempty, Hne.
Qed.

Lemma join_nonempty (sep : jsString) (ws : list jsString) :
  ws <> [] -> (forall w, In w ws -> w <> []) -> join sep ws <> [].
Proof.
  destruct ws as [|w ws]; [contradiction|]. intros _ Hw.
  pose proof (Hw w (in_eq _ _)) as Hne.
  destruct w as [|c w]; [contradiction|].
  cbn [join]. destruct ws; discriminate.
Qed.

Lemma calculateEditScore_self (ws : list jsString) :
  ws <> [] -> (forall w, In w ws -> w <> []) ->
  (calculateEditScore ws ws == 1)%Q.
Proof.
  intros Hne Hw. unfold calculateEditScore.
  pose proof (join_nonempty [SPACE] ws Hne Hw) as Hj.
  rewrite (proj2 (levenshteinDistance_zero_iff _ _) eq_refl), Nat.max_id.
  assert (Hpos : 0 < length (join [SPACE] ws))
    by (destruct (join [SPACE] ws); [contradiction | simpl; lia]).
  rewrite (proj2 (Nat.ltb_lt _ _) Hpos).
  change (Qnat 0) with 0%Q. field. now apply Qnat_nonzero.
Qed.

(** The loop of [calculateAlignmentScore] on a word list against itself,
    over the positions [a], ..., [a + k - 1]: every position matches. *)
Lemma alignment_loop_self (ws : list jsString) :
  (forall w, In w ws -> w <> []) ->
  forall k a st,
    a + k <= length ws ->
    let n := Qnat (length ws) in
    let result := fold_left (alignmentStep ws ws (length ws)) (seq a k) st in
    (fst result ==
     fst st + Qnat k * (2 * n - 2 * Qnat a - Qnat k + 1) / (2 * n))%Q /\
    snd result = snd st + k.
Proof.
  intros Hw. induction k as [|k IH]; intros a st Hk n result.
  - subst result. cbn [seq fold_left]. split; [|lia].
    change (Qnat 0) with 0%Q. unfold Qdiv. ring.
  - subst result. cbn [seq fold_left].
    assert (Hn : ~ (n == 0)%Q) by (apply Qnat_nonzero; lia).
    assert (Hstep : alignmentStep ws ws (length ws) st a
                    = ((fst st + (Qnat (length ws) - Qnat a) / Qnat (length ws))%Q,
                       S (snd st))).
    { unfold alignmentStep.
      now rewrite arabicWordMatch_refl by (apply Hw, nth_In; lia). }
    rewrite Hstep.
    destruct (IH (S a) ((fst st + (Qnat (length ws) - Qnat a) / Qnat (length ws))%Q,
                        S (snd st))) as [H1 H2]; [lia|].
    cbn [fst snd] in H1, H2. split; [|lia].
    rewrite H1, (Qnat_S a), (Qnat_S k). fold n. field. exact Hn.
Qed.

Lemma calculateAlignmentScore_self (ws : list jsString) :
  ws <> [] -> (forall w, In w ws -> w <> []) ->
  (calculateAlignmentScore ws ws ==
   (Qnat (length ws) + 1) / (2 * Qnat (length ws)))%Q.
Proof.
  intros Hne Hw. unfold calculateAlignmentScore. rewrite Nat.min_id.
  destruct (alignment_loop_self ws Hw (length ws) 0 (0%Q, 0)) as [H1 H2]; [lia|].
  destruct (fold_left _ _ _) as [sum matches]. cbn [fst snd] in H1, H2.
  assert (Hpos : 0 < length ws) by (destruct ws; [contradiction | simpl; lia]).
  subst matches. cbn [Nat.add]. rewrite (proj2 (Nat.ltb_lt _ _) Hpos).
  rewrite H1. change (Qnat 0) with 0%Q. field. now apply Qnat_nonzero.
Qed.

(** X6.  When the words of a transcription (at least one) are exactly the
    words of a window, that window scores confidence 1 and accuracy 1: the
    sequence match, the word overlap and the edit score are all 1, and all
    the words count as matched. *)
Theorem exact_words_score (transcribedText : jsString) (window : AyahWindow.t) :
  let transcribedWords := tokenize (normalizeArabicText transcribedText) in
  transcribedWords <> [] ->
  AyahWindow.words window = transcribedWords ->
  let score := scoreWindow transcribedWords window in
  (calculateWordOverlap transcribedWords (AyahWindow.words window) == 1)%Q /\
  (calculateEditScore transcribedWords (AyahWindow.words window) == 1)%Q /\
  (Score.confidence score == 1)%Q /\
  (Score.accuracy score == 1)%Q /\
  Score.matchedWords score = Score.totalWords score.
Proof.
  intros transcribedWords Hne Hwin score.
  assert (Hw : forall w, In w transcribedWords -> w <> [])
    by (intro w; apply tokenize_words_nonempty).
  pose proof (calculateSequenceMatch_self _ Hne Hw) as Hs.
  pose proof (calculateWordOverlap_self _ Hne) as Ho.
  pose proof (calculateEditScore_self _ Hne Hw) as He.
  subst score. unfold scoreWindow. rewrite Hwin.
  cbn [Score.confidence Score.accuracy Score.alignmentScore Score.matchedWords
       Score.totalWords].
  split; [exact Ho|]. split; [exact He|]. split; [rewrite Hs, Ho, He; reflexivity|].
  split; [exact Hs|].
  unfold Math_round.
  assert (Hq : (calculateSequenceMatch transcribedWords transcribedWords
                * Qnat (length transcribedWords) + (1 # 2)
                == inject_Z (Z.of_nat (length transcribedWords)) + (1 # 2))%Q)
    by (rewrite Hs; unfold Qnat; ring).
  rewrite Hq.
  pose proof (Qfloor_le (inject_Z (Z.of_nat (length transcribedWords)) + (1 # 2))) as H1.
  pose proof (Qlt_floor (inject_Z (Z.of_nat (length transcribedWords)) + (1 # 2))) as H2.
  assert (H3 : (inject_Z (Qfloor (inject_Z (Z.of_nat (length transcribedWords)) + (1 # 2)))
                < inject_Z (Z.of_nat (length transcribedWords) + 1))%Q)
    by (rewrite inject_Z_plus; change (inject_Z 1) with 1%Q; lra).
  assert (H4 : (inject_Z (Z.of_nat (length transcribedWords))
                < inject_Z (Qfloor (inject_Z (Z.of_nat (length transcribedWords))
                                    + (1 # 2)) + 1))%Q) by lra.
  rewrite <- Zlt_Qlt in H3, H4. lia.
Qed.

Lemma firstLargest_greatest {X : Type} (key : X -> Q) (l : list X) (h d : X) :
  firstLargest key l h -> In d l -> (key d <= key h)%Q.
Proof.
  intros (pre & post & Hl & Hpre & Hpost) Hd. rewrite Hl in Hd.
  apply in_app_or in Hd as [Hd|[<-|Hd]].
  - specialize (Hpre d Hd). lra.
  - lra.
  - exact (Hpost d Hd).
Qed.

Lemma buildSlidingWindows_failures (session : RecitationSession) :
  consecutiveFailures (buildSlidingWindows session) = consecutiveFailures session.
Proof. unfold buildSlidingWindows. now destruct (findSura _). Qed.

Lemma exact_words_confidence (ws : list jsString) (window : AyahWindow.t) :
  ws <> [] -> (forall w, In w ws -> w <> []) -> AyahWindow.words window = ws ->
  (Score.confidence (scoreWindow ws window) == 1)%Q /\
  (Score.accuracy (scoreWindow ws window) == 1)%Q /\
  (1 # 2 <= Score.alignmentScore (scoreWindow ws window))%Q.
Proof.
  intros Hne Hw Hwin. unfold scoreWindow. rewrite Hwin.
  cbn [Score.confidence Score.accuracy Score.alignmentScore].
  rewrite calculateSequenceMatch_self, calculateWordOverlap_self,
    calculateEditScore_self, calculateAlignmentScore_self by assumption.
  split; [reflexivity|]. split; [reflexivity|].
  assert (Hpos : 0 < length ws) by (destruct ws; [contradiction | simpl; lia]).
  pose proof (Qnat_pos _ Hpos) as Hq.
  apply Qle_shift_div_l; lra.
Qed.

(** X7.  When an active session whose threshold is at most 1 (as it is in
    every session the methods produce) has a window with exactly the words
    of the transcription, [processAudioChunk] returns a match: the call is
    never counted as a failure, [consecutiveFailures] is 0 afterwards, and
    the combined score of the match returned is at least that of the exact
    window, which is at least 0.9. *)
Theorem exact_recitation_matches
  (session : RecitationSession) (transcribedText : jsString)
  (i : nat) (window : AyahWindow.t) :
  isActive session = true ->
  (confidenceThreshold session <= 1)%Q ->
  nth_error (slidingWindows session) i = Some window ->
  tokenize (normalizeArabicText transcribedText) <> [] ->
  AyahWindow.words window = tokenize (normalizeArabicText transcribedText) ->
  exists bestMatch session',
    processAudioChunk (Some session) transcribedText = (Some bestMatch, Some session') /\
    consecutiveFailures session' = 0%Z /\
    lastSuccessfulMatch session' = Some bestMatch /\
    (combinedScore
       (toMatchResult
          (scoreWindow (tokenize (normalizeArabicText transcribedText)) window)
          (Z.of_nat i) window)
     <= combinedScore bestMatch)%Q /\
    (0.9 <= combinedScore bestMatch)%Q.
Proof.
  intros Ha Ht Hn Hne Hwin.
  set (ws := tokenize (normalizeArabicText transcribedText)) in *.
  assert (Hw : forall w, In w ws -> w <> [])
    by (intro w; apply tokenize_words_nonempty).
  destruct (exact_words_confidence ws window Hne Hw Hwin) as (Hc & Hacc & Hal).
  set (exact := toMatchResult (scoreWindow ws window) (Z.of_nat i) window).
  assert (Hin : In exact (acceptedWindows session transcribedText)).
  { unfold acceptedWindows. fold ws. apply In_scoreWindows.
    exists i, window. split; [exact Hn|]. split; [rewrite Hc; exact Ht | reflexivity]. }
  rewrite processAudioChunk_scored by assumption.
  destruct (Array_sort compareScores (acceptedWindows session transcribedText))
    as [|best rest] eqn:Hsort.
  - apply Array_sort_nil in Hsort. rewrite Hsort in Hin. destruct Hin.
  - rewrite compareScores_byKey in Hsort. apply Array_sort_head in Hsort.
    pose proof (firstLargest_greatest _ _ _ _ Hsort Hin) as Hge.
    exists best, (recordMatch session best).
    split; [reflexivity|]. split; [|split; [|split; [exact Hge|]]].
    + unfold recordMatch. now rewrite buildSlidingWindows_failures.
    + unfold recordMatch, buildSlidingWindows. cbn [suraIndex].
      now destruct (findSura _).
    + assert (He : (0.9 <= combinedScore exact)%Q).
      { unfold combinedScore, exact, toMatchResult.
        cbn [MatchResult.confidence MatchResult.accuracy MatchResult.alignmentScore].
        rewrite Hc, Hacc. lra. }
      lra.
Qed.

(** ** More on the windows *)

Lemma slice_single {X : Type} (l : list X) (k : nat) (d : X) :
  k < length l -> slice l (Z.of_nat k) (Z.of_nat k + 1) = [nth k l d].
Proof.
  intro Hk. unfold slice. rewrite Nat2Z.id.
  replace (Z.to_nat (Z.of_nat k + 1) - k) with 1 by lia.
  revert k Hk; induction l as [|x l IH]; intros k Hk; [simpl in Hk; lia|].
  destruct k as [|k]; [reflexivity|]. cbn [skipn nth]. apply IH. simpl in Hk. lia.
Qed.

Lemma current_verse_window (sura : Sura.t) (currentPosition windowSize : Z) :
  (1 <= currentPosition <= Z.of_nat (length (Sura.ayas sura)))%Z ->
  (1 <= windowSize)%Z ->
  In (makeWindow [nth (Z.to_nat (currentPosition - 1)) (Sura.ayas sura) noAya])
     (windowsAround sura currentPosition windowSize).
Proof.
  intros Hc Hw. rewrite windowsAround_spans.
  apply in_map_iff. exists (currentPosition, currentPosition). cbn [fst snd]. split.
  - f_equal.
    replace (currentPosition - 1)%Z with (Z.of_nat (Z.to_nat (currentPosition - 1))) at 1
      by lia.
    replace currentPosition with (Z.of_nat (Z.to_nat (currentPosition - 1)) + 1)%Z at 2
      by lia.
    apply slice_single. lia.
  - apply In_specWindowSpans. lia.
Qed.

(** X8.  In an active session whose windows have just been built around a
    position inside the sura, with a window size of at least 1 and a
    threshold of at most 1, reciting the expected verse word for word is
    always accepted: [processAudioChunk] on the verse's own text returns a
    match and leaves [consecutiveFailures] at 0. *)
Theorem reciting_expected_verse_matches (session : RecitationSession) (sura : Sura.t) :
  isActive session = true ->
  (confidenceThreshold session <= 1)%Q ->
  (1 <= currentPosition session <= Z.of_nat (length (Sura.ayas sura)))%Z ->
  (1 <= windowSize session)%Z ->
  slidingWindows session
  = windowsAround sura (currentPosition session) (windowSize session) ->
  let verse := nth (Z.to_nat (currentPosition session - 1)) (Sura.ayas sura) noAya in
  tokenize (normalizeArabicText (Aya.text verse)) <> [] ->
  exists bestMatch session',
    processAudioChunk (Some session) (Aya.text verse) = (Some bestMatch, Some session') /\
    consecutiveFailures session' = 0%Z /\
    (0.9 <= combinedScore bestMatch)%Q.
Proof.
  intros Ha Ht Hc Hw Hwin verse Hne.
  pose proof (current_verse_window sura _ _ Hc Hw) as Hin. fold verse in Hin.
  rewrite <- Hwin in Hin. apply In_nth_error in Hin as (i & Hi).
  assert (Hwords : AyahWindow.words (makeWindow [verse])
                   = tokenize (normalizeArabicText (Aya.text verse))) by reflexivity.
  set (ws := tokenize (normalizeArabicText (Aya.text verse))) in *.
  assert (Hw' : forall w, In w ws -> w <> [])
    by (intro w; apply tokenize_words_nonempty).
  destruct (exact_words_confidence ws _ Hne Hw' Hwords) as (Hcf & Hacc & Hal).
  set (exact := toMatchResult (scoreWindow ws (makeWindow [verse])) (Z.of_nat i)
                  (makeWindow [verse])).
  assert (Hacc' : In exact (acceptedWindows session (Aya.text verse))).
  { unfold acceptedWindows. fold ws. apply In_scoreWindows.
    exists i, (makeWindow [verse]). split; [exact Hi|].
    split; [rewrite Hcf; exact Ht | reflexivity]. }
  rewrite processAudioChunk_scored by assumption.
  destruct (Array_sort compareScores (acceptedWindows session (Aya.text verse)))
    as [|best rest] eqn:Hsort.
  - apply Array_sort_nil in Hsort. rewrite Hsort in Hacc'. destruct Hacc'.
  - rewrite compareScores_byKey in Hsort. apply Array_sort_head in Hsort.
    pose proof (firstLargest_greatest _ _ _ _ Hsort Hacc') as Hge.
    exists best, (recordMatch session best).
    split; [reflexivity|]. split.
    + unfold recordMatch. now rewrite buildSlidingWindows_failures.
    + assert (He : (0.9 <= combinedScore exact)%Q).
      { unfold combinedScore, exact, toMatchResult.
        cbn [MatchResult.confidence MatchResult.accuracy MatchResult.alignmentScore].
        rewrite Hcf, Hacc. lra. }
      lra.
Qed.

Lemma range_length (lo hi : Z) : length (range lo hi) = Z.to_nat (hi - lo).
Proof. unfold range. now rewrite length_map, length_seq. Qed.

Lemma flat_map_length_le {X Y : Type} (f : X -> list Y) (l : list X) (k : nat) :
  (forall x, In x l -> length (f x) <= k) ->
  length (flat_map f l) <= length l * k.
Proof.
  induction l as [|x l IH]; intro H; [reflexivity|].
  cbn [flat_map length]. rewrite length_app.
  pose proof (H x (in_eq _ _)).
  assert (length (flat_map f l) <= length l * k) by (apply IH; intros; apply H; now right).
  lia.
Qed.

Lemma specWindowSpans_length (verses currentPosition windowSize : Z) :
  (Z.of_nat (length (specWindowSpans verses currentPosition windowSize))
   <= (2 * Z.max 5 (windowSize * 2) + 1) * Z.max 0 windowSize)%Z /\
  (Z.of_nat (length (specWindowSpans verses currentPosition windowSize))
   <= Z.max 0 verses * Z.max 0 windowSize)%Z.
Proof.
  unfold specWindowSpans.
  set (r := Z.max 5 (windowSize * 2)).
  set (starts := range (Z.max 1 (currentPosition - r))
                       (Z.min verses (currentPosition + r) + 1)).
  assert (Hlen : length (flat_map
                   (fun s => map (pair s) (range s (Z.min verses (s + windowSize - 1) + 1)))
                   starts)
                 <= length starts * Z.to_nat (Z.max 0 windowSize)).
  { apply flat_map_length_le. intros s _. rewrite length_map, range_length. lia. }
  assert (Hs : length starts = Z.to_nat (Z.min verses (currentPosition + r) + 1
                                         - Z.max 1 (currentPosition - r)))
    by (unfold starts; apply range_length).
  split.
  - assert (H1 : (Z.of_nat (length starts) <= 2 * r + 1)%Z) by (unfold r in *; lia).
    assert (H2 : (Z.of_nat (length starts * Z.to_nat (Z.max 0 windowSize))
                  = Z.of_nat (length starts) * Z.max 0 windowSize)%Z)
      by (rewrite Nat2Z.inj_mul; f_equal; lia).
    apply Z.le_trans with (Z.of_nat (length starts) * Z.max 0 windowSize)%Z; [lia|].
    apply Z.mul_le_mono_nonneg_r; lia.
  - assert (H1 : (Z.of_nat (length starts) <= Z.max 0 verses)%Z) by lia.
    assert (H2 : (Z.of_nat (length starts * Z.to_nat (Z.max 0 windowSize))
                  = Z.of_nat (length starts) * Z.max 0 windowSize)%Z)
      by (rewrite Nat2Z.inj_mul; f_equal; lia).
    apply Z.le_trans with (Z.of_nat (length starts) * Z.max 0 windowSize)%Z; [lia|].
    apply Z.mul_le_mono_nonneg_r; lia.
Qed.

(** X9.  [buildSlidingWindows] builds at most
    [(2 max(5, 2 windowSize) + 1) windowSize] windows, and at most
    [windowSize] per verse of the sura; with a window size of 0 or less it
    builds none. *)
Theorem window_count_bounded (session : RecitationSession) (sura : Sura.t) :
  findSura (suraIndex session) = Some sura ->
  let built := slidingWindows (buildSlidingWindows session) in
  let size := windowSize session in
  (Z.of_nat (length built) <= (2 * Z.max 5 (size * 2) + 1) * Z.max 0 size)%Z /\
  (Z.of_nat (length built) <= Z.of_nat (length (Sura.ayas sura)) * Z.max 0 size)%Z /\
  ((size <= 0)%Z -> built = []).
Proof.
  intros Hf built size. subst built size.
  rewrite (buildSlidingWindows_found _ sura) by exact Hf.
  cbn [setSlidingWindows slidingWindows]. rewrite windowsAround_spans, length_map.
  destruct (specWindowSpans_length (Z.of_nat (length (Sura.ayas sura)))
              (currentPosition session) (windowSize session)) as [H1 H2].
  split; [exact H1|]. split; [lia|].
  intro H0.
  destruct (specWindowSpans _ _ _) eqn:Hs; [reflexivity|].
  simpl in H1. lia.
Qed.

(** ** What the methods keep true of the session *)

Lemma windowsAround_from_sura (sura : Sura.t) (currentPosition windowSize : Z) :
  Forall (windowFromSura sura) (windowsAround sura currentPosition windowSize).
Proof.
  apply Forall_forall. intros w Hw. rewrite windowsAround_spans in Hw.
  apply in_map_iff in Hw as ([a b] & Hw & Hin). cbn [fst snd] in Hw.
  apply In_specWindowSpans in Hin. exists a, b. repeat split; (lia || now symmetry).
Qed.

(** A candidate of the scoring loop comes from one of the windows and has
    its scores in range. *)
Lemma accepted_candidate (session : RecitationSession) (transcribedText : jsString)
  (sura : Sura.t) (m : MatchResult.t) :
  tokenize (normalizeArabicText transcribedText) <> [] ->
  (0.5 <= confidenceThreshold session)%Q ->
  Forall (windowFromSura sura) (slidingWindows session) ->
  In m (acceptedWindows session transcribedText) ->
  matchInRange m /\ matchFromSura sura m.
Proof.
  intros Hne Ht Hw Hin. unfold acceptedWindows in Hin.
  apply In_scoreWindows in Hin as (k & window & Hn & Hc & ->).
  pose proof (scoreWindow_in_range _ window Hne) as (H1 & H2 & H3 & H4 & H5).
  split.
  - unfold matchInRange, toMatchResult.
    cbn [MatchResult.confidence MatchResult.accuracy MatchResult.alignmentScore
         MatchResult.matchedWords MatchResult.totalWords MatchResult.windowIndex].
    split; [lra|]. split; [exact H2|]. split; [exact H3|]. split; [exact H5 | lia].
  - exists window. split; [|split; reflexivity].
    rewrite Forall_forall in Hw. apply Hw. now apply nth_error_In in Hn.
Qed.

Lemma invariant_initialize (st : option RecitationSession)
  (suraIndex0 startingAyah windowSize0 : Z) (s : RecitationSession) :
  snd (initializeSession st suraIndex0 startingAyah windowSize0) = Some s ->
  (match st with Some s0 => sessionInvariant s0 | None => True end) ->
  sessionInvariant s.
Proof.
  unfold initializeSession. destruct (findSura suraIndex0) as [sura|] eqn:Hf.
  - cbn [snd]. intros H _. injection H as <-.
    rewrite (buildSlidingWindows_found _ sura) by exact Hf.
    unfold sessionInvariant, setSlidingWindows. cbn.
    split; [reflexivity|]. split; [lia|]. split; [lra|]. split; [reflexivity|].
    split; [constructor|]. exists sura. split; [exact Hf|].
    split; [apply windowsAround_from_sura | constructor].
  - cbn [snd]. intros -> H. exact H.
Qed.

Lemma invariant_rebuild (s : RecitationSession) (sura : Sura.t)
  (position size failures : Z) (threshold : Q)
  (history : list MatchResult.t) (lastMatch : option MatchResult.t) :
  findSura (suraIndex s) = Some sura ->
  (0 <= failures)%Z -> (0.5 <= threshold <= 0.7)%Q ->
  lastMatch = hd_error (rev history) ->
  Forall matchInRange history -> Forall (matchFromSura sura) history ->
  sessionInvariant
    (buildSlidingWindows
       {| suraIndex := suraIndex s;
          currentPosition := position;
          windowSize := size;
          confidenceThreshold := threshold;
          slidingWindows := slidingWindows s;
          sessionHistory := history;
          lastSuccessfulMatch := lastMatch;
          consecutiveFailures := failures;
          isActive := true |}).
Proof.
  intros Hf H0 Ht Hl Hr Hs.
  rewrite (buildSlidingWindows_found _ sura) by exact Hf.
  unfold sessionInvariant, setSlidingWindows. cbn.
  split; [reflexivity|]. split; [exact H0|]. split; [exact Ht|]. split; [exact Hl|].
  split; [exact Hr|]. exists sura. split; [exact Hf|].
  split; [apply windowsAround_from_sura | exact Hs].
Qed.

Lemma invariant_process (s s' : RecitationSession) (transcribedText : jsString) :
  sessionInvariant s ->
  snd (processAudioChunk (Some s) transcribedText) = Some s' ->
  sessionInvariant s'.
Proof.
  intros Hinv. pose proof Hinv as (Ha & H0 & Ht & Hl & Hr & sura & Hf & Hw & Hs).
  unfold processAudioChunk. rewrite Ha. cbn [negb].
  destruct (length (tokenize (normalizeArabicText transcribedText)) =? 0) eqn:Hlen.
  - cbn [snd]. now intros [= <-].
  - apply Nat.eqb_neq in Hlen.
    assert (Hne : tokenize (normalizeArabicText transcribedText) <> [])
      by (intro He; rewrite He in Hlen; now apply Hlen).
    fold (acceptedWindows s transcribedText).
    destruct (Array_sort compareScores (acceptedWindows s transcribedText))
      as [|best rest] eqn:Hsort; cbn [snd]; intros [= <-].
    + unfold recordFailure. cbn [consecutiveFailures].
      destruct (3 <=? consecutiveFailures s + 1)%Z.
      * unfold handleConsecutiveFailures. rewrite Ha. cbn [lastSuccessfulMatch sessionHistory
          suraIndex slidingWindows consecutiveFailures windowSize confidenceThreshold
          isActive].
        apply (invariant_rebuild s sura); try assumption; [lia|].
        now apply Qmax_half_bounds.
      * unfold sessionInvariant. cbn.
        split; [exact Ha|]. split; [lia|]. split; [exact Ht|]. split; [exact Hl|].
        split; [exact Hr|]. now exists sura.
    + assert (Hin : In best (acceptedWindows s transcribedText)).
      { apply (Permutation_in best (Permutation_sym (Array_sort_perm compareScores _))).
        rewrite Hsort. apply in_eq. }
      destruct (accepted_candidate s transcribedText sura best Hne (proj1 Ht) Hw Hin)
        as [Hb1 Hb2].
      unfold recordMatch. rewrite Ha.
      apply (invariant_rebuild s sura); try assumption; [lia | | |].
      * now rewrite rev_app_distr.
      * apply Forall_app. split; [exact Hr | now constructor].
      * apply Forall_app. split; [exact Hs | now constructor].
Qed.

Lemma invariant_jump (s s' : RecitationSession) (ayahNumber : Z) :
  sessionInvariant s -> jumpToPosition (Some s) ayahNumber = Some s' ->
  sessionInvariant s'.
Proof.
  intros (Ha & H0 & Ht & Hl & Hr & sura & Hf & Hw & Hs). cbn [jumpToPosition].
  intros [= <-]. rewrite Ha. apply (invariant_rebuild s sura); try assumption; [lia | lra].
Qed.

Lemma invariant_reset (s s' : RecitationSession) :
  sessionInvariant s -> resetSession (Some s) = Some s' -> sessionInvariant s'.
Proof.
  intros (Ha & H0 & Ht & Hl & Hr & sura & Hf & Hw & Hs). cbn [resetSession].
  intros [= <-]. unfold sessionInvariant. cbn.
  split; [exact Ha|]. split; [lia|]. split; [lra|]. split; [exact Hl|].
  split; [exact Hr|]. now exists sura.
Qed.

Lemma reachable_invariant (st : option RecitationSession) :
  reachable st -> forall s, st = Some s -> sessionInvariant s.
Proof.
  induction 1 as [|st st' Hr IH Hstep]; intros s' Hs'; [discriminate|].
  inversion Hstep as [st0 i a w H0 H1|st0 t H0 H1|st0 n H0 H1|st0 H0 H1];
    subst st0; rewrite Hs' in H1.
  - apply (invariant_initialize st i a w s' H1).
    destruct st as [s|]; [now apply IH | exact I].
  - destruct st as [s|]; [|discriminate].
    exact (invariant_process s s' t (IH s eq_refl) H1).
  - destruct st as [s|]; [|discriminate].
    exact (invariant_jump s s' n (IH s eq_refl) H1).
  - destruct st as [s|]; [|discriminate].
    exact (invariant_reset s s' (IH s eq_refl) H1).
Qed.

(** X10.  A session that the methods have produced is active (the class
    never clears [isActive]), its failure count is not negative, its sura is
    in the corpus (so [buildSlidingWindows] never returns early), and each
    of its windows was built from the verses [a] to [b] of that sura for some
    [1 <= a <= b <= number of verses]. *)
Theorem session_stays_well_formed (st : option RecitationSession) (s : RecitationSession) :
  reachable st -> st = Some s ->
  isActive s = true /\
  (0 <= consecutiveFailures s)%Z /\
  exists sura,
    findSura (suraIndex s) = Some sura /\
    forall w, In w (slidingWindows s) ->
      exists a b,
        (1 <= a <= b)%Z /\ (b <= Z.of_nat (length (Sura.ayas sura)))%Z /\
        w = makeWindow (slice (Sura.ayas sura) (a - 1) b).
Proof.
  intros Hr Hs.
  destruct (reachable_invariant st Hr s Hs) as (Ha & H0 & _ & _ & _ & sura & Hf & Hw & _).
  split; [exact Ha|]. split; [exact H0|]. exists sura. split; [exact Hf|].
  intros w Hin. rewrite Forall_forall in Hw. exact (Hw w Hin).
Qed.

Lemma hd_error_rev_None {X : Type} (l : list X) : hd_error (rev l) = None <-> l = [].
Proof.
  split; [|now intros ->]. intro H.
  destruct (rev l) as [|x r] eqn:Hr; [|discriminate].
  rewrite <- (rev_involutive l), Hr. reflexivity.
Qed.

(** X11.  In a session that the methods have produced,
    [lastSuccessfulMatch] is the last entry of [sessionHistory] (and is
    absent exactly when the history is empty), and every recorded match has a
    confidence between 0.5 and 1, an accuracy and an alignment score between
    0 and 1, [matchedWords] between 0 and [totalWords], and a window index
    that is not negative. *)
Theorem history_is_consistent (st : option RecitationSession) (s : RecitationSession) :
  reachable st -> st = Some s ->
  lastSuccessfulMatch s = hd_error (rev (sessionHistory s)) /\
  (lastSuccessfulMatch s = None <-> sessionHistory s = []) /\
  forall m, In m (sessionHistory s) ->
    (0.5 <= MatchResult.confidence m <= 1)%Q /\
    (0 <= MatchResult.accuracy m <= 1)%Q /\
    (0 <= MatchResult.alignmentScore m <= 1)%Q /\
    (0 <= MatchResult.matchedWords m <= MatchResult.totalWords m)%Z /\
    (0 <= MatchResult.windowIndex m)%Z.
Proof.
  intros Hr Hs.
  destruct (reachable_invariant st Hr s Hs) as (_ & _ & _ & Hl & Hh & _).
  split; [exact Hl|]. split; [rewrite Hl; apply hd_error_rev_None|].
  intros m Hin. rewrite Forall_forall in Hh. exact (Hh m Hin).
Qed.

(** The sum that [getSessionStats] divides, for confidences in a range. *)
Lemma confidence_sum_range (lo hi : Q) (history : list MatchResult.t) (sum0 : Q) :
  Forall (fun m => (lo <= MatchResult.confidence m <= hi)%Q) history ->
  (sum0 + lo * Qnat (length history)
   <= fold_left (fun sum m => (sum + MatchResult.confidence m)%Q) history sum0
   <= sum0 + hi * Qnat (length history))%Q.
Proof.
  intro H. revert sum0. induction H as [|m history Hm Hh IH]; intro sum0.
  - cbn [fold_left length]. change (Qnat 0) with 0%Q. lra.
  - cbn [fold_left length]. specialize (IH (sum0 + MatchResult.confidence m)%Q).
    rewrite (Qnat_S (length history)). lra.
Qed.

(** X12.  [getSessionStats] returns [null] without a session.  For a session
    that the methods have produced it reports the number of recorded matches;
    the average confidence is 0 when there is none and lies between 0.5 and
    1 otherwise; the threshold reported lies between 0.5 and 0.7 and the
    failure count is not negative. *)
Theorem getSessionStats_ranges :
  getSessionStats None = None /\
  forall st s,
    reachable st -> st = Some s ->
    exists stats,
      getSessionStats st = Some stats /\
      SessionStats.totalMatches stats = length (sessionHistory s) /\
      (sessionHistory s = [] -> SessionStats.averageConfidence stats = 0%Q) /\
      (sessionHistory s <> [] ->
       (0.5 <= SessionStats.averageConfidence stats <= 1)%Q) /\
      (0.5 <= SessionStats.confidenceThreshold stats <= 0.7)%Q /\
      (0 <= SessionStats.consecutiveFailures stats)%Z.
Proof.
  split; [reflexivity|]. intros st s Hr ->.
  destruct (reachable_invariant _ Hr s eq_refl) as (_ & H0 & Ht & _ & Hh & _).
  eexists. split; [reflexivity|].
  cbn [SessionStats.totalMatches SessionStats.averageConfidence
       SessionStats.confidenceThreshold SessionStats.consecutiveFailures].
  split; [reflexivity|]. split; [now intros ->|]. split; [|split; [exact Ht | exact H0]].
  intro Hne.
  assert (Hpos : 0 < length (sessionHistory s))
    by (destruct (sessionHistory s); [contradiction | simpl; lia]).
  rewrite (proj2 (Nat.ltb_lt _ _) Hpos).
  pose proof (Qnat_pos _ Hpos) as Hq.
  assert (Hc : Forall (fun m => (0.5 <= MatchResult.confidence m <= 1)%Q)
                 (sessionHistory s)).
  { eapply Forall_impl; [|exact Hh]. intros m Hm. apply Hm. }
  pose proof (confidence_sum_range 0.5 1 (sessionHistory s) 0 Hc) as [H1 H2].
  split; [apply Qle_shift_div_l | apply Qle_shift_div_r]; (exact Hq || lra).
Qed.

Lemma processAudioChunk_match (s s' : RecitationSession) (transcribedText : jsString)
  (m : MatchResult.t) :
  processAudioChunk (Some s) transcribedText = (Some m, Some s') ->
  s' = recordMatch s m.
Proof.
  unfold processAudioChunk. destruct (negb (isActive s)); [discriminate|].
  destruct (length _ =? 0); [discriminate|].
  destruct (Array_sort _ _); [discriminate|]. now intros [= <- <-].
Qed.

Lemma matchFromSura_span (sura : Sura.t) (m : MatchResult.t) :
  contiguousAyas sura -> matchFromSura sura m ->
  (1 <= MatchResult.startAyah m <= MatchResult.endAyah m)%Z /\
  (MatchResult.endAyah m <= Z.of_nat (length (Sura.ayas sura)))%Z.
Proof.
  intros Hc (w & (a & b & Hab & Hb & ->) & Hs & He).
  destruct (makeWindow_span sura a b Hc Hab Hb) as [H1 H2].
  rewrite Hs, He, H1, H2. lia.
Qed.

(** X13.  On a sura whose verses are numbered 1, 2, ... in order, every
    match recorded in a session that the methods have produced spans verses
    of the sura: [1 <= startAyah <= endAyah <= number of verses].  So a call
    of [processAudioChunk] that returns a match leaves [currentPosition]
    between 2 and one past the last verse. *)
Theorem matches_stay_in_sura
  (st : option RecitationSession) (s : RecitationSession) (sura : Sura.t) :
  reachable st -> st = Some s ->
  findSura (suraIndex s) = Some sura -> contiguousAyas sura ->
  (forall m, In m (sessionHistory s) ->
     (1 <= MatchResult.startAyah m <= MatchResult.endAyah m)%Z /\
     (MatchResult.endAyah m <= Z.of_nat (length (Sura.ayas sura)))%Z) /\
  (forall transcribedText m s',
     processAudioChunk st transcribedText = (Some m, Some s') ->
     (1 <= MatchResult.startAyah m <= MatchResult.endAyah m)%Z /\
     (MatchResult.endAyah m <= Z.of_nat (length (Sura.ayas sura)))%Z /\
     currentPosition s' = (MatchResult.endAyah m + 1)%Z /\
     (2 <= currentPosition s' <= Z.of_nat (length (Sura.ayas sura)) + 1)%Z).
Proof.
  intros Hr -> Hf Hc.
  assert (Hall : forall st0 s0, reachable st0 -> st0 = Some s0 ->
            suraIndex s0 = suraIndex s ->
            forall m, In m (sessionHistory s0) ->
              (1 <= MatchResult.startAyah m <= MatchResult.endAyah m)%Z /\
              (MatchResult.endAyah m <= Z.of_nat (length (Sura.ayas sura)))%Z).
  { intros st0 s0 Hr0 Hs0 Hi m Hin.
    destruct (reachable_invariant st0 Hr0 s0 Hs0)
      as (_ & _ & _ & _ & _ & sura0 & Hf0 & _ & Hm).
    rewrite Hi, Hf in Hf0. injection Hf0 as <-.
    rewrite Forall_forall in Hm. exact (matchFromSura_span sura m Hc (Hm m Hin)). }
  split; [exact (Hall (Some s) s Hr eq_refl eq_refl)|].
  intros transcribedText m s' Hp.
  pose proof (processAudioChunk_match s s' transcribedText m Hp) as Hs'.
  assert (Hr' : reachable (Some s')).
  { apply (reachable_step (Some s) (Some s') Hr).
    replace (Some s') with (snd (processAudioChunk (Some s) transcribedText))
      by (now rewrite Hp).
    apply step_process. }
  assert (Hi : suraIndex s' = suraIndex s)
    by (rewrite Hs'; unfold recordMatch; now rewrite buildSlidingWindows_suraIndex).
  assert (Hin : In m (sessionHistory s')).
  { rewrite Hs'. unfold recordMatch, buildSlidingWindows. cbn [suraIndex].
    destruct (findSura _); cbn; apply in_or_app; right; apply in_eq. }
  destruct (Hall (Some s') s' Hr' eq_refl Hi m Hin) as [H1 H2].
  assert (Hpos : currentPosition s' = (MatchResult.endAyah m + 1)%Z).
  { rewrite Hs'. unfold recordMatch, buildSlidingWindows. cbn [suraIndex].
    now destruct (findSura _). }
  split; [exact H1|]. split; [exact H2|]. split; [exact Hpos | lia].
Qed.

(** ** What normalization and tokenization ignore *)

Lemma splitFrom_pieces (b : bool) (s : jsString) :
  concat (splitFrom b s) = filter (fun c => negb (isWhiteSpace c)) s /\
  Forall (Forall (fun c => isWhiteSpace c = false)) (splitFrom b s).
Proof.
  revert b; induction s as [|c s IH]; intro b.
  - split; [reflexivity | repeat constructor].
  - cbn [splitFrom filter]. destruct (isWhiteSpace c) eqn:Hc; cbn [negb].
    + destruct b; [apply IH|]. destruct (IH true) as [H1 H2].
      split; [exact H1 | now constructor].
    + destruct (IH false) as [H1 H2]. pose proof (splitFrom_not_nil false s) as Hn.
      destruct (splitFrom false s) as [|w ws]; [contradiction|].
      cbn [concat app] in *. rewrite <- H1. split; [reflexivity|].
      inversion H2; subst. constructor; [now constructor | assumption].
Qed.

Lemma concat_filter_nonempty (l : list jsString) :
  concat (filter (fun w => 0 <? length w) l) = concat l.
Proof.
  induction l as [|w l IH]; [reflexivity|].
  cbn [filter]. destruct w as [|c w].
  - cbn [length]. change (0 <? 0) with false. exact IH.
  - cbn [length]. change (0 <? S (length w)) with true. cbn [concat]. now rewrite IH.
Qed.

(** X14.  Splitting into words loses nothing but white space: the words of
    a string, put together, are its code units that are not white space, in
    order; no word is empty and no word contains white space; and there is no
    word exactly when the string is white space only. *)
Theorem tokenize_keeps_all_but_white_space (s : jsString) :
  concat (tokenize s) = filter (fun c => negb (isWhiteSpace c)) s /\
  (forall w, In w (tokenize s) ->
     w <> [] /\ Forall (fun c => isWhiteSpace c = false) w) /\
  (tokenize s = [] <-> Forall (fun c => isWhiteSpace c = true) s).
Proof.
  unfold tokenize, splitWhiteSpace. destruct (splitFrom_pieces false s) as [H1 H2].
  split; [now rewrite concat_filter_nonempty|]. split.
  - intros w Hw. apply filter_In in Hw as [Hin Hlen]. split.
    + destruct w; [discriminate | discriminate].
    + rewrite Forall_forall in H2. exact (H2 w Hin).
  - apply tokens_nil_from.
Qed.

Lemma normalize_of_rewritten (x1 x2 y1 y2 : jsString) :
  rewriteAll x1 = rewriteAll y1 -> rewriteAll x2 = rewriteAll y2 ->
  normalizeArabicText (x1 ++ x2) = normalizeArabicText (y1 ++ y2).
Proof.
  intros H1 H2. unfold normalizeArabicText. rewrite !foldArabic_steps.
  now rewrite !rewriteAll_app, H1, H2.
Qed.

Lemma rewriteAll_cons (c : codeUnit) (x : jsString) :
  rewriteAll (c :: x) = rewriteAll [c] ++ rewriteAll x.
Proof. change (c :: x) with ([c] ++ x). apply rewriteAll_app. Qed.

Lemma normalize_unit (x1 x2 : jsString) (c : codeUnit) (r : jsString) :
  rewriteAll [c] = rewriteAll r ->
  normalizeArabicText (x1 ++ c :: x2) = normalizeArabicText (x1 ++ r ++ x2).
Proof.
  intro H. apply normalize_of_rewritten; [reflexivity|].
  now rewrite rewriteAll_cons, rewriteAll_app, H.
Qed.

(** X15.  Normalization does not see the differences of spelling that it
    folds: a diacritic (U+064B to U+0652) anywhere in the text can be left
    out, and an alif with hamza or madda, a ta marbuta, a ya or a Farsi kaf
    can be replaced by the bare alif, the ha, the alif maksura or the Arabic
    kaf, without changing the normalized text. *)
Theorem normalize_folds_spelling (x1 x2 : jsString) (c : codeUnit) :
  (isDiacritic c = true ->
   normalizeArabicText (x1 ++ c :: x2) = normalizeArabicText (x1 ++ x2)) /\
  (isAlifVariant c = true ->
   normalizeArabicText (x1 ++ c :: x2) = normalizeArabicText (x1 ++ ALIF :: x2)) /\
  (isTaMarbuta c = true ->
   normalizeArabicText (x1 ++ c :: x2) = normalizeArabicText (x1 ++ HA :: x2)) /\
  (isYa c = true ->
   normalizeArabicText (x1 ++ c :: x2) = normalizeArabicText (x1 ++ ALIF_MAKSURA :: x2)) /\
  (isFarsiKaf c = true ->
   normalizeArabicText (x1 ++ c :: x2) = normalizeArabicText (x1 ++ KAF :: x2)).
Proof.
  split; [|split; [|split; [|split]]]; intro H.
  - apply (normalize_unit x1 x2 c []).
    unfold rewriteAll, replaceAll. cbn [flat_map app]. now rewrite H.
  - apply (normalize_unit x1 x2 c [ALIF]).
    unfold isAlifVariant in H. repeat (apply orb_true_iff in H as [H|H]);
      apply N.eqb_eq in H; subst c; reflexivity.
  - apply (normalize_unit x1 x2 c [HA]).
    unfold isTaMarbuta in H. apply N.eqb_eq in H. subst c. reflexivity.
  - apply (normalize_unit x1 x2 c [ALIF_MAKSURA]).
    unfold isYa in H. apply N.eqb_eq in H. subst c. reflexivity.
  - apply (normalize_unit x1 x2 c [KAF]).
    unfold isFarsiKaf in H. apply N.eqb_eq in H. subst c. reflexivity.
Qed.

(** *** White space *)

Lemma whiteSpace_not_rewritten (c : codeUnit) :
  isWhiteSpace c = true -> rewriteAll [c] = [c].
Proof.
  intro H. apply rewriteAll_unchanged. constructor; [|constructor].
  destruct (isRewritten c) eqn:Hr; [|reflexivity]. exfalso.
  unfold isRewritten, isDiacritic, isAlifVariant, isTaMarbuta, isYa, isFarsiKaf in Hr.
  unfold isWhiteSpace in H.
  repeat match type of Hr with
         | (_ || _)%bool = true => apply orb_true_iff in Hr as [Hr|Hr]
         end;
    repeat match type of Hr with
           | (_ && _)%bool = true => apply andb_true_iff in Hr as [Hr ?]
           end;
    repeat match goal with
           | Hx : (_ <=? _)%N = true |- _ => apply N.leb_le in Hx
           | Hx : (_ =? _)%N = true |- _ => apply N.eqb_eq in Hx
           end;
    repeat match goal with
           | |- _ => progress subst
           end;
    try discriminate;
    repeat match type of H with
           | context [(?a =? ?b)%N] =>
               destruct (N.eqb_spec a b); [exfalso; lia|]
           | context [(?a <=? ?b)%N] =>
               destruct (N.leb_spec a b); try (exfalso; lia)
           end;
    try discriminate.
Qed.

Lemma collapseFrom_kind (b : bool) (y1 y2 : jsString) (c : codeUnit) :
  isWhiteSpace c = true ->
  collapseFrom b (y1 ++ c :: y2) = collapseFrom b (y1 ++ SPACE :: y2).
Proof.
  intro Hc. revert b; induction y1 as [|d y1 IH]; intro b.
  - cbn [app collapseFrom]. rewrite Hc. change (isWhiteSpace SPACE) with true. reflexivity.
  - cbn [app collapseFrom]. destruct (isWhiteSpace d); [destruct b|]; now rewrite IH.
Qed.

Lemma collapseFrom_twice (b : bool) (y1 y2 : jsString) (c c' : codeUnit) :
  isWhiteSpace c = true -> isWhiteSpace c' = true ->
  collapseFrom b (y1 ++ c :: c' :: y2) = collapseFrom b (y1 ++ c :: y2).
Proof.
  intros Hc Hc'. revert b; induction y1 as [|d y1 IH]; intro b.
  - cbn [app collapseFrom]. rewrite Hc, Hc'. reflexivity.
  - cbn [app collapseFrom]. destruct (isWhiteSpace d); [destruct b|]; now rewrite IH.
Qed.

Lemma trimEnd_snoc (z : jsString) (c : codeUnit) :
  isWhiteSpace c = true -> trimEnd (z ++ [c]) = trimEnd z.
Proof.
  intro Hc. induction z as [|d z IH]; cbn [app trimEnd]; [now rewrite Hc|].
  now rewrite IH.
Qed.

Lemma trimStart_snoc (z : jsString) (c : codeUnit) :
  isWhiteSpace c = true ->
  trimStart (z ++ [c]) = [] /\ trimStart z = [] \/
  trimStart (z ++ [c]) = trimStart z ++ [c].
Proof.
  intro Hc. induction z as [|d z IH]; cbn [app trimStart].
  - rewrite Hc. now left.
  - destruct (isWhiteSpace d); [exact IH | now right].
Qed.

Lemma trim_snoc (z : jsString) (c : codeUnit) :
  isWhiteSpace c = true -> trim (z ++ [c]) = trim z.
Proof.
  intro Hc. unfold trim.
  destruct (trimStart_snoc z c Hc) as [[H1 H2]|H]; [now rewrite H1, H2|].
  rewrite H. now apply trimEnd_snoc.
Qed.

Lemma collapseFrom_snoc (b : bool) (y : jsString) (c : codeUnit) :
  isWhiteSpace c = true ->
  collapseFrom b (y ++ [c]) = collapseFrom b y \/
  collapseFrom b (y ++ [c]) = collapseFrom b y ++ [SPACE].
Proof.
  intro Hc. revert b; induction y as [|d y IH]; intro b.
  - cbn [app collapseFrom]. rewrite Hc. destruct b; [now left | now right].
  - cbn [app collapseFrom]. destruct (isWhiteSpace d); [destruct b|].
    + apply IH.
    + destruct (IH true) as [H|H]; rewrite H; [now left | now right].
    + destruct (IH false) as [H|H]; rewrite H; [now left | now right].
Qed.

(** X16.  Normalization sees white space only as a separator of words:
    which white space character separates two words does not matter, a
    second white space character after a first changes nothing, and white
    space at the start or at the end of the text changes nothing. *)
Theorem normalize_ignores_white_space (x1 x2 : jsString) (c c' : codeUnit) :
  isWhiteSpace c = true -> isWhiteSpace c' = true ->
  normalizeArabicText (x1 ++ c :: x2) = normalizeArabicText (x1 ++ SPACE :: x2) /\
  normalizeArabicText (x1 ++ c :: c' :: x2) = normalizeArabicText (x1 ++ c :: x2) /\
  normalizeArabicText (c :: x2) = normalizeArabicText x2 /\
  normalizeArabicText (x1 ++ [c]) = normalizeArabicText x1.
Proof.
  intros Hc Hc'.
  pose proof (whiteSpace_not_rewritten c Hc) as Hr.
  pose proof (whiteSpace_not_rewritten c' Hc') as Hr'.
  assert (Hsp : rewriteAll [SPACE] = [SPACE]) by reflexivity.
  unfold normalizeArabicText. rewrite !foldArabic_steps.
  split; [|split; [|split]]; f_equal.
  - rewrite !rewriteAll_app, !(rewriteAll_cons _ x2), Hr, Hsp. cbn [app].
    unfold collapseWhiteSpace. now rewrite (collapseFrom_kind _ _ _ c Hc).
  - rewrite !rewriteAll_app, (rewriteAll_cons c (c' :: x2)), (rewriteAll_cons c' x2),
      (rewriteAll_cons c x2), Hr, Hr'. cbn [app].
    unfold collapseWhiteSpace. now rewrite collapseFrom_twice.
  - rewrite rewriteAll_cons, Hr. cbn [app]. unfold trim, collapseWhiteSpace.
    rewrite !trimStart_collapseFrom. cbn [collapseFrom]. now rewrite Hc.
  - rewrite rewriteAll_app, Hr. unfold collapseWhiteSpace.
    destruct (collapseFrom_snoc false (rewriteAll x1) c Hc) as [H|H]; rewrite H;
      [reflexivity|].
    now apply trim_snoc.
Qed.

(** ** The words of a normalized text, joined, are the text *)

Lemma splitFrom_word (w r : jsString) :
  Forall (fun c => isPlain c = true) w ->
  splitFrom false (w ++ r) =
  match splitFrom false r with
  | h :: t => (w ++ h) :: t
  | [] => [w]
  end.
Proof.
  induction 1 as [|c w Hc Hw IH]; cbn [app].
  - pose proof (splitFrom_not_nil false r) as Hn.
    destruct (splitFrom false r); [contradiction | reflexivity].
  - cbn [splitFrom]. apply isPlain_inv in Hc as [_ Hc]. rewrite Hc, IH.
    pose proof (splitFrom_not_nil false r) as Hn.
    destruct (splitFrom false r); [contradiction | reflexivity].
Qed.

Lemma splitFrom_start (s : jsString) :
  startsWithWhiteSpace s = false -> splitFrom true s = splitFrom false s.
Proof.
  destruct s as [|c s]; [reflexivity|]. cbn [startsWithWhiteSpace splitFrom].
  now intros ->.
Qed.

Lemma folded_has_word (s : jsString) : folded s -> s <> [] -> tokenize s <> [].
Proof.
  intros Hf Hne Ht. apply tokenize_nil_iff in Ht. apply folded_head in Hf.
  destruct s as [|c s]; [contradiction|]. inversion Ht; subst. cbn in Hf. congruence.
Qed.

Lemma tokenize_folded_more (w s : jsString) :
  w <> [] -> Forall (fun c => isPlain c = true) w -> folded s ->
  tokenize (w ++ SPACE :: s) = w :: tokenize s.
Proof.
  intros Hne Hp Hf. unfold tokenize, splitWhiteSpace.
  rewrite splitFrom_word by exact Hp. cbn [splitFrom].
  change (isWhiteSpace SPACE) with true. cbv iota.
  rewrite app_nil_r, splitFrom_start by (now apply folded_head).
  cbn [filter]. destruct w; [contradiction | reflexivity].
Qed.

Lemma tokenize_folded_word (w : jsString) :
  w <> [] -> Forall (fun c => isPlain c = true) w -> tokenize w = [w].
Proof.
  intros Hne Hp. unfold tokenize, splitWhiteSpace.
  rewrite <- (app_nil_r w) at 1. rewrite splitFrom_word by exact Hp.
  cbn [splitFrom]. rewrite app_nil_r. cbn [filter].
  destruct w; [contradiction | reflexivity].
Qed.

Lemma join_tokenize_folded (s : jsString) : folded s -> join [SPACE] (tokenize s) = s.
Proof.
  induction 1 as [|w Hne Hp|w s Hne Hp Hs Hf IH]; [reflexivity | |].
  - now rewrite tokenize_folded_word.
  - rewrite tokenize_folded_more by assumption.
    pose proof (folded_has_word s Hf Hs) as Ht.
    destruct (tokenize s) as [|w' ws] eqn:Hts; [contradiction|].
    cbn [join] in *. now rewrite IH.
Qed.

Lemma folded_spaces (s : jsString) :
  folded s ->
  Forall (fun c => isRewritten c = false /\ (isWhiteSpace c = true -> c = SPACE)) s.
Proof.
  assert (Hw : forall w, Forall (fun c => isPlain c = true) w ->
                 Forall (fun c => isRewritten c = false
                                  /\ (isWhiteSpace c = true -> c = SPACE)) w).
  { intros w Hp. eapply Forall_impl; [|exact Hp]. intros c Hc.
    apply isPlain_inv in Hc as [H1 H2]. split; [exact H1 | congruence]. }
  induction 1 as [|w Hne Hp|w s Hne Hp Hs Hf IH]; [constructor | now apply Hw |].
  apply Forall_app. split; [now apply Hw|]. constructor; [|exact IH].
  split; reflexivity.
Qed.

Section NormalizedText.

(** Three of the facts about [toLowerCase] that the idempotence of the
    normalization uses. *)
Hypothesis lower_space :
  forall s1 s2, toLowerCase (s1 ++ SPACE :: s2) = toLowerCase s1 ++ SPACE :: toLowerCase s2.
Hypothesis lower_plain :
  forall s, Forall (fun c => isPlain c = true) s ->
            Forall (fun c => isPlain c = true) (toLowerCase s).
Hypothesis lower_nonempty :
  forall s, toLowerCase s = [] -> s = [].

(** X17.  A normalized text is made of words separated by single spaces: it
    holds no code unit that the normalization rewrites and no white space
    other than the space, and joining its words with spaces gives the text
    back.  So for every window, the joined words that [calculateEditScore]
    compares are the window's normalized text. *)
Theorem normalized_text_round_trip (text : jsString) (windowAyas : list Aya.t) :
  join [SPACE] (tokenize (normalizeArabicText text)) = normalizeArabicText text /\
  Forall (fun c => isRewritten c = false /\ (isWhiteSpace c = true -> c = SPACE))
    (normalizeArabicText text) /\
  join [SPACE] (AyahWindow.words (makeWindow windowAyas))
  = AyahWindow.normalizedText (makeWindow windowAyas).
Proof.
  assert (Hf : forall t, folded (normalizeArabicText t)).
  { intro t. unfold normalizeArabicText.
    apply (toLowerCase_folded lower_space lower_plain lower_nonempty).
    apply foldArabic_folded. }
  split; [apply join_tokenize_folded, Hf|]. split; [apply folded_spaces, Hf|].
  unfold makeWindow. cbn [AyahWindow.words AyahWindow.normalizedText].
  apply join_tokenize_folded, Hf.
Qed.

End NormalizedText.

(** ** The list of recent transcriptions *)

Lemma rememberTranscription_firstn (recent : list jsString) (t : jsString) :
  length recent <= 5 -> rememberTranscription recent t = firstn 5 (t :: recent).
Proof.
  intro H. unfold rememberTranscription. cbv zeta.
  destruct (5 <? length (t :: recent)) eqn:Hlen.
  - apply Nat.ltb_lt in Hlen. rewrite removelast_firstn_len.
    f_equal. simpl in *. lia.
  - apply Nat.ltb_ge in Hlen. symmetry. now apply firstn_all2.
Qed.

Lemma firstn_app_firstn {X : Type} (n : nat) (a b : list X) :
  firstn n (a ++ firstn n b) = firstn n (a ++ b).
Proof.
  rewrite !firstn_app, firstn_firstn. do 2 f_equal. lia.
Qed.

Lemma rememberTranscription_fold (ts recent : list jsString) :
  length recent <= 5 ->
  fold_left rememberTranscription ts recent = firstn 5 (rev ts ++ recent).
Proof.
  revert recent; induction ts as [|t ts IH]; intros recent H.
  - cbn [fold_left rev app]. symmetry. now apply firstn_all2.
  - cbn [fold_left rev]. rewrite IH.
    + rewrite rememberTranscription_firstn by exact H.
      rewrite firstn_app_firstn, <- app_assoc. reflexivity.
    + rewrite rememberTranscription_firstn by exact H.
      rewrite length_firstn. lia.
Qed.

(** X18.  The list of recent transcriptions that [handleTranscription]
    keeps never has more than 5 entries: starting from the empty list of the
    constructor, after any sequence of transcriptions it holds the last five
    of them (fewer if fewer came), the most recent first. *)
Theorem recent_transcriptions_bounded (transcriptions : list jsString) :
  let recent := fold_left rememberTranscription transcriptions [] in
  recent = firstn 5 (rev transcriptions) /\
  length recent <= 5 /\
  length recent = Nat.min 5 (length transcriptions) /\
  (forall t, hd_error (rememberTranscription recent t) = Some t) /\
  (forall t, length (rememberTranscription recent t) <= 5).
Proof.
  intro recent.
  assert (Hr : recent = firstn 5 (rev transcriptions)).
  { unfold recent. rewrite rememberTranscription_fold by (simpl; lia).
    now rewrite app_nil_r. }
  assert (Hl : length recent = Nat.min 5 (length transcriptions))
    by (rewrite Hr, length_firstn, length_rev; reflexivity).
  split; [exact Hr|]. split; [lia|]. split; [exact Hl|]. split; intro t.
  - rewrite rememberTranscription_firstn by lia. reflexivity.
  - rewrite rememberTranscription_firstn by lia. rewrite length_firstn. lia.
Qed.

(** ** The fuzzy word match on the words it is called with

    [arabicWordMatch] is private.  Its callers, [longestCommonSubsequence]
    and [calculateAlignmentScore], pass it a word of the transcription and a
    word of a window at indices inside the two arrays: words of normalized
    texts. *)

Section ReceivedWords.

Hypothesis lower_twice :
  forall s, toLowerCase (toLowerCase s) = toLowerCase s.
Hypothesis lower_space :
  forall s1 s2, toLowerCase (s1 ++ SPACE :: s2) = toLowerCase s1 ++ SPACE :: toLowerCase s2.
Hypothesis lower_plain :
  forall s, Forall (fun c => isPlain c = true) s ->
            Forall (fun c => isPlain c = true) (toLowerCase s).
Hypothesis lower_nonempty :
  forall s, toLowerCase s = [] -> s = [].

(** A word of the lower-cased form of a folded string is the lower-cased
    form of a string of plain code units. *)
Lemma In_tokenize_lowered (s w : jsString) :
  folded s -> In w (tokenize (toLowerCase s)) ->
  exists u, Forall (fun c => isPlain c = true) u /\ w = toLowerCase u.
Proof.
  assert (Hword : forall u, Forall (fun c => isPlain c = true) u ->
            In w (tokenize (toLowerCase u)) -> w = toLowerCase u).
  { intros u Hu Hin. pose proof (lower_plain u Hu) as Hp.
    destruct (toLowerCase u) as [|c l] eqn:Hl; [now cbn in Hin|].
    rewrite tokenize_folded_word in Hin by (try discriminate; exact Hp).
    destruct Hin as [<-|[]]. reflexivity. }
  induction 1 as [|u Hne Hp|u s Hne Hp Hs Hf IH]; intro Hin.
  - exists []. split; [constructor | now apply Hword].
  - exists u. split; [exact Hp | now apply Hword].
  - rewrite lower_space in Hin.
    rewrite tokenize_folded_more in Hin.
    + destruct Hin as [<-|Hin]; [now exists u | now apply IH].
    + intro H. now apply lower_nonempty in H.
    + now apply lower_plain.
    + now apply (toLowerCase_folded lower_space lower_plain lower_nonempty).
Qed.

(** Normalizing a word of a normalized text gives the word back. *)
Lemma normalize_received_word (text w : jsString) :
  In w (tokenize (normalizeArabicText text)) -> normalizeArabicText w = w.
Proof.
  intro Hin. pose proof (tokenize_words_nonempty _ _ Hin) as Hne.
  unfold normalizeArabicText in Hin.
  apply In_tokenize_lowered in Hin as (u & Hu & ->); [|apply foldArabic_folded].
  unfold normalizeArabicText.
  rewrite foldArabic_fixed by (apply folded_word; [exact Hne | now apply lower_plain]).
  apply lower_twice.
Qed.

(** C4.  For the words [arabicWordMatch] is called with, a word [a] of a
    normalized transcription and a word [b] of a normalized window text, it
    returns [true] exactly when their normalized forms are equal, or both
    normalized forms are longer than 2 code units and
    1 - levenshtein(a, b) / max(len(a), len(b)) is at least 0.85.  Such words
    are not empty and are their own normalized forms.  The distance that
    [levenshteinDistance] computes with its matrix is the classic unit-cost
    edit distance: the value of the classic recursion, and the length of a
    shortest script of insertions, deletions and substitutions. *)
Theorem fuzzy_word_match (transcribedText windowText a b : jsString) :
  In a (tokenize (normalizeArabicText transcribedText)) ->
  In b (tokenize (normalizeArabicText windowText)) ->
  (arabicWordMatch a b = true <->
   normalizeArabicText a = normalizeArabicText b \/
   (2 < length (normalizeArabicText a) /\ 2 < length (normalizeArabicText b) /\
    (0.85 <= 1 - Qnat (levenshteinDistance a b)
                 / Qnat (Nat.max (length a) (length b)))%Q)) /\
  a <> [] /\ b <> [] /\
  normalizeArabicText a = a /\ normalizeArabicText b = b /\
  levenshteinDistance a b = levClassic a b /\
  edit a b (levenshteinDistance a b) /\
  (forall n, edit a b n -> levenshteinDistance a b <= n).
Proof.
  intros Ha Hb.
  pose proof (tokenize_words_nonempty _ _ Ha) as Hna.
  pose proof (tokenize_words_nonempty _ _ Hb) as Hnb.
  pose proof (normalize_received_word _ _ Ha) as Ea.
  pose proof (normalize_received_word _ _ Hb) as Eb.
  split; [|repeat split; try assumption;
           [apply levenshteinDistance_classic | apply levenshteinDistance_edit ..]].
  pose proof (arabicWordMatch_true_iff a b) as H. cbv zeta in H.
  rewrite H, !Ea, !Eb. split.
  - intros (_ & _ & H'). exact H'.
  - intro H'. now repeat split.
Qed.

End ReceivedWords.

End Matcher.

(** * The scores as IEEE doubles

    Which windows reach the threshold, and which of two candidates ranks
    first, can depend on the rounding of the doubles that JavaScript computes
    with.  [Doubles] has the functions of the matcher that compute with
    scores, once more, on the binary64 numbers of [PrimFloat]: every
    operation rounds as the operation of the source does, in the order in
    which the source applies it.  What does not touch a score (the
    normalization, the words, the distance and the windows) is taken from
    above.

    - A decimal literal is the double nearest to it, as in JavaScript.
    - Lengths, counts, indices and verse numbers stay integers; what is
      computed from a score is a double.  A length or a count that enters
      such a computation is converted by [Number_ofNat], which is exact
      for the lengths JavaScript allows (below 2^53).
    - A comparison with [NaN] is [false], and a division by zero gives an
      infinity or [NaN], as in JavaScript. *)

Module Doubles.
Import PrimFloat SpecFloat FloatOps FloatAxioms.

#[local] Set Warnings "-inexact-float".

(** A length or a count as a double. *)
Definition Number_ofNat (n : nat) : float :=
  of_uint63 (Uint63Axioms.of_Z (Z.of_nat n)).

(** [Number.isNaN] *)
Definition Number_isNaN (x : float) : bool :=
  match Prim2SF x with
  | S754_nan => true
  | _ => false
  end.

(** [Math.round]: the nearest integer, halves rounded up; [x] itself when it
    is an integer already, a zero, an infinity or [NaN].  A finite double is
    [v * 2^e] for integers [v] and [e]; when [e < 0] the result is
    [floor ((2 v + 2^(-e)) / 2^(1 - e))], with the sign of [x] when it is
    zero. *)
Definition Math_round (x : float) : float :=
  match Prim2SF x with
  | S754_finite s m e =>
      if (0 <=? e)%Z then x
      else
        let v := cond_Zopp s (Zpos m) in
        let r := ((2 * v + 2 ^ (- e)) / 2 ^ (1 - e))%Z in
        match r with
        | Z0 => if s then neg_zero else zero
        | Zpos p => of_uint63 (Uint63Axioms.of_Z (Zpos p))
        | Zneg p => opp (of_uint63 (Uint63Axioms.of_Z (Zpos p)))
        end
  | _ => x
  end.

(** [Math.max] of two numbers. *)
Definition Math_max (x y : float) : float :=
  if is_nan x then x
  else if is_nan y then y
  else if (x <? y)%float then y
  else if (y <? x)%float then x
  else if get_sign x then y else x.

Module MatchResult.
Record t : Type := mk {
  windowIndex : Z;
  confidence : float;
  accuracy : float;
  matchedWords : float;
  totalWords : Z;
  startAyah : Z;
  endAyah : Z;
  alignmentScore : float
}.
End MatchResult.

Record RecitationSession : Type := {
  suraIndex : Z;
  currentPosition : Z;
  windowSize : Z;
  confidenceThreshold : float;
  slidingWindows : list AyahWindow.t;
  sessionHistory : list MatchResult.t;
  lastSuccessfulMatch : option MatchResult.t;
  consecutiveFailures : Z;
  isActive : bool
}.

Module Score.
Record t : Type := mk {
  confidence : float;
  accuracy : float;
  matchedWords : float;
  totalWords : Z;
  alignmentScore : float
}.
End Score.

(** [calculateSimilarity] *)
Definition calculateSimilarity (str1 str2 : jsString) : float :=
  let longer := if length str2 <? length str1 then str1 else str2 in
  let shorter := if length str2 <? length str1 then str2 else str1 in
  if length longer =? 0 then 1%float
  else
    let editDistance := levenshteinDistance longer shorter in
    ((Number_ofNat (length longer) - Number_ofNat editDistance)
     / Number_ofNat (length longer))%float.

(** [calculateWordOverlap] *)
Definition calculateWordOverlap (transcribed window : list jsString) : float :=
  let transcribedSet := newSet transcribed in
  let windowSet := newSet window in
  let overlap := length (filter (setHas windowSet) transcribedSet) in
  (Number_ofNat overlap
   / Number_ofNat (Nat.max (length transcribedSet) (length windowSet)))%float.

(** [calculateEditScore] *)
Definition calculateEditScore (transcribed window : list jsString) : float :=
  let joinedTranscribed := join [SPACE] transcribed in
  let joinedWindow := join [SPACE] window in
  let editDistance := levenshteinDistance joinedTranscribed joinedWindow in
  let maxLength := Nat.max (length joinedTranscribed) (length joinedWindow) in
  if 0 <? maxLength
  then (1 - Number_ofNat editDistance / Number_ofNat maxLength)%float
  else 0%float.

(** [Array.prototype.sort(compareFn)] for a comparator that returns a
    double: the sort is stable, [a] is placed before [b] when
    [compareFn(a, b) < 0], and a comparator value of [NaN] counts as 0.  For
    a comparator that orders the elements by a key that is never [NaN] there
    is one stable sorted arrangement ([Doubles_sort_unique]), whatever
    algorithm the host uses; inserting the elements from the right computes
    it. *)
Fixpoint sortInsert {A : Type} (compareFn : A -> A -> float) (x : A) (l : list A) : list A :=
  match l with
  | [] => [x]
  | y :: l' =>
      if (compareFn y x <? 0)%float then y :: sortInsert compareFn x l' else x :: l
  end.

Definition Array_sort {A : Type} (compareFn : A -> A -> float) (l : list A) : list A :=
  fold_right (sortInsert compareFn) [] l.

Section Matcher.

Variable toLowerCase : jsString -> jsString.
Variable quran : QuranData.

(** [arabicWordMatch] *)
Definition arabicWordMatch (word1 word2 : jsString) : bool :=
  if isEmpty word1 || isEmpty word2 then false
  else
    let norm1 := normalizeArabicText toLowerCase word1 in
    let norm2 := normalizeArabicText toLowerCase word2 in
    if strEq norm1 norm2 then true
    else if (2 <? length norm1) && (2 <? length norm2)
         then (0.85 <=? calculateSimilarity norm1 norm2)%float
         else false.

(** [longestCommonSubsequence], as above. *)
Fixpoint lcsRow (a : jsString) (arr2 : list jsString) (prev : list nat) (left : nat) : list nat :=
  match arr2, prev with
  | b :: arr2', diag :: ((up :: _) as prev') =>
      let v := if arabicWordMatch a b then diag + 1 else Nat.max up left in
      v :: lcsRow a arr2' prev' v
  | _, _ => []
  end.

Fixpoint lcsRows (arr2 : list jsString) (prev : list nat) (arr1 : list jsString) : list (list nat) :=
  match arr1 with
  | [] => []
  | a :: arr1' =>
      let row := 0 :: lcsRow a arr2 prev 0 in
      row :: lcsRows arr2 row arr1'
  end.

Definition lcsTable (arr1 arr2 : list jsString) : list (list nat) :=
  let row0 := repeat 0 (S (length arr2)) in
  row0 :: lcsRows arr2 row0 arr1.

Fixpoint lcsBack (arr1 arr2 : list jsString) (dp : list (list nat)) (i : nat) {struct i}
  : nat -> list jsString -> list jsString :=
  match i with
  | O => fun _ lcs => lcs
  | S i' =>
      fix inner (j : nat) (lcs : list jsString) {struct j} : list jsString :=
        match j with
        | O => lcs
        | S j' =>
            if arabicWordMatch (nth i' arr1 []) (nth j' arr2 [])
            then lcsBack arr1 arr2 dp i' j' (nth i' arr1 [] :: lcs)
            else if tableAt dp (S i') j' <? tableAt dp i' (S j')
                 then lcsBack arr1 arr2 dp i' j lcs
                 else inner j' lcs
        end
  end.

Definition longestCommonSubsequence (arr1 arr2 : list jsString) : list jsString :=
  lcsBack arr1 arr2 (lcsTable arr1 arr2) (length arr1) (length arr2) [].

(** [calculateSequenceMatch] *)
Definition calculateSequenceMatch (transcribed window : list jsString) : float :=
  if (length transcribed =? 0) || (length window =? 0) then 0%float
  else
    let lcs := longestCommonSubsequence transcribed window in
    (Number_ofNat (length lcs)
     / Number_ofNat (Nat.max (length transcribed) (length window)))%float.

(** [calculateAlignmentScore]; the state of its loop is
    [(alignmentScore, matches)]. *)
Definition alignmentStep (transcribed window : list jsString) (minLength : nat)
  (st : float * nat) (i : nat) : float * nat :=
  if arabicWordMatch (nth i transcribed []) (nth i window [])
  then ((fst st + (Number_ofNat minLength - Number_ofNat i) / Number_ofNat minLength)%float,
        S (snd st))
  else st.

Definition calculateAlignmentScore (transcribed window : list jsString) : float :=
  let minLength := Nat.min (length transcribed) (length window) in
  let '(alignmentScore, matches) :=
    fold_left (alignmentStep transcribed window minLength) (seq 0 minLength) (0%float, O) in
  if 0 <? matches then (alignmentScore / Number_ofNat matches)%float else 0%float.

(** [scoreWindow] *)
Definition scoreWindow (transcribedWords : list jsString) (window : AyahWindow.t) : Score.t :=
  let windowWords := AyahWindow.words window in
  let sequenceMatch := calculateSequenceMatch transcribedWords windowWords in
  let overlapScore := calculateWordOverlap transcribedWords windowWords in
  let editScore := calculateEditScore transcribedWords windowWords in
  let alignmentScore := calculateAlignmentScore transcribedWords windowWords in
  let confidence := (sequenceMatch * 0.5 + overlapScore * 0.3 + editScore * 0.2)%float in
  let accuracy := sequenceMatch in
  {| Score.confidence := confidence;
     Score.accuracy := accuracy;
     Score.matchedWords :=
       Math_round (sequenceMatch * Number_ofNat (length transcribedWords))%float;
     Score.totalWords := Z.of_nat (length transcribedWords);
     Score.alignmentScore := alignmentScore |}.

Definition setSlidingWindows (session : RecitationSession) (windows : list AyahWindow.t)
  : RecitationSession :=
  {| suraIndex := suraIndex session;
     currentPosition := currentPosition session;
     windowSize := windowSize session;
     confidenceThreshold := confidenceThreshold session;
     slidingWindows := windows;
     sessionHistory := sessionHistory session;
     lastSuccessfulMatch := lastSuccessfulMatch session;
     consecutiveFailures := consecutiveFailures session;
     isActive := isActive session |}.

(** [buildSlidingWindows], on a session that is not [null]. *)
Definition buildSlidingWindows (session : RecitationSession) : RecitationSession :=
  match findSura quran (suraIndex session) with
  | None => session
  | Some sura =>
      setSlidingWindows session
        (windowsAround toLowerCase sura (currentPosition session) (windowSize session))
  end.

(** [initializeSession]; [newSession] is the object it assigns to
    [this.session] before it builds the windows. *)
Definition newSession (suraIndex startingAyah windowSize : Z) : RecitationSession :=
  {| suraIndex := suraIndex;
     currentPosition := startingAyah;
     windowSize := windowSize;
     confidenceThreshold := 0.7%float;
     slidingWindows := [];
     sessionHistory := [];
     lastSuccessfulMatch := None;
     consecutiveFailures := 0%Z;
     isActive := true |}.

Definition initializeSession (st : option RecitationSession)
  (suraIndex startingAyah windowSize : Z)
  : (Error + RecitationSession) * option RecitationSession :=
  match findSura quran suraIndex with
  | None => (inl (SuraNotFound suraIndex), st)
  | Some _ =>
      let session := buildSlidingWindows (newSession suraIndex startingAyah windowSize) in
      (inr session, Some session)
  end.

(** [{...score, windowIndex: i, startAyah: window.startAyah, endAyah: window.endAyah}] *)
Definition toMatchResult (score : Score.t) (i : Z) (window : AyahWindow.t) : MatchResult.t :=
  {| MatchResult.windowIndex := i;
     MatchResult.confidence := Score.confidence score;
     MatchResult.accuracy := Score.accuracy score;
     MatchResult.matchedWords := Score.matchedWords score;
     MatchResult.totalWords := Score.totalWords score;
     MatchResult.startAyah := AyahWindow.startAyah window;
     MatchResult.endAyah := AyahWindow.endAyah window;
     MatchResult.alignmentScore := Score.alignmentScore score |}.

(** The scoring loop of [processAudioChunk] from the index [i] on: the
    entries it pushes to [windowScores].  The test is
    [score.confidence >= this.session.confidenceThreshold]. *)
Fixpoint scoreWindows (transcribedWords : list jsString) (threshold : float) (i : Z)
  (windows : list AyahWindow.t) : list MatchResult.t :=
  match windows with
  | [] => []
  | window :: rest =>
      let score := scoreWindow transcribedWords window in
      if (threshold <=? Score.confidence score)%float
      then toMatchResult score i window :: scoreWindows transcribedWords threshold (i + 1)%Z rest
      else scoreWindows transcribedWords threshold (i + 1)%Z rest
  end.

(** The comparator given to [windowScores.sort]. *)
Definition combinedScore (m : MatchResult.t) : float :=
  (MatchResult.confidence m * 0.4 + MatchResult.accuracy m * 0.4
   + MatchResult.alignmentScore m * 0.2)%float.

Definition compareScores (a b : MatchResult.t) : float :=
  let scoreA := combinedScore a in
  let scoreB := combinedScore b in
  (scoreB - scoreA)%float.

(** [handleConsecutiveFailures], on a session that is not [null]. *)
Definition handleConsecutiveFailures (session : RecitationSession) : RecitationSession :=
  buildSlidingWindows
    {| suraIndex := suraIndex session;
       currentPosition :=
         match lastSuccessfulMatch session with
         | Some m => MatchResult.startAyah m
         | None => 1%Z
         end;
       windowSize := Z.min 5 (windowSize session + 1);
       confidenceThreshold := Math_max 0.5 (confidenceThreshold session - 0.1)%float;
       slidingWindows := slidingWindows session;
       sessionHistory := sessionHistory session;
       lastSuccessfulMatch := lastSuccessfulMatch session;
       consecutiveFailures := consecutiveFailures session;
       isActive := isActive session |}.

(** The session after the branch [if (bestMatch)] of [processAudioChunk]. *)
Definition recordMatch (session : RecitationSession) (bestMatch : MatchResult.t)
  : RecitationSession :=
  buildSlidingWindows
    {| suraIndex := suraIndex session;
       currentPosition := (MatchResult.endAyah bestMatch + 1)%Z;
       windowSize := windowSize session;
       confidenceThreshold := confidenceThreshold session;
       slidingWindows := slidingWindows session;
       sessionHistory := sessionHistory session ++ [bestMatch];
       lastSuccessfulMatch := Some bestMatch;
       consecutiveFailures := 0%Z;
       isActive := isActive session |}.

(** The session after the [else] branch of [processAudioChunk]. *)
Definition recordFailure (session : RecitationSession) : RecitationSession :=
  let session' :=
    {| suraIndex := suraIndex session;
       currentPosition := currentPosition session;
       windowSize := windowSize session;
       confidenceThreshold := confidenceThreshold session;
       slidingWindows := slidingWindows session;
       sessionHistory := sessionHistory session;
       lastSuccessfulMatch := lastSuccessfulMatch session;
       consecutiveFailures := (consecutiveFailures session + 1)%Z;
       isActive := isActive session |} in
  if (3 <=? consecutiveFailures session')%Z
  then handleConsecutiveFailures session'
  else session'.

(** [processAudioChunk] (the specification's [processUtterance]): the value
    the promise resolves to, and the session left in [this.session]. *)
Definition processAudioChunk (st : option RecitationSession) (transcribedText : jsString)
  : option MatchResult.t * option RecitationSession :=
  match st with
  | None => (None, st)
  | Some session =>
      if negb (isActive session) then (None, st)
      else
        let normalizedTranscription := normalizeArabicText toLowerCase transcribedText in
        let transcribedWords := tokenize normalizedTranscription in
        if length transcribedWords =? 0 then (None, st)
        else
          let windowScores :=
            Array_sort compareScores
              (scoreWindows transcribedWords (confidenceThreshold session) 0%Z
                 (slidingWindows session)) in
          match windowScores with
          | bestMatch :: _ => (Some bestMatch, Some (recordMatch session bestMatch))
          | [] => (None, Some (recordFailure session))
          end
  end.

(** ** Notions that the properties are stated with *)

(** The windows accepted as candidates for an utterance: what the scoring
    loop of [processAudioChunk] pushes to [windowScores]. *)
Definition acceptedWindows (session : RecitationSession) (transcribedText : jsString)
  : list MatchResult.t :=
  scoreWindows (tokenize (normalizeArabicText toLowerCase transcribedText))
    (confidenceThreshold session) 0%Z (slidingWindows session).

End Matcher.

(** [h] is the first element of [l] that has the largest key, in the order
    of the doubles. *)
Definition firstLargest {A : Type} (key : A -> float) (l : list A) (h : A) : Prop :=
  exists pre post,
    l = pre ++ h :: post /\
    (forall d, In d pre -> (key d <? key h)%float = true) /\
    (forall d, In d post -> (key d <=? key h)%float = true).

(** The comparator [(a, b) => key(b) - key(a)], which sorts by a key, largest
    first. *)
Definition byKeyDescending {A : Type} (key : A -> float) (a b : A) : float :=
  (key b - key a)%float.

(** A double as an integer: a finite double as a multiple of 2^-1074, the
    smallest positive double, and the infinities beyond all of them.  The
    doubles other than [NaN] are ordered as these integers are. *)
Definition rank (f : spec_float) : Z :=
  match f with
  | S754_finite s m e => cond_Zopp s (Zpos m * 2 ^ (e + 1074))
  | S754_infinity s => cond_Zopp s (2 ^ 2100)
  | S754_zero _ | S754_nan => 0%Z
  end.

Definition rankOf (x : float) : Z := rank (Prim2SF x).

(** The key of an element as a rational. *)
Definition rankKey {A : Type} (key : A -> float) (a : A) : Q := inject_Z (rankOf (key a)).

Definition finiteSF (f : spec_float) : bool :=
  match f with
  | S754_zero _ | S754_finite _ _ _ => true
  | S754_infinity _ | S754_nan => false
  end.

Definition numberSF (f : spec_float) : bool :=
  match f with
  | S754_nan => false
  | _ => true
  end.

(** [0.7 - 0.1] is the double [0.6], [0.6 - 0.1] is [0.5], and [0.5 - 0.1]
    is below [0.5]: the recovery produces the thresholds 0.6 and 0.5 and then
    stays at 0.5, as it does in [Q]. *)
Example thresholds_in_doubles :
  let d07 := 0x1.6666666666666p-1%float in
  let d06 := 0x1.3333333333333p-1%float in
  let d01 := 0x1.999999999999ap-4%float in
  PrimFloat.eqb (PrimFloat.sub d07 d01) d06 = true /\
  PrimFloat.eqb (PrimFloat.sub d06 d01) 0.5%float = true /\
  PrimFloat.ltb (PrimFloat.sub 0.5%float d01) 0.5%float = true.
Proof. vm_compute. repeat split. Qed.

End Doubles.

(** * Facts about doubles

    The order of the doubles and the sign of a difference, from the
    specification of binary64 in [SpecFloat]. *)

Section DoublesFacts.

Import PrimFloat SpecFloat FloatOps FloatAxioms.

#[local] Set Warnings "-inexact-float".

Lemma digits2_pos_bounds (m : positive) :
  (2 ^ (Zpos (digits2_pos m) - 1) <= Zpos m < 2 ^ Zpos (digits2_pos m))%Z.
Proof.
  induction m as [m IH|m IH|]; cbn [digits2_pos].
  - rewrite Pos2Z.inj_succ.
    replace (Z.succ (Zpos (digits2_pos m)) - 1)%Z with (Z.succ (Zpos (digits2_pos m) - 1))%Z by lia.
    rewrite !Z.pow_succ_r by lia. lia.
  - rewrite Pos2Z.inj_succ.
    replace (Z.succ (Zpos (digits2_pos m)) - 1)%Z with (Z.succ (Zpos (digits2_pos m) - 1))%Z by lia.
    rewrite !Z.pow_succ_r by lia. lia.
  - cbn. lia.
Qed.

Lemma valid_finite (s : bool) (m : positive) (e : Z) :
  valid_binary (S754_finite s m e) = true ->
  (-1074 <= e <= 971)%Z /\ (Zpos (digits2_pos m) <= 53)%Z /\
  (Zpos (digits2_pos m) = 53 \/ e = -1074)%Z.
Proof.
  unfold SpecFloat.valid_binary, bounded, canonical_mantissa, fexp, SpecFloat.emin, prec, emax.
  intro H. apply andb_true_iff in H as [H1 H2].
  apply Z.eqb_eq in H1. apply Z.leb_le in H2. lia.
Qed.

Lemma mantissa_lt (m1 m2 : positive) (e1 e2 : Z) :
  (-1074 <= e1)%Z -> (e1 < e2)%Z ->
  (Zpos (digits2_pos m1) <= 53)%Z -> Zpos (digits2_pos m2) = 53%Z ->
  (Zpos m1 * 2 ^ (e1 + 1074) < Zpos m2 * 2 ^ (e2 + 1074))%Z.
Proof.
  intros He Hlt H1 H2.
  pose proof (digits2_pos_bounds m1) as [_ B1].
  pose proof (digits2_pos_bounds m2) as [B2 _]. rewrite H2 in B2.
  assert (B1' : (Zpos m1 < 2 ^ 53)%Z).
  { assert (B : (2 ^ Zpos (digits2_pos m1) <= 2 ^ 53)%Z)
      by (apply Z.pow_le_mono_r; [lia | exact H1]).
    lia. }
  replace (e2 + 1074)%Z with ((e1 + 1074) + (e2 - e1))%Z by lia.
  rewrite (Z.pow_add_r 2 (e1 + 1074) (e2 - e1)) by lia.
  assert (P : (0 < 2 ^ (e1 + 1074))%Z) by (apply Z.pow_pos_nonneg; lia).
  assert (Q : (2 ^ 1 <= 2 ^ (e2 - e1))%Z) by (apply Z.pow_le_mono_r; lia).
  change (2 ^ 1)%Z with 2%Z in Q. change (53 - 1)%Z with 52%Z in B2.
  change (2 ^ 52)%Z with 4503599627370496%Z in B2.
  change (2 ^ 53)%Z with 9007199254740992%Z in B1'.
  set (p := (2 ^ (e1 + 1074))%Z) in *. set (q := (2 ^ (e2 - e1))%Z) in *.
  assert (H3 : (Zpos m1 * p < 9007199254740992 * p)%Z)
    by (apply Z.mul_lt_mono_pos_r; lia).
  assert (H4 : (p * 2 <= p * q)%Z) by (apply Z.mul_le_mono_nonneg_l; lia).
  assert (H5 : (4503599627370496 * (p * 2) <= Zpos m2 * (p * 2))%Z)
    by (apply Z.mul_le_mono_nonneg_r; lia).
  assert (H6 : (Zpos m2 * (p * 2) <= Zpos m2 * (p * q))%Z)
    by (apply Z.mul_le_mono_nonneg_l; lia).
  lia.
Qed.

Lemma SFcompare_rank_finite (x y : spec_float) :
  Doubles.finiteSF x = true -> Doubles.finiteSF y = true ->
  valid_binary x = true -> valid_binary y = true ->
  SFcompare x y = Some (Doubles.rank x ?= Doubles.rank y)%Z.
Proof.
  destruct x as [sx|sx| |sx mx ex], y as [sy|sy| |sy my ey]; try discriminate;
    intros _ _ Vx Vy; cbn [SFcompare Doubles.rank].
  - reflexivity.
  - assert (P : (0 < Zpos my * 2 ^ (ey + 1074))%Z).
    { apply valid_finite in Vy. apply Z.mul_pos_pos; [lia|]. apply Z.pow_pos_nonneg; lia. }
    destruct sy; cbn [cond_Zopp]; f_equal; symmetry.
    + apply Z.compare_gt_iff. lia.
    + apply Z.compare_lt_iff. lia.
  - assert (P : (0 < Zpos mx * 2 ^ (ex + 1074))%Z).
    { apply valid_finite in Vx. apply Z.mul_pos_pos; [lia|]. apply Z.pow_pos_nonneg; lia. }
    destruct sx; cbn [cond_Zopp]; f_equal; symmetry.
    + apply Z.compare_lt_iff. lia.
    + apply Z.compare_gt_iff. lia.
  - apply valid_finite in Vx as (Ex & Dx & Cx), Vy as (Ey & Dy & Cy).
    assert (Px : (0 < Zpos mx * 2 ^ (ex + 1074))%Z)
      by (apply Z.mul_pos_pos; [lia|]; apply Z.pow_pos_nonneg; lia).
    assert (Py : (0 < Zpos my * 2 ^ (ey + 1074))%Z)
      by (apply Z.mul_pos_pos; [lia|]; apply Z.pow_pos_nonneg; lia).
    assert (Hcmp : (Zpos mx * 2 ^ (ex + 1074) ?= Zpos my * 2 ^ (ey + 1074))%Z
                   = match (ex ?= ey)%Z with
                     | Lt => Lt
                     | Gt => Gt
                     | Eq => Pos.compare_cont Eq mx my
                     end).
    { destruct (Z.compare_spec ex ey) as [He|He|He].
      - subst ey. change (Pos.compare_cont Eq mx my) with (Pos.compare mx my).
        rewrite Pos2Z.inj_compare.
        assert (P : (0 < 2 ^ (ex + 1074))%Z) by (apply Z.pow_pos_nonneg; lia).
        destruct (Z.compare_spec (Zpos mx) (Zpos my)) as [H|H|H].
        + rewrite H. apply Z.compare_refl.
        + apply Z.compare_lt_iff. nia.
        + apply Z.compare_gt_iff. nia.
      - apply Z.compare_lt_iff. apply mantissa_lt; lia.
      - apply Z.compare_gt_iff. apply mantissa_lt; lia. }
    destruct sx, sy; cbn [cond_Zopp]; f_equal.
    + rewrite Z.compare_opp,
        (Z.compare_antisym (Zpos mx * 2 ^ (ex + 1074)) (Zpos my * 2 ^ (ey + 1074))), Hcmp.
      destruct (ex ?= ey)%Z; reflexivity.
    + symmetry. apply Z.compare_lt_iff. lia.
    + symmetry. apply Z.compare_gt_iff. lia.
    + symmetry. exact Hcmp.
Qed.

Lemma iter_pos_nat {A : Type} (f : A -> A) (p : positive) (x : A) :
  iter_pos f p x = Nat.iter (Pos.to_nat p) f x.
Proof.
  revert x; induction p as [p IH|p IH|]; intro x; cbn [iter_pos].
  - rewrite !IH, Pos2Nat.inj_xI. cbn [Nat.mul]. rewrite Nat.add_0_r.
    rewrite Nat.iter_succ_r, Nat.iter_add. reflexivity.
  - rewrite !IH, Pos2Nat.inj_xO. cbn [Nat.mul]. rewrite Nat.add_0_r.
    rewrite Nat.iter_add. reflexivity.
  - reflexivity.
Qed.

Lemma shr_1_half (mrs : shr_record) :
  (0 <= shr_m mrs)%Z -> shr_m (shr_1 mrs) = (shr_m mrs / 2)%Z.
Proof.
  destruct mrs as [m r s]. cbn [shr_m shr_1]. intro H.
  destruct m as [|[p|p|]|p]; cbn [shr_m]; try reflexivity; try lia.
  - rewrite Pos2Z.inj_xI. apply (Z.div_unique _ _ _ 1); lia.
  - rewrite Pos2Z.inj_xO. apply (Z.div_unique _ _ _ 0); lia.
Qed.

Lemma shr_iter_half (n : nat) (mrs : shr_record) :
  (0 <= shr_m mrs)%Z ->
  shr_m (Nat.iter n shr_1 mrs) = (shr_m mrs / 2 ^ Z.of_nat n)%Z.
Proof.
  intro H. induction n as [|n IH].
  - cbn. now rewrite Z.div_1_r.
  - rewrite Nat.iter_succ, shr_1_half.
    + rewrite IH, Nat2Z.inj_succ, Z.pow_succ_r by lia.
      rewrite Z.div_div by (try apply Z.pow_pos_nonneg; lia).
      f_equal. lia.
    + rewrite IH. apply Z.div_pos; [exact H | apply Z.pow_pos_nonneg; lia].
Qed.

Lemma shr_record_of_loc_m (m : Z) (l : location) : shr_m (shr_record_of_loc m l) = m.
Proof. now destruct l as [|[]]. Qed.

Lemma shr_fexp_pos (m e : Z) (l : location) :
  (0 < m)%Z -> (-1074 <= e)%Z ->
  (0 < shr_m (fst (shr_fexp prec emax m e l)))%Z /\
  (-1074 <= snd (shr_fexp prec emax m e l))%Z.
Proof.
  intros Hm He. unfold shr_fexp, shr.
  destruct m as [|p|p]; try lia. cbn [Zdigits2].
  pose proof (digits2_pos_bounds p) as [B _].
  destruct (fexp prec emax (Zpos (digits2_pos p) + e) - e)%Z as [|q|q] eqn:Hn;
    cbn [fst snd]; rewrite ?shr_record_of_loc_m; try (split; lia).
  unfold fexp, SpecFloat.emin, prec, emax in Hn.
  rewrite iter_pos_nat, shr_iter_half by (rewrite shr_record_of_loc_m; lia).
  rewrite shr_record_of_loc_m, positive_nat_Z.
  split; [|lia]. apply Z.div_str_pos. split; [apply Z.pow_pos_nonneg; lia|].
  eapply Z.le_trans; [|exact B]. apply Z.pow_le_mono_r; lia.
Qed.

Lemma round_nearest_even_ge (m : Z) (l : location) : (m <= round_nearest_even m l)%Z.
Proof.
  destruct l as [|[]]; cbn [round_nearest_even]; try lia.
  destruct (Z.even m); lia.
Qed.

Lemma binary_round_aux_sign (s : bool) (m e : Z) (l : location) :
  (0 < m)%Z -> (-1074 <= e)%Z ->
  (exists m' e', binary_round_aux prec emax s m e l = S754_finite s m' e') \/
  binary_round_aux prec emax s m e l = S754_infinity s.
Proof.
  intros Hm He. unfold binary_round_aux.
  pose proof (shr_fexp_pos m e l Hm He) as [H1 H2].
  destruct (shr_fexp prec emax m e l) as [mrs' e']. cbn [fst snd] in H1, H2.
  pose proof (round_nearest_even_ge (shr_m mrs') (loc_of_shr_record mrs')) as Hr.
  assert (Hm' : (0 < round_nearest_even (shr_m mrs') (loc_of_shr_record mrs'))%Z) by lia.
  pose proof (shr_fexp_pos _ e' loc_Exact Hm' H2) as [H3 H4].
  destruct (shr_fexp prec emax _ e' loc_Exact) as [mrs'' e'']. cbn [fst snd] in H3, H4.
  destruct (shr_m mrs'') as [|q|q]; try lia.
  destruct (e'' <=? emax - prec)%Z; [left; now exists q, e'' | now right].
Qed.

Lemma binary_round_sign (s : bool) (m : positive) (e : Z) :
  (-1074 <= e)%Z ->
  (exists m' e', binary_round prec emax s m e = S754_finite s m' e') \/
  binary_round prec emax s m e = S754_infinity s.
Proof.
  intro He. unfold binary_round, shl_align.
  destruct (fexp prec emax (Zpos (digits2_pos m) + e) - e)%Z eqn:Hn;
    apply binary_round_aux_sign; try lia.
  unfold fexp, SpecFloat.emin, prec, emax. lia.
Qed.

Lemma pos_iter_xO (m d : positive) :
  Zpos (Pos.iter xO m d) = (Zpos m * 2 ^ Zpos d)%Z.
Proof.
  induction d as [|d IH] using Pos.peano_ind.
  - cbn [Pos.iter]. rewrite Pos2Z.inj_xO. change (2 ^ 1)%Z with 2%Z. lia.
  - rewrite Pos.iter_succ, Pos2Z.inj_xO, IH, Pos2Z.inj_succ, Z.pow_succ_r by lia. lia.
Qed.

Lemma shl_align_value (mx : positive) (ex ez : Z) :
  (ez <= ex)%Z -> Zpos (fst (shl_align mx ex ez)) = (Zpos mx * 2 ^ (ex - ez))%Z.
Proof.
  intro H. unfold shl_align. destruct (ez - ex)%Z as [|d|d] eqn:Hd; cbn [fst]; try lia.
  - replace (ex - ez)%Z with 0%Z by lia. cbn. lia.
  - rewrite pos_iter_xO. f_equal. f_equal. lia.
Qed.

Lemma rank_aligned (s : bool) (m : positive) (e ez : Z) :
  (-1074 <= ez <= e)%Z ->
  Doubles.rank (S754_finite s m e)
  = (cond_Zopp s (Zpos (fst (shl_align m e ez))) * 2 ^ (ez + 1074))%Z.
Proof.
  intro H. cbn [Doubles.rank]. rewrite shl_align_value by lia.
  replace (e + 1074)%Z with ((e - ez) + (ez + 1074))%Z by lia.
  rewrite (Z.pow_add_r 2 (e - ez) (ez + 1074)) by lia.
  destruct s; cbn [cond_Zopp]; lia.
Qed.

Lemma SFsub_sign_finite (x y : spec_float) :
  Doubles.finiteSF x = true -> Doubles.finiteSF y = true ->
  valid_binary x = true -> valid_binary y = true ->
  SFltb (SFsub prec emax x y) (S754_zero false) = (Doubles.rank x <? Doubles.rank y)%Z.
Proof.
  destruct x as [sx|sx| |sx mx ex], y as [sy|sy| |sy my ey]; try discriminate;
    intros _ _ Vx Vy.
  - now destruct sx, sy.
  - cbn [SFsub Doubles.rank]. apply valid_finite in Vy as (Ey & _).
    assert (P : (0 < Zpos my * 2 ^ (ey + 1074))%Z)
      by (apply Z.mul_pos_pos; [lia|]; apply Z.pow_pos_nonneg; lia).
    destruct sy; cbn [negb SFltb SFcompare cond_Zopp]; symmetry;
      [apply Z.ltb_ge | apply Z.ltb_lt]; lia.
  - cbn [SFsub Doubles.rank]. apply valid_finite in Vx as (Ex & _).
    assert (P : (0 < Zpos mx * 2 ^ (ex + 1074))%Z)
      by (apply Z.mul_pos_pos; [lia|]; apply Z.pow_pos_nonneg; lia).
    destruct sx; cbn [negb SFltb SFcompare cond_Zopp]; symmetry;
      [apply Z.ltb_lt | apply Z.ltb_ge]; lia.
  - apply valid_finite in Vx as (Ex & _), Vy as (Ey & _).
    rewrite (rank_aligned sx mx ex (Z.min ex ey)), (rank_aligned sy my ey (Z.min ex ey)) by lia.
    cbn [SFsub]. cbv zeta.
    set (X := cond_Zopp sx (Zpos (fst (shl_align mx ex (Z.min ex ey))))).
    set (Y := cond_Zopp sy (Zpos (fst (shl_align my ey (Z.min ex ey))))).
    assert (P : (0 < 2 ^ (Z.min ex ey + 1074))%Z) by (apply Z.pow_pos_nonneg; lia).
    unfold binary_normalize.
    destruct (X - Y)%Z as [|p|p] eqn:HM.
    + cbn [SFltb SFcompare]. symmetry. apply Z.ltb_ge. nia.
    + destruct (binary_round_sign false p (Z.min ex ey)) as [(m' & e' & ->)| ->]; [lia| |];
        cbn [SFltb SFcompare]; symmetry; apply Z.ltb_ge; nia.
    + destruct (binary_round_sign true p (Z.min ex ey)) as [(m' & e' & ->)| ->]; [lia| |];
        cbn [SFltb SFcompare]; symmetry; apply Z.ltb_lt; nia.
Qed.


Lemma number_SF (x : float) :
  Doubles.Number_isNaN x = false -> Doubles.numberSF (Prim2SF x) = true.
Proof. unfold Doubles.Number_isNaN. now destruct (Prim2SF x). Qed.

Lemma rank_finite_range (s : bool) (m : positive) (e : Z) :
  valid_binary (S754_finite s m e) = true ->
  (0 < Zpos m * 2 ^ (e + 1074) < 2 ^ 2100)%Z.
Proof.
  intro V. apply valid_finite in V as (E & D & _).
  pose proof (digits2_pos_bounds m) as [_ B].
  assert (B' : (Zpos m < 2 ^ 53)%Z).
  { assert (H : (2 ^ Zpos (digits2_pos m) <= 2 ^ 53)%Z)
      by (apply Z.pow_le_mono_r; [lia | exact D]).
    lia. }
  assert (P : (0 < 2 ^ (e + 1074))%Z) by (apply Z.pow_pos_nonneg; lia).
  assert (Q : (2 ^ (e + 1074) <= 2 ^ 2045)%Z) by (apply Z.pow_le_mono_r; lia).
  replace (2 ^ 2100)%Z with (2 ^ 55 * 2 ^ 2045)%Z
    by (rewrite <- Z.pow_add_r by lia; reflexivity).
  set (p := (2 ^ (e + 1074))%Z) in *. set (q := (2 ^ 2045)%Z) in *.
  change (2 ^ 53)%Z with 9007199254740992%Z in B'.
  change (2 ^ 55)%Z with 36028797018963968%Z.
  split; [apply Z.mul_pos_pos; lia|].
  assert (H1 : (Zpos m * p <= Zpos m * q)%Z) by (apply Z.mul_le_mono_nonneg_l; lia).
  assert (H2 : (Zpos m * q < 9007199254740992 * q)%Z)
    by (apply Z.mul_lt_mono_pos_r; lia).
  lia.
Qed.

(** The comparison of two doubles, neither of them [NaN], is the comparison
    of their ranks. *)
Lemma SFcompare_rank (x y : spec_float) :
  Doubles.numberSF x = true -> Doubles.numberSF y = true ->
  valid_binary x = true -> valid_binary y = true ->
  SFcompare x y = Some (Doubles.rank x ?= Doubles.rank y)%Z.
Proof.
  intros Nx Ny Vx Vy.
  assert (B : (0 < 2 ^ 2100)%Z) by (apply Z.pow_pos_nonneg; lia).
  destruct x as [sx|sx| |sx mx ex], y as [sy|sy| |sy my ey]; try discriminate;
    try (now apply SFcompare_rank_finite);
    try pose proof (rank_finite_range _ _ _ Vx) as Rx;
    try pose proof (rank_finite_range _ _ _ Vy) as Ry;
    cbn [SFcompare Doubles.rank]; set (b := (2 ^ 2100)%Z) in *;
    repeat match goal with s : bool |- _ => destruct s end;
    cbn [cond_Zopp]; f_equal; symmetry;
    first [apply Z.compare_eq_iff; lia | apply Z.compare_lt_iff; lia
          | apply Z.compare_gt_iff; lia].
Qed.

(** The sign of a difference of two doubles, neither of them [NaN], is the
    order of their ranks. *)
Lemma SFsub_sign (x y : spec_float) :
  Doubles.numberSF x = true -> Doubles.numberSF y = true ->
  valid_binary x = true -> valid_binary y = true ->
  SFltb (SFsub prec emax x y) (S754_zero false) = (Doubles.rank x <? Doubles.rank y)%Z.
Proof.
  intros Nx Ny Vx Vy.
  assert (B : (0 < 2 ^ 2100)%Z) by (apply Z.pow_pos_nonneg; lia).
  destruct x as [sx|sx| |sx mx ex], y as [sy|sy| |sy my ey]; try discriminate;
    try (now apply SFsub_sign_finite);
    try pose proof (rank_finite_range _ _ _ Vx) as Rx;
    try pose proof (rank_finite_range _ _ _ Vy) as Ry;
    cbn [SFsub Doubles.rank]; set (b := (2 ^ 2100)%Z) in *;
    repeat match goal with s : bool |- _ => destruct s end;
    cbn [negb SFltb SFcompare cond_Zopp]; symmetry;
    first [apply Z.ltb_lt; lia | apply Z.ltb_ge; lia].
Qed.


Lemma leb_rank (x y : float) :
  Doubles.Number_isNaN x = false -> Doubles.Number_isNaN y = false ->
  (x <=? y)%float = (Doubles.rankOf x <=? Doubles.rankOf y)%Z.
Proof.
  intros Hx Hy. rewrite leb_spec. unfold SFleb.
  rewrite SFcompare_rank by (try apply Prim2SF_valid; now apply number_SF).
  unfold Z.leb, Doubles.rankOf. now destruct (_ ?= _)%Z.
Qed.

Lemma eqb_rank (x y : float) :
  Doubles.Number_isNaN x = false -> Doubles.Number_isNaN y = false ->
  (x =? y)%float = (Doubles.rankOf x =? Doubles.rankOf y)%Z.
Proof.
  intros Hx Hy. rewrite eqb_spec. unfold SFeqb.
  rewrite SFcompare_rank by (try apply Prim2SF_valid; now apply number_SF).
  fold (Doubles.rankOf x) (Doubles.rankOf y).
  destruct (Z.compare_spec (Doubles.rankOf x) (Doubles.rankOf y)) as [H|H|H];
    symmetry; [apply Z.eqb_eq | apply Z.eqb_neq | apply Z.eqb_neq]; lia.
Qed.

(** The sign of a difference is the order of its operands: a difference of
    two doubles, neither of them [NaN], is negative exactly when the first is
    the smaller (a difference of different doubles is never rounded to
    zero). *)
Lemma sub_sign (x y : float) :
  Doubles.Number_isNaN x = false -> Doubles.Number_isNaN y = false ->
  (x - y <? 0)%float = (Doubles.rankOf x <? Doubles.rankOf y)%Z.
Proof.
  intros Hx Hy. rewrite ltb_spec, sub_spec.
  change (Prim2SF 0) with (S754_zero false).
  apply SFsub_sign; try apply Prim2SF_valid; now apply number_SF.
Qed.

(** ** [Array.prototype.sort] by a key that is a double and never [NaN] *)

Lemma Qltb_inject_Z (a b : Z) : Qltb (inject_Z a - inject_Z b) 0 = (a <? b)%Z.
Proof.
  destruct (a <? b)%Z eqn:H.
  - apply Z.ltb_lt in H. apply Qltb_lt. rewrite Zlt_Qlt in H. lra.
  - apply Z.ltb_ge in H. apply Qltb_ge. rewrite Zle_Qle in H. lra.
Qed.

Lemma StronglySorted_In_impl {X : Type} (R R' : X -> X -> Prop) (l : list X) :
  (forall a b, In a l -> In b l -> R a b -> R' a b) ->
  StronglySorted R l -> StronglySorted R' l.
Proof.
  intros Himp Hs. induction Hs as [|x l Hs IH Hx]; constructor.
  - apply IH. intros a b Ha Hb. apply Himp; now right.
  - rewrite Forall_forall in Hx |- *. intros b Hb.
    apply Himp; [now left | now right | now apply Hx].
Qed.

Section SortByDouble.

Context {A : Type} (key : A -> float).

Let numberKey (a : A) : Prop := Doubles.Number_isNaN (key a) = false.

Lemma sortInsert_rank (x : A) (l : list A) :
  numberKey x -> Forall numberKey l ->
  Doubles.sortInsert (Doubles.byKeyDescending key) x l
  = sortInsert (byKeyDescending (Doubles.rankKey key)) x l.
Proof.
  intros Hx Hl. induction Hl as [|y l Hy Hl IH]; [reflexivity|].
  cbn [Doubles.sortInsert sortInsert].
  unfold Doubles.byKeyDescending at 1. unfold byKeyDescending at 1.
  unfold Doubles.rankKey at 1 2.
  rewrite sub_sign, Qltb_inject_Z by assumption.
  now rewrite IH.
Qed.

Lemma Array_sort_rank (l : list A) :
  Forall numberKey l ->
  Doubles.Array_sort (Doubles.byKeyDescending key) l
  = Array_sort (byKeyDescending (Doubles.rankKey key)) l.
Proof.
  induction 1 as [|x l Hx Hl IH]; [reflexivity|].
  cbn [Doubles.Array_sort Array_sort fold_right].
  fold (Doubles.Array_sort (Doubles.byKeyDescending key) l).
  fold (Array_sort (byKeyDescending (Doubles.rankKey key)) l).
  rewrite IH. apply sortInsert_rank; [exact Hx|].
  eapply Permutation_Forall; [apply Array_sort_perm | exact Hl].
Qed.





(** Every arrangement of [l] that is sorted by the key and keeps the
    elements of every key in their order is the one [Doubles.Array_sort]
    computes: every stable sort returns the same array. *)
Lemma Doubles_sort_unique (l l' : list A) :
  Forall numberKey l -> Permutation l l' ->
  StronglySorted (fun a b => (key b <=? key a)%float = true) l' ->
  (forall k, Doubles.Number_isNaN k = false ->
     filter (fun a => (key a =? k)%float) l' = filter (fun a => (key a =? k)%float) l) ->
  l' = Doubles.Array_sort (Doubles.byKeyDescending key) l.
Proof.
  intros Hl Hp Hs Hf. rewrite Array_sort_rank by exact Hl.
  assert (Hl' : Forall numberKey l') by (eapply Permutation_Forall; eassumption).
  rewrite Forall_forall in Hl, Hl'.
  assert (Heq : forall a x, numberKey a -> numberKey x ->
            Qeq_bool (Doubles.rankKey key a) (Doubles.rankKey key x) = (key a =? key x)%float).
  { intros a x Ha Hx. rewrite eqb_rank by assumption. unfold Doubles.rankKey.
    destruct (Doubles.rankOf (key a) =? Doubles.rankOf (key x))%Z eqn:E.
    - apply Z.eqb_eq in E. apply Qeq_bool_iff. now rewrite E.
    - apply Z.eqb_neq in E. destruct (Qeq_bool _ _) eqn:Q; [|reflexivity].
      apply Qeq_bool_iff in Q. exfalso. apply E. now apply inject_Z_injective. }
  apply Array_sort_unique.
  - eapply StronglySorted_In_impl; [|exact Hs].
    intros a b Ha Hb H. cbv beta in H.
    rewrite leb_rank in H by (apply Hl'; assumption). apply Z.leb_le in H.
    unfold Doubles.rankKey. now rewrite <- Zle_Qle.
  - intro k.
    destruct (existsb (fun a => Qeq_bool (Doubles.rankKey key a) k) l) eqn:Hex.
    + apply existsb_exists in Hex as (x & Hx & Hk). apply Qeq_bool_iff in Hk.
      assert (Hext : forall l0, (forall a, In a l0 -> numberKey a) ->
                filter (fun a => Qeq_bool (Doubles.rankKey key a) k) l0
                = filter (fun a => (key a =? key x)%float) l0).
      { intros l0 H0. apply filter_ext_in. intros a Ha.
        rewrite <- Heq by first [apply H0; assumption | apply Hl; assumption].
        destruct (Qeq_bool (Doubles.rankKey key a) k) eqn:E1,
                 (Qeq_bool (Doubles.rankKey key a) (Doubles.rankKey key x)) eqn:E2;
          try reflexivity.
        - apply Qeq_bool_iff in E1. apply Qeq_bool_neq in E2. exfalso. apply E2.
          now rewrite E1, Hk.
        - apply Qeq_bool_iff in E2. apply Qeq_bool_neq in E1. exfalso. apply E1.
          now rewrite E2, Hk. }
      rewrite (Hext l' Hl'), (Hext l Hl). apply Hf. now apply Hl.
    + assert (Hnone : forall l0, (forall a, In a l0 -> In a l) ->
                filter (fun a => Qeq_bool (Doubles.rankKey key a) k) l0 = []).
      { intros l0 H0. induction l0 as [|a l0 IH]; [reflexivity|].
        cbn [filter].
        destruct (Qeq_bool (Doubles.rankKey key a) k) eqn:E.
        - assert (Ht : existsb (fun a => Qeq_bool (Doubles.rankKey key a) k) l = true)
            by (apply existsb_exists; exists a; split; [apply H0; now left | exact E]).
          congruence.
        - apply IH. intros b Hb. apply H0. now right. }
      rewrite (Hnone l), (Hnone l'); [reflexivity | | now intros].
      intros a Ha. eapply Permutation_in; [apply Permutation_sym; exact Hp | exact Ha].
Qed.

End SortByDouble.

(** ** The candidates and the match, on doubles *)

Variable toLowerCase : jsString -> jsString.
Variable quran : QuranData.







End DoublesFacts.

(** * Examples

    The functions above at concrete inputs: [lowerASCII] for [toLowerCase],
    and the two-verse corpus of the specification's scenarios. *)

(** The session that [initializeSession(1, 1, 3)] creates on the sample
    corpus. *)
Definition sampleSession : RecitationSession :=
  buildSlidingWindows lowerASCII sampleQuran
    {| suraIndex := 1%Z;
       currentPosition := 1%Z;
       windowSize := 3%Z;
       confidenceThreshold := 0.7%Q;
       slidingWindows := [];
       sessionHistory := [];
       lastSuccessfulMatch := None;
       consecutiveFailures := 0%Z;
       isActive := true |}.

(** The session after two utterances without a match. *)
Definition sampleSessionTwoFailures : RecitationSession :=
  {| suraIndex := suraIndex sampleSession;
     currentPosition := currentPosition sampleSession;
     windowSize := windowSize sampleSession;
     confidenceThreshold := confidenceThreshold sampleSession;
     slidingWindows := slidingWindows sampleSession;
     sessionHistory := sessionHistory sampleSession;
     lastSuccessfulMatch := lastSuccessfulMatch sampleSession;
     consecutiveFailures := 2%Z;
     isActive := true |}.

Example sample_initialize :
  initializeSession lowerASCII sampleQuran None 1 1 3
  = (inr sampleSession, Some sampleSession).
Proof. reflexivity. Qed.

Example sample_windows :
  map (fun w => (AyahWindow.startAyah w, AyahWindow.endAyah w))
      (slidingWindows sampleSession)
  = [(1, 1); (1, 2); (2, 2)]%Z.
Proof. vm_compute. reflexivity. Qed.

(** Scenario: the first verse is recited; the match is the window of verse 1
    with accuracy 1, and the position advances to 2. *)
Example scenario_first_verse :
  exists m s,
    processAudioChunk lowerASCII sampleQuran (Some sampleSession) verse1 = (Some m, Some s) /\
    MatchResult.startAyah m = 1%Z /\ MatchResult.endAyah m = 1%Z /\
    (MatchResult.accuracy m == 1)%Q /\ currentPosition s = 2%Z.
Proof.
  destruct (processAudioChunk lowerASCII sampleQuran (Some sampleSession) verse1)
    as [[m|] [s|]] eqn:H; vm_compute in H; try discriminate.
  exists m, s. injection H as <- <-. now repeat split.
Qed.

(** Scenario: both verses are recited in one utterance; the match spans the
    verses 1 to 2. *)
Example scenario_both_verses :
  exists m s,
    processAudioChunk lowerASCII sampleQuran (Some sampleSession)
      (verse1 ++ [SPACE] ++ verse2) = (Some m, Some s) /\
    MatchResult.startAyah m = 1%Z /\ MatchResult.endAyah m = 2%Z.
Proof.
  destruct (processAudioChunk lowerASCII sampleQuran (Some sampleSession)
              (verse1 ++ [SPACE] ++ verse2)) as [[m|] [s|]] eqn:H;
    vm_compute in H; try discriminate.
  exists m, s. injection H as <- <-. now repeat split.
Qed.

(** Scenario: ["xyz abc"] three times; three times no match, and after the
    third the threshold is 0.6 and the window size 4. *)
Example scenario_three_failures :
  let r1 := processAudioChunk lowerASCII sampleQuran (Some sampleSession) garbage in
  let r2 := processAudioChunk lowerASCII sampleQuran (snd r1) garbage in
  let r3 := processAudioChunk lowerASCII sampleQuran (snd r2) garbage in
  fst r1 = None /\ fst r2 = None /\ fst r3 = None /\
  option_map confidenceThreshold (snd r2) = Some 0.7%Q /\
  option_map windowSize (snd r2) = Some 3%Z /\
  option_map (fun s => Qeq_bool (confidenceThreshold s) 0.6) (snd r3) = Some true /\
  option_map windowSize (snd r3) = Some 4%Z /\
  option_map consecutiveFailures (snd r3) = Some 3%Z.
Proof. vm_compute. repeat split. Qed.

(** Normalization at work: white space around and between the words,
    a capital letter, a diacritic, and the letters that are rewritten. *)
Example sample_normalize :
  normalizeArabicText lowerASCII
    [0x20; 0x09; 0x41; 0x64A; 0x20; 0xA0; 0x629; 0x64B; 0x622; 0x6A9; 0x0A]%N
  = [0x61; 0x649; 0x20; 0x647; 0x627; 0x643]%N.
Proof. reflexivity. Qed.

Example sample_split :
  splitWhiteSpace [0x20; 0x61; 0x20; 0x20; 0x62; 0x20]%N = [[]; [0x61]; [0x62]; []]%N /\
  splitWhiteSpace [] = [[]] /\
  tokenize [0x20; 0x61; 0x20; 0x20; 0x62; 0x20]%N = [[0x61]; [0x62]]%N.
Proof. repeat split. Qed.

(** A sura of twenty verses, position 10 and window size 3: the radius is 6,
    so the windows start at the verses 4 to 16, three at each. *)
Example sample_spans :
  length (specWindowSpans 20 10 3) = 39 /\
  hd_error (specWindowSpans 20 10 3) = Some (4, 4)%Z /\
  last (specWindowSpans 20 10 3) (0, 0)%Z = (16, 18)%Z /\
  specWindowSpans 20 19 3
  = [(13, 13); (13, 14); (13, 15); (14, 14); (14, 15); (14, 16); (15, 15); (15, 16);
     (15, 17); (16, 16); (16, 17); (16, 18); (17, 17); (17, 18); (17, 19); (18, 18);
     (18, 19); (18, 20); (19, 19); (19, 20); (20, 20)]%Z.
Proof. vm_compute. repeat split. Qed.

Example sample_levenshtein :
  levenshteinDistance [0x6B; 0x69; 0x74; 0x74; 0x65; 0x6E]%N
                      [0x73; 0x69; 0x74; 0x74; 0x69; 0x6E; 0x67]%N = 3.
Proof. reflexivity. Qed.

(** ** [lowerASCII] has the properties assumed of [toLowerCase] *)

Lemma lowerUnit_twice (c : codeUnit) : lowerUnit (lowerUnit c) = lowerUnit c.
Proof.
  unfold lowerUnit.
  destruct ((0x41 <=? c) && (c <=? 0x5A))%N eqn:H; [|now rewrite H].
  apply andb_true_iff in H as [H1 H2]. apply N.leb_le in H1, H2.
  replace (c + 0x20 <=? 0x5A)%N with false by (symmetry; apply N.leb_gt; lia).
  now rewrite andb_false_r.
Qed.

Ltac settle_comparisons :=
  repeat match goal with
         | |- context [(?a =? ?b)%N] =>
             destruct (N.eqb_spec a b); [exfalso; lia|]
         | |- context [(?a <=? ?b)%N] =>
             destruct (N.leb_spec a b); try (exfalso; lia)
         end.

Lemma lowerUnit_plain (c : codeUnit) : isPlain c = true -> isPlain (lowerUnit c) = true.
Proof.
  unfold lowerUnit.
  destruct ((0x41 <=? c) && (c <=? 0x5A))%N eqn:H; [|trivial].
  apply andb_true_iff in H as [H1 H2]. apply N.leb_le in H1, H2. intros _.
  remember (c + 0x20)%N as d eqn:Hd.
  assert (Hr : (0x61 <= d <= 0x7A)%N) by lia. clear Hd H1 H2 c.
  unfold isPlain, isRewritten, isWhiteSpace, isDiacritic, isAlifVariant,
    isTaMarbuta, isYa, isFarsiKaf.
  settle_comparisons. reflexivity.
Qed.

Lemma lowerASCII_twice (s : jsString) : lowerASCII (lowerASCII s) = lowerASCII s.
Proof.
  unfold lowerASCII. rewrite map_map. apply map_ext, lowerUnit_twice.
Qed.

Lemma lowerASCII_space (s1 s2 : jsString) :
  lowerASCII (s1 ++ SPACE :: s2) = lowerASCII s1 ++ SPACE :: lowerASCII s2.
Proof. unfold lowerASCII. now rewrite map_app. Qed.

Lemma lowerASCII_plain (s : jsString) :
  Forall (fun c => isPlain c = true) s ->
  Forall (fun c => isPlain c = true) (lowerASCII s).
Proof.
  induction 1 as [|c s Hc Hs IH]; [constructor|].
  constructor; [now apply lowerUnit_plain | exact IH].
Qed.

Lemma lowerASCII_nonempty (s : jsString) : lowerASCII s = [] -> s = [].
Proof. now destruct s. Qed.

(** ** The theorems at the sample inputs *)

Lemma sample_contiguous : contiguousAyas sampleSura.
Proof.
  intros k Hk. destruct k as [|[|k]]; [reflexivity | reflexivity |].
  simpl in Hk. lia.
Defined.


Lemma windows_cover_radius_witness :
  findSura sampleQuran (suraIndex sampleSession) = Some sampleSura /\
  contiguousAyas sampleSura /\
  slidingWindows (buildSlidingWindows lowerASCII sampleQuran sampleSession) =
  map (fun se => makeWindow lowerASCII (slice (Sura.ayas sampleSura) (fst se - 1) (snd se)))
    (specWindowSpans 2 1 3) /\
  specWindowSpans 2 1 3 = [(1, 1); (1, 2); (2, 2)]%Z.
Proof.
  assert (H1 : findSura sampleQuran (suraIndex sampleSession) = Some sampleSura)
    by reflexivity.
  split; [exact H1|]. split; [exact sample_contiguous|]. split; [|reflexivity].
  exact (proj1 (windows_cover_radius lowerASCII sampleQuran sampleSession sampleSura
                  H1 sample_contiguous)).
Defined.

Lemma normalize_idempotent_witness :
  normalizeArabicText lowerASCII (normalizeArabicText lowerASCII verse1)
  = normalizeArabicText lowerASCII verse1.
Proof.
  exact (normalize_idempotent lowerASCII lowerASCII_twice lowerASCII_space
           lowerASCII_plain lowerASCII_nonempty verse1).
Defined.

Lemma own_text_scores_one_witness :
  tokenize (normalizeArabicText lowerASCII verse1) <> [] /\
  AyahWindow.words (makeWindow lowerASCII [Aya.mk 1 verse1 None])
  = tokenize (normalizeArabicText lowerASCII verse1) /\
  (calculateSequenceMatch lowerASCII
     (tokenize (normalizeArabicText lowerASCII verse1))
     (AyahWindow.words (makeWindow lowerASCII [Aya.mk 1 verse1 None])) == 1)%Q /\
  (Score.accuracy
     (scoreWindow lowerASCII (tokenize (normalizeArabicText lowerASCII verse1))
        (makeWindow lowerASCII [Aya.mk 1 verse1 None])) == 1)%Q.
Proof.
  assert (H1 : tokenize (normalizeArabicText lowerASCII verse1) <> [])
    by (vm_compute; discriminate).
  assert (H2 : AyahWindow.words (makeWindow lowerASCII [Aya.mk 1 verse1 None])
               = tokenize (normalizeArabicText lowerASCII verse1)) by reflexivity.
  repeat (split; [assumption|]).
  pose proof (own_text_scores_one lowerASCII verse1
                (makeWindow lowerASCII [Aya.mk 1 verse1 None]) H1 H2) as H.
  split; [exact (proj1 H) | exact (proj1 (proj2 H))].
Defined.

Lemma jumpToPosition_resets_witness :
  findSura sampleQuran (suraIndex sampleSessionTwoFailures) = Some sampleSura /\
  jumpToPosition lowerASCII sampleQuran (Some sampleSessionTwoFailures) 2 =
  Some {| suraIndex := 1%Z;
          currentPosition := 2%Z;
          windowSize := 3%Z;
          confidenceThreshold := 0.7%Q;
          slidingWindows := windowsAround lowerASCII sampleSura 2 3;
          sessionHistory := [];
          lastSuccessfulMatch := None;
          consecutiveFailures := 0%Z;
          isActive := true |}.
Proof.
  assert (H1 : findSura sampleQuran (suraIndex sampleSessionTwoFailures) = Some sampleSura)
    by reflexivity.
  split; [exact H1|].
  exact (jumpToPosition_resets lowerASCII sampleQuran sampleSessionTwoFailures 2
           sampleSura H1).
Defined.

(** The sample session is the state after one call of [initializeSession]. *)
Lemma sample_reachable : reachable lowerASCII sampleQuran (Some sampleSession).
Proof.
  exact (reachable_step lowerASCII sampleQuran None
           (snd (initializeSession lowerASCII sampleQuran None 1 1 3))
           (reachable_new lowerASCII sampleQuran)
           (step_initialize lowerASCII sampleQuran None 1 1 3)).
Defined.

(** The session after the first verse was recited to the sample session. *)
Definition sampleSessionAfterMatch : RecitationSession :=
  match snd (processAudioChunk lowerASCII sampleQuran (Some sampleSession) verse1) with
  | Some session => session
  | None => sampleSession
  end.

Lemma sample_after_match :
  snd (processAudioChunk lowerASCII sampleQuran (Some sampleSession) verse1)
  = Some sampleSessionAfterMatch.
Proof. vm_compute. reflexivity. Defined.

Lemma sample_reachable_after_match :
  reachable lowerASCII sampleQuran (Some sampleSessionAfterMatch).
Proof.
  rewrite <- sample_after_match.
  exact (reachable_step lowerASCII sampleQuran (Some sampleSession) _
           sample_reachable
           (step_process lowerASCII sampleQuran (Some sampleSession) verse1)).
Defined.

Lemma scoreWindow_ranges_witness :
  tokenize (normalizeArabicText lowerASCII verse1) <> [] /\
  (0 <= Score.confidence
          (scoreWindow lowerASCII (tokenize (normalizeArabicText lowerASCII verse1))
             (makeWindow lowerASCII [Aya.mk 2 verse2 None])) <= 1)%Q.
Proof.
  assert (H1 : tokenize (normalizeArabicText lowerASCII verse1) <> [])
    by (vm_compute; discriminate).
  split; [exact H1|].
  pose proof (scoreWindow_ranges lowerASCII
                (tokenize (normalizeArabicText lowerASCII verse1))
                (makeWindow lowerASCII [Aya.mk 2 verse2 None]) H1) as H.
  cbv zeta in H. exact (proj1 H).
Defined.

Lemma exact_words_score_witness :
  tokenize (normalizeArabicText lowerASCII verse1) <> [] /\
  AyahWindow.words (makeWindow lowerASCII [Aya.mk 1 verse1 None])
  = tokenize (normalizeArabicText lowerASCII verse1) /\
  (Score.confidence
     (scoreWindow lowerASCII (tokenize (normalizeArabicText lowerASCII verse1))
        (makeWindow lowerASCII [Aya.mk 1 verse1 None])) == 1)%Q.
Proof.
  assert (H1 : tokenize (normalizeArabicText lowerASCII verse1) <> [])
    by (vm_compute; discriminate).
  assert (H2 : AyahWindow.words (makeWindow lowerASCII [Aya.mk 1 verse1 None])
               = tokenize (normalizeArabicText lowerASCII verse1)) by reflexivity.
  repeat (split; [assumption|]).
  pose proof (exact_words_score lowerASCII verse1
                (makeWindow lowerASCII [Aya.mk 1 verse1 None]) H1 H2) as H.
  cbv zeta in H. exact (proj1 (proj2 (proj2 H))).
Defined.

Lemma exact_recitation_matches_witness :
  isActive sampleSession = true /\
  (confidenceThreshold sampleSession <= 1)%Q /\
  nth_error (slidingWindows sampleSession) 0
  = Some (makeWindow lowerASCII (slice (Sura.ayas sampleSura) 0 1)) /\
  tokenize (normalizeArabicText lowerASCII verse1) <> [] /\
  exists bestMatch session',
    processAudioChunk lowerASCII sampleQuran (Some sampleSession) verse1
    = (Some bestMatch, Some session') /\
    consecutiveFailures session' = 0%Z /\
    (0.9 <= combinedScore bestMatch)%Q.
Proof.
  assert (H1 : isActive sampleSession = true) by reflexivity.
  assert (H2 : (confidenceThreshold sampleSession <= 1)%Q)
    by (vm_compute; discriminate).
  assert (H3 : nth_error (slidingWindows sampleSession) 0
               = Some (makeWindow lowerASCII (slice (Sura.ayas sampleSura) 0 1)))
    by reflexivity.
  assert (H4 : tokenize (normalizeArabicText lowerASCII verse1) <> [])
    by (vm_compute; discriminate).
  assert (H5 : AyahWindow.words (makeWindow lowerASCII (slice (Sura.ayas sampleSura) 0 1))
               = tokenize (normalizeArabicText lowerASCII verse1)) by reflexivity.
  repeat (split; [assumption|]).
  destruct (exact_recitation_matches lowerASCII sampleQuran sampleSession verse1 0
              (makeWindow lowerASCII (slice (Sura.ayas sampleSura) 0 1))
              H1 H2 H3 H4 H5) as (m & s & Hp & Hc & _ & _ & Hs).
  exists m, s. split; [exact Hp|]. split; [exact Hc | exact Hs].
Defined.

Lemma reciting_expected_verse_matches_witness :
  isActive sampleSession = true /\
  (confidenceThreshold sampleSession <= 1)%Q /\
  (1 <= currentPosition sampleSession <= Z.of_nat (length (Sura.ayas sampleSura)))%Z /\
  (1 <= windowSize sampleSession)%Z /\
  slidingWindows sampleSession
  = windowsAround lowerASCII sampleSura (currentPosition sampleSession)
      (windowSize sampleSession) /\
  tokenize (normalizeArabicText lowerASCII verse1) <> [] /\
  exists bestMatch session',
    processAudioChunk lowerASCII sampleQuran (Some sampleSession) verse1
    = (Some bestMatch, Some session') /\
    consecutiveFailures session' = 0%Z /\
    (0.9 <= combinedScore bestMatch)%Q.
Proof.
  assert (H1 : isActive sampleSession = true) by reflexivity.
  assert (H2 : (confidenceThreshold sampleSession <= 1)%Q)
    by (vm_compute; discriminate).
  assert (H3 : (1 <= currentPosition sampleSession
                <= Z.of_nat (length (Sura.ayas sampleSura)))%Z)
    by (split; vm_compute; discriminate).
  assert (H4 : (1 <= windowSize sampleSession)%Z) by (vm_compute; discriminate).
  assert (H5 : slidingWindows sampleSession
               = windowsAround lowerASCII sampleSura (currentPosition sampleSession)
                   (windowSize sampleSession)) by reflexivity.
  assert (H6 : tokenize (normalizeArabicText lowerASCII verse1) <> [])
    by (vm_compute; discriminate).
  repeat (split; [assumption|]).
  exact (reciting_expected_verse_matches lowerASCII sampleQuran sampleSession sampleSura
           H1 H2 H3 H4 H5 H6).
Defined.

Lemma window_count_bounded_witness :
  findSura sampleQuran (suraIndex sampleSession) = Some sampleSura /\
  (Z.of_nat (length (slidingWindows
                       (buildSlidingWindows lowerASCII sampleQuran sampleSession)))
   <= (2 * Z.max 5 (windowSize sampleSession * 2) + 1)
      * Z.max 0 (windowSize sampleSession))%Z.
Proof.
  assert (H1 : findSura sampleQuran (suraIndex sampleSession) = Some sampleSura)
    by reflexivity.
  split; [exact H1|].
  pose proof (window_count_bounded lowerASCII sampleQuran sampleSession sampleSura H1)
    as H.
  cbv zeta in H. exact (proj1 H).
Defined.

Lemma session_stays_well_formed_witness :
  reachable lowerASCII sampleQuran (Some sampleSessionAfterMatch) /\
  isActive sampleSessionAfterMatch = true /\
  (0 <= consecutiveFailures sampleSessionAfterMatch)%Z /\
  exists sura,
    findSura sampleQuran (suraIndex sampleSessionAfterMatch) = Some sura /\
    forall w, In w (slidingWindows sampleSessionAfterMatch) ->
      exists a b,
        (1 <= a <= b)%Z /\ (b <= Z.of_nat (length (Sura.ayas sura)))%Z /\
        w = makeWindow lowerASCII (slice (Sura.ayas sura) (a - 1) b).
Proof.
  split; [exact sample_reachable_after_match|].
  exact (session_stays_well_formed lowerASCII sampleQuran
           (Some sampleSessionAfterMatch) sampleSessionAfterMatch
           sample_reachable_after_match eq_refl).
Defined.

Lemma history_is_consistent_witness :
  reachable lowerASCII sampleQuran (Some sampleSessionAfterMatch) /\
  length (sessionHistory sampleSessionAfterMatch) = 1 /\
  lastSuccessfulMatch sampleSessionAfterMatch
  = hd_error (rev (sessionHistory sampleSessionAfterMatch)) /\
  forall m, In m (sessionHistory sampleSessionAfterMatch) ->
    (0.5 <= MatchResult.confidence m <= 1)%Q.
Proof.
  split; [exact sample_reachable_after_match|]. split; [reflexivity|].
  pose proof (history_is_consistent lowerASCII sampleQuran
                (Some sampleSessionAfterMatch) sampleSessionAfterMatch
                sample_reachable_after_match eq_refl) as H.
  split; [exact (proj1 H)|].
  intros m Hm. exact (proj1 (proj2 (proj2 H) m Hm)).
Defined.

Lemma matches_stay_in_sura_witness :
  reachable lowerASCII sampleQuran (Some sampleSessionAfterMatch) /\
  findSura sampleQuran (suraIndex sampleSessionAfterMatch) = Some sampleSura /\
  contiguousAyas sampleSura /\
  length (sessionHistory sampleSessionAfterMatch) = 1 /\
  forall m, In m (sessionHistory sampleSessionAfterMatch) ->
    (1 <= MatchResult.startAyah m <= MatchResult.endAyah m)%Z /\
    (MatchResult.endAyah m <= Z.of_nat (length (Sura.ayas sampleSura)))%Z.
Proof.
  assert (H1 : findSura sampleQuran (suraIndex sampleSessionAfterMatch) = Some sampleSura)
    by reflexivity.
  split; [exact sample_reachable_after_match|]. split; [exact H1|].
  split; [exact sample_contiguous|]. split; [reflexivity|].
  exact (proj1 (matches_stay_in_sura lowerASCII sampleQuran
                  (Some sampleSessionAfterMatch) sampleSessionAfterMatch sampleSura
                  sample_reachable_after_match eq_refl H1 sample_contiguous)).
Defined.

Lemma normalize_ignores_white_space_witness :
  isWhiteSpace 0x09%N = true /\ isWhiteSpace 0x0A%N = true /\
  normalizeArabicText lowerASCII (verse1 ++ 0x09%N :: verse2)
  = normalizeArabicText lowerASCII (verse1 ++ SPACE :: verse2) /\
  normalizeArabicText lowerASCII (verse1 ++ 0x09%N :: 0x0A%N :: verse2)
  = normalizeArabicText lowerASCII (verse1 ++ 0x09%N :: verse2).
Proof.
  assert (H1 : isWhiteSpace 0x09%N = true) by reflexivity.
  assert (H2 : isWhiteSpace 0x0A%N = true) by reflexivity.
  repeat (split; [assumption|]).
  pose proof (normalize_ignores_white_space lowerASCII verse1 verse2 0x09%N 0x0A%N H1 H2)
    as H.
  split; [exact (proj1 H) | exact (proj1 (proj2 H))].
Defined.

Lemma normalized_text_round_trip_witness :
  join [SPACE] (tokenize (normalizeArabicText lowerASCII (verse1 ++ SPACE :: verse2)))
  = normalizeArabicText lowerASCII (verse1 ++ SPACE :: verse2) /\
  join [SPACE] (AyahWindow.words (makeWindow lowerASCII (Sura.ayas sampleSura)))
  = AyahWindow.normalizedText (makeWindow lowerASCII (Sura.ayas sampleSura)).
Proof.
  pose proof (normalized_text_round_trip lowerASCII lowerASCII_space lowerASCII_plain
                lowerASCII_nonempty (verse1 ++ SPACE :: verse2) (Sura.ayas sampleSura))
    as H.
  split; [exact (proj1 H) | exact (proj2 (proj2 H))].
Defined.


Lemma fuzzy_word_match_witness :
  In (nth 0 (tokenize (normalizeArabicText lowerASCII verse1)) [])
     (tokenize (normalizeArabicText lowerASCII verse1)) /\
  In (nth 0 (tokenize (normalizeArabicText lowerASCII verse2)) [])
     (tokenize (normalizeArabicText lowerASCII verse2)) /\
  normalizeArabicText lowerASCII (nth 0 (tokenize (normalizeArabicText lowerASCII verse1)) [])
  = nth 0 (tokenize (normalizeArabicText lowerASCII verse1)) [] /\
  (arabicWordMatch lowerASCII
     (nth 0 (tokenize (normalizeArabicText lowerASCII verse1)) [])
     (nth 0 (tokenize (normalizeArabicText lowerASCII verse2)) []) = true <->
   normalizeArabicText lowerASCII
     (nth 0 (tokenize (normalizeArabicText lowerASCII verse1)) [])
   = normalizeArabicText lowerASCII
       (nth 0 (tokenize (normalizeArabicText lowerASCII verse2)) []) \/
   (2 < length (normalizeArabicText lowerASCII
                  (nth 0 (tokenize (normalizeArabicText lowerASCII verse1)) [])) /\
    2 < length (normalizeArabicText lowerASCII
                  (nth 0 (tokenize (normalizeArabicText lowerASCII verse2)) [])) /\
    (0.85 <= 1 - Qnat (levenshteinDistance
                         (nth 0 (tokenize (normalizeArabicText lowerASCII verse1)) [])
                         (nth 0 (tokenize (normalizeArabicText lowerASCII verse2)) []))
                 / Qnat (Nat.max
                           (length (nth 0 (tokenize (normalizeArabicText lowerASCII verse1)) []))
                           (length (nth 0 (tokenize (normalizeArabicText lowerASCII verse2)) []))))%Q)).
Proof.
  assert (H1 : In (nth 0 (tokenize (normalizeArabicText lowerASCII verse1)) [])
                  (tokenize (normalizeArabicText lowerASCII verse1)))
    by (vm_compute; left; reflexivity).
  assert (H2 : In (nth 0 (tokenize (normalizeArabicText lowerASCII verse2)) [])
                  (tokenize (normalizeArabicText lowerASCII verse2)))
    by (vm_compute; left; reflexivity).
  split; [exact H1|]. split; [exact H2|].
  pose proof (fuzzy_word_match lowerASCII lowerASCII_twice lowerASCII_space
                lowerASCII_plain lowerASCII_nonempty verse1 verse2 _ _ H1 H2) as H.
  split; [exact (proj1 (proj2 (proj2 (proj2 H)))) | exact (proj1 H)].
Defined.

(** ** The matcher on doubles at sample inputs *)

Section DoublesExamples.

Import PrimFloat.

#[local] Set Warnings "-inexact-float".

(** The session that [initializeSession(1, 1, 3)] creates on the sample
    corpus. *)
Definition sampleSessionDoubles : Doubles.RecitationSession :=
  Doubles.buildSlidingWindows lowerASCII sampleQuran (Doubles.newSession 1 1 3).

Example sample_initialize_doubles :
  Doubles.initializeSession lowerASCII sampleQuran None 1 1 3
  = (inr sampleSessionDoubles, Some sampleSessionDoubles).
Proof. reflexivity. Qed.

(** Scenario: the first verse is recited; the match is the window of verse 1
    with confidence and accuracy 1, and the position advances to 2. *)
Example scenario_first_verse_doubles :
  exists m s,
    Doubles.processAudioChunk lowerASCII sampleQuran (Some sampleSessionDoubles) verse1
    = (Some m, Some s) /\
    Doubles.MatchResult.startAyah m = 1%Z /\ Doubles.MatchResult.endAyah m = 1%Z /\
    Doubles.MatchResult.confidence m = 1%float /\
    Doubles.MatchResult.accuracy m = 1%float /\
    Doubles.MatchResult.matchedWords m = 4%float /\
    Doubles.currentPosition s = 2%Z.
Proof.
  destruct (Doubles.processAudioChunk lowerASCII sampleQuran (Some sampleSessionDoubles) verse1)
    as [[m|] [s|]] eqn:H; vm_compute in H; try discriminate.
  exists m, s. injection H as <- <-. now repeat split.
Qed.

(** A verse of six words, and an utterance that repeats it and adds a word
    of 42 letters: the sequence match is 6/7, the word overlap 3/4 and the
    edit score 13/56. *)
Definition boundaryVerse : jsString :=
  [0x61; 0x61; 0x20; 0x62; 0x20; 0x63; 0x20; 0x61; 0x61; 0x20; 0x62; 0x20; 0x63]%N.

Definition boundaryUtterance : jsString := boundaryVerse ++ SPACE :: repeat 0x78%N 42.

Definition boundaryQuran : QuranData :=
  {| suras := [Sura.mk 1 [] [Aya.mk 1 boundaryVerse None]] |}.

(** Scenario: a confidence at the threshold.  In exact arithmetic the
    confidence of the window is 6/7 * 0.5 + 3/4 * 0.3 + 13/56 * 0.2 = 0.7,
    the threshold; the doubles of the source give 0.6999999999999998, so the
    window is not accepted: [processAudioChunk] returns [null] and counts a
    failure. *)
Example scenario_confidence_at_threshold :
  let session := Doubles.buildSlidingWindows lowerASCII boundaryQuran (Doubles.newSession 1 1 3) in
  let words := tokenize (normalizeArabicText lowerASCII boundaryUtterance) in
  map (fun w => Doubles.Score.confidence (Doubles.scoreWindow lowerASCII words w))
      (Doubles.slidingWindows session)
  = [0x1.6666666666665p-1%float] /\
  (0x1.6666666666665p-1 <? 0.7)%float = true /\
  fst (Doubles.processAudioChunk lowerASCII boundaryQuran (Some session) boundaryUtterance)
  = None /\
  option_map Doubles.consecutiveFailures
    (snd (Doubles.processAudioChunk lowerASCII boundaryQuran (Some session) boundaryUtterance))
  = Some 1%Z /\
  map (fun w => Qred (Score.confidence (scoreWindow lowerASCII words w)))
      (Doubles.slidingWindows session)
  = [(7 # 10)%Q].
Proof. vm_compute. repeat split. Qed.

(** Scenario: two candidates of equal rank in exact arithmetic.  For the
    verses ["b ca"] and ["b c"] and the utterance ["b ca b"], the window of
    verse 1 and the window of the verses 1 to 2 both have the combined score
    217/300 in exact arithmetic, where the first of them would be the match.
    The doubles of the source are 0.7233333333333333 and 0.7233333333333334:
    the match is the window of the verses 1 to 2, and the position advances
    to 3. *)
Definition tieQuran : QuranData :=
  {| suras := [Sura.mk 1 [] [Aya.mk 1 [0x62; 0x20; 0x63; 0x61]%N None;
                             Aya.mk 2 [0x62; 0x20; 0x63]%N None]] |}.

Definition tieUtterance : jsString := [0x62; 0x20; 0x63; 0x61; 0x20; 0x62]%N.

Example scenario_ranking_in_doubles :
  let session := Doubles.buildSlidingWindows lowerASCII tieQuran (Doubles.newSession 1 1 2) in
  map (fun m => (Doubles.MatchResult.windowIndex m, Doubles.combinedScore m))
      (Doubles.acceptedWindows lowerASCII session tieUtterance)
  = [(0%Z, 0x1.7258bf258bf25p-1%float); (1%Z, 0x1.7258bf258bf26p-1%float)] /\
  (exists m s,
     Doubles.processAudioChunk lowerASCII tieQuran (Some session) tieUtterance
     = (Some m, Some s) /\
     Doubles.MatchResult.windowIndex m = 1%Z /\
     Doubles.MatchResult.startAyah m = 1%Z /\ Doubles.MatchResult.endAyah m = 2%Z /\
     Doubles.currentPosition s = 3%Z) /\
  map (fun m => (MatchResult.windowIndex m, Qred (combinedScore m)))
      (acceptedWindows lowerASCII
         (buildSlidingWindows lowerASCII tieQuran
            {| suraIndex := 1%Z; currentPosition := 1%Z; windowSize := 2%Z;
               confidenceThreshold := 0.7%Q; slidingWindows := [];
               sessionHistory := []; lastSuccessfulMatch := None;
               consecutiveFailures := 0%Z; isActive := true |})
         tieUtterance)
  = [(0%Z, (217 # 300)%Q); (1%Z, (217 # 300)%Q)].
Proof.
  cbv zeta. split; [vm_compute; reflexivity|]. split; [|vm_compute; reflexivity].
  destruct (Doubles.processAudioChunk lowerASCII tieQuran _ tieUtterance)
    as [[m|] [s|]] eqn:H; vm_compute in H; try discriminate.
  exists m, s. injection H as <- <-. now repeat split.
Qed.

(** [Math.round] on doubles: 15/44 * 22 is the double below 7.5 and rounds
    to 7; the largest double below 0.5 rounds to 0. *)
Example sample_Math_round :
  Doubles.Math_round (Doubles.Number_ofNat 15 / Doubles.Number_ofNat 44
                      * Doubles.Number_ofNat 22)%float = 7%float /\
  Doubles.Math_round 7.5 = 8%float /\
  Doubles.Math_round 0x1.fffffffffffffp-2 = 0%float /\
  Doubles.Math_round (-2.5) = (-2)%float.
Proof. vm_compute. repeat split. Qed.



End DoublesExamples.
